(** * RESCUE metrics: a shallow embedding of [code/metrics.py]

    The module evaluates quantile forecasts against observations: seven
    scalar metric functions, an aggregator that fills a table of metric
    values per (quantile, fold) column, a second aggregator that runs the
    first over every quantile level, and a detector of quantile crossings.

    Numbers.  A series holds finite numbers, modelled as rationals [Q] with
    exact arithmetic (rounding and overflow of binary64 are not modelled).
    The non-finite results [nan] and [inf], which the code produces out of
    finite data (the mean of nothing, a label missing after alignment, a
    division by a zero time step), are modelled by the type [scalar].

    Timestamps.  The labels of a series are the 64-bit nanosecond counts
    of a datetime index.  A difference of two timestamps that does not fit
    64 bits makes pandas raise OverflowError; [reserve_ramp_rate] is the
    one function that subtracts timestamps.

    Column index.  The prediction table carries, next to its columns, the
    list [columns.levels[0]] that the second aggregator runs over; a slice
    of a larger table keeps levels that none of its columns uses.

    State.  [pinball_loss.__defaults__] and the data frames that the
    aggregator mutates in place are modelled by an explicit program state
    (a default quantile and a heap of frames) threaded by a state-and-error
    monad. *)

From Stdlib Require Import QArith Qabs Lqa ZArith List String Bool Lia Sorted.
From stdpp Require Import base list.
Import ListNotations.

Local Open Scope Q_scope.

(** ** Scalars: what a numpy reduction returns *)

Inductive scalar : Type :=
| Num (q : Q)
| PInf
| NInf
| NaN.

Definition is_nan (s : scalar) : bool :=
  match s with NaN => true | _ => false end.

(** Equality of scalars up to the representation of a rational. *)
Definition scalar_eq (a b : scalar) : Prop :=
  match a, b with
  | Num x, Num y => x == y
  | PInf, PInf | NInf, NInf | NaN, NaN => True
  | _, _ => False
  end.

Definition sadd (a b : scalar) : scalar :=
  match a, b with
  | NaN, _ | _, NaN => NaN
  | PInf, NInf | NInf, PInf => NaN
  | PInf, _ | _, PInf => PInf
  | NInf, _ | _, NInf => NInf
  | Num x, Num y => Num (x + y)
  end.

(** [c * s] for a finite factor [c]. *)
Definition smul (c : Q) (s : scalar) : scalar :=
  match s with
  | Num x => Num (c * x)
  | NaN => NaN
  | PInf => if Qlt_le_dec 0 c then PInf else if Qlt_le_dec c 0 then NInf else NaN
  | NInf => if Qlt_le_dec 0 c then NInf else if Qlt_le_dec c 0 then PInf else NaN
  end.

Definition sabs (s : scalar) : scalar :=
  match s with
  | Num x => Num (Qabs x)
  | PInf | NInf => PInf
  | NaN => NaN
  end.

(** Division of a sum by a count [n > 0]. *)
Definition sdivn (s : scalar) (n : nat) : scalar :=
  match s with
  | Num x => Num (x / inject_Z (Z.of_nat n))
  | other => other
  end.

(** [np.maximum]: the larger of two scalars, [nan] if either is [nan]. *)
Definition smax (a b : scalar) : scalar :=
  match a, b with
  | NaN, _ | _, NaN => NaN
  | PInf, _ | _, PInf => PInf
  | NInf, x | x, NInf => x
  | Num x, Num y => if Qle_bool x y then Num y else Num x
  end.

Definition ssum (l : list scalar) : scalar := fold_right sadd (Num 0) l.

(** [np.mean] of an array: [nan] for an empty array, and [nan] as soon as
    one element is [nan]. *)
Definition np_mean (l : list scalar) : scalar :=
  match l with
  | [] => NaN
  | _ :: _ => sdivn (ssum l) (length l)
  end.

Definition dropna (l : list scalar) : list scalar :=
  List.filter (fun s => negb (is_nan s)) l.

(** [Series.mean()] (what [np.mean] of a pandas Series dispatches to):
    [nan] entries are skipped; [nan] when nothing is left. *)
Definition pd_mean (l : list scalar) : scalar := np_mean (dropna l).

(** [Series.max()]: [nan] entries are skipped; [nan] when nothing is left. *)
Definition pd_max (l : list scalar) : scalar :=
  match dropna l with
  | [] => NaN
  | x :: r => fold_left smax r x
  end.

Definition of_bool (b : bool) : scalar := if b then Num 1 else Num 0.

(** ** Series *)

(** A pandas Series of finite numbers: (label, value) rows in order.  The
    labels are timestamps, in nanoseconds. *)
Definition Series : Type := list (Z * Q).

Definition labels {A} (s : list (Z * A)) : list Z := map fst s.
Definition values {A} (s : list (Z * A)) : list A := map snd s.

Fixpoint list_eqb {A} (eqb : A -> A -> bool) (l1 l2 : list A) : bool :=
  match l1, l2 with
  | [], [] => true
  | x :: r1, y :: r2 => eqb x y && list_eqb eqb r1 r2
  | _, _ => false
  end.

(** [left.index.equals(right.index)] *)
Definition index_equals {A B} (a : list (Z * A)) (b : list (Z * B)) : bool :=
  list_eqb Z.eqb (labels a) (labels b).

(** Errors the code raises. *)
Inductive error : Type :=
| KeyError        (* a (tau, fold) column that the prediction table lacks *)
| ValueError      (* a comparison of series that are not identically labelled,
                     a blank cell converted to float *)
| AttributeError  (* a method called on [None], [levels] asked of a flat
                     column index *)
| TypeError       (* two names given to an index that has one level *)
| OverflowError.  (* a difference of timestamps beyond 64 bits *)

Inductive result (A : Type) : Type :=
| Ok (a : A)
| Raise (e : error).
Arguments Ok {A} a.
Arguments Raise {A} e.

Section Sorting.
Context {A : Type} (leb eqb : A -> A -> bool).

Fixpoint insert_sorted (x : A) (l : list A) : list A :=
  match l with
  | [] => [x]
  | y :: r =>
      if eqb x y then y :: r
      else if leb x y then x :: y :: r
      else y :: insert_sorted x r
  end.

(** [np.sort(np.unique(l))] *)
Definition sort_unique (l : list A) : list A :=
  fold_right insert_sorted [] l.
End Sorting.

(** Values carried by label [l]. *)
Definition at_label {A} (l : Z) (s : list (Z * A)) : list A :=
  values (List.filter (fun r => Z.eqb (fst r) l) s).

(** Rows of the outer join of [a] and [b] at label [l]: one row per pair of
    matching rows, and [nan] rows where one side lacks the label. *)
Definition join_rows (a b : Series) (l : Z) : list (Z * scalar) :=
  match at_label l a, at_label l b with
  | [], lb => map (fun _ => (l, NaN)) lb
  | la, [] => map (fun _ => (l, NaN)) la
  | la, lb => flat_map (fun x => map (fun y => (l, Num (x - y))) lb) la
  end.

(** [a - b] on two Series.  Identically labelled series are subtracted row
    by row; otherwise pandas aligns them on the sorted union of labels. *)
Definition series_sub (a b : Series) : list (Z * scalar) :=
  if index_equals a b
  then map (fun r => (fst (fst r), Num (snd (fst r) - snd (snd r)))) (combine a b)
  else flat_map (join_rows a b) (sort_unique Z.leb Z.eqb (labels a ++ labels b)).

(** [a <= b] and [a > b] on two Series: pandas refuses to compare series
    that are not identically labelled. *)
Definition series_cmp (cmp : Q -> Q -> bool) (a b : Series) : result (list bool) :=
  if index_equals a b
  then Ok (map (fun r => cmp (snd (fst r)) (snd (snd r))) (combine a b))
  else Raise ValueError.

Definition Qgt_bool (x y : Q) : bool := negb (Qle_bool x y).

(** Boolean-mask selection [s[mask]]. *)
Fixpoint select {A} (s : list A) (mask : list bool) : list A :=
  match s, mask with
  | x :: s', m :: mask' => if m then x :: select s' mask' else select s' mask'
  | _, _ => []
  end.

(** ** The metric functions *)

Definition coverage (y_true y_pred : Series) : result scalar :=
  match series_cmp Qle_bool y_true y_pred with
  | Ok mask => Ok (pd_mean (map of_bool mask))
  | Raise e => Raise e
  end.

Definition requirement (y_true y_pred : Series) : result scalar :=
  Ok (pd_mean (map Num (values y_pred))).

Definition exceeding (y_true y_pred : Series) : result scalar :=
  let diff := series_sub y_true y_pred in
  match series_cmp Qgt_bool y_true y_pred with
  | Ok mask => Ok (pd_mean (values (select diff mask)))
  | Raise e => Raise e
  end.

Definition closeness (y_true y_pred : Series) : result scalar :=
  Ok (pd_mean (map sabs (values (series_sub y_true y_pred)))).

Definition max_exceeding (y_true y_pred : Series) : result scalar :=
  Ok (pd_max (values (series_sub y_true y_pred))).

(** Nanoseconds per hour, [1e9 * 3600]. *)
Definition ns_per_hour : Q := inject_Z 3600000000000.

(** [y_pred.values[1:] - y_pred.values[:-1]] *)
Fixpoint value_steps (v : list Q) : list Q :=
  match v with
  | x0 :: ((x1 :: _) as rest) => (x1 - x0) :: value_steps rest
  | _ => []
  end.

(** A time step that fits the 64 bits of a [timedelta64[ns]]. *)
Definition int64_ok (dt : Z) : bool :=
  ((- 2 ^ 63 <=? dt) && (dt <? 2 ^ 63))%Z.

Fixpoint time_steps (idx : list Z) : list Z :=
  match idx with
  | t0 :: ((t1 :: _) as rest) => (t1 - t0)%Z :: time_steps rest
  | _ => []
  end.

(** [y_pred.index[1:] - y_pred.index[:-1]] on an index of timestamps:
    pandas subtracts the 64-bit nanosecond counts with a check and raises
    OverflowError when a difference does not fit. *)
Definition index_steps (idx : list Z) : result (list Z) :=
  if forallb int64_ok (time_steps idx) then Ok (time_steps idx)
  else Raise OverflowError.

(** One ramp: [|dv| / (dt / (1e9 * 3600))].  A zero time step divides by
    [+0.0]: [inf] for a nonzero numerator, [nan] for [0/0]. *)
Definition ramp (dv : Q) (dt : Z) : scalar :=
  if Z.eqb dt 0
  then (if Qeq_bool dv 0 then NaN else PInf)
  else Num (Qabs dv / (inject_Z dt / ns_per_hour)).

(** The elementwise quotient of the two arrays of line 91. *)
Fixpoint rates (dvs : list Q) (dts : list Z) : list scalar :=
  match dvs, dts with
  | dv :: dvs', dt :: dts' => ramp dv dt :: rates dvs' dts'
  | _, _ => []
  end.

Definition reserve_ramp_rate (y_true y_pred : Series) : result scalar :=
  match index_steps (labels y_pred) with
  | Ok dts => Ok (np_mean (rates (value_steps (values y_pred)) dts))
  | Raise e => Raise e
  end.

(** [np.max(np.array([a, b]), axis=0)] *)
Fixpoint rowwise_max (a b : list scalar) : list scalar :=
  match a, b with
  | x :: a', y :: b' => smax x y :: rowwise_max a' b'
  | _, _ => []
  end.

Definition pinball_loss (y_true y_pred : Series) (tau : Q) : result scalar :=
  Ok (np_mean (rowwise_max
                 (map (smul (1 - tau)) (values (series_sub y_pred y_true)))
                 (map (smul tau) (values (series_sub y_true y_pred))))).

(** ** Dictionaries and column-keyed frames *)

(** An insertion-ordered dictionary.  Assigning to a key that is present
    replaces its value where it stands; a new key goes to the end. *)
Section Dict.
Context {K V : Type} (eqb : K -> K -> bool).

Fixpoint dict_get (k : K) (d : list (K * V)) : option V :=
  match d with
  | [] => None
  | (k', v) :: r => if eqb k' k then Some v else dict_get k r
  end.

Fixpoint dict_set (k : K) (v : V) (d : list (K * V)) : list (K * V) :=
  match d with
  | [] => [(k, v)]
  | (k', v') :: r =>
      if eqb k' k then (k', v) :: r else (k', v') :: dict_set k v r
  end.

Fixpoint dict_alter (f : V -> V) (k : K) (d : list (K * V)) : list (K * V) :=
  match d with
  | [] => []
  | (k', v') :: r =>
      if eqb k' k then (k', f v') :: r else (k', v') :: dict_alter f k r
  end.
End Dict.

(** A column key [(tau, CV)]: quantile level and fold identifier.  Two keys
    are the same when their numbers are equal. *)
Abbreviation colkey := (Q * nat)%type.

Definition key_eqb (a b : colkey) : bool :=
  Qeq_bool (fst a) (fst b) && Nat.eqb (snd a) (snd b).

(** The prediction table [pred_trainval]: a frame of numbers whose columns
    are keyed by [(tau, CV)] and share one index of timestamps.
    [pt_levels] is [columns.levels[0]] when the column index has two
    levels: the quantile levels the index knows, in the order it keeps
    them, among them levels that no column uses any more (a slice of a
    larger table keeps the levels of that table).  It is [None] for a flat
    column index, which has no [levels]. *)
Record PredTable : Type := {
  pt_index : list Z;
  pt_levels : option (list Q);
  pt_columns : list (colkey * list Q)
}.

(** The invariant of a frame: every column is as long as the index. *)
Definition pred_wf (pred : PredTable) : Prop :=
  Forall (fun c => length (snd c) = length (pt_index pred)) (pt_columns pred).

(** [pred_trainval[(tau, CV)]] *)
Definition pred_getitem (pred : PredTable) (key : colkey) : result Series :=
  match dict_get key_eqb key (pt_columns pred) with
  | Some vals => Ok (combine (pt_index pred) vals)
  | None => Raise KeyError
  end.

(** ** The crossing detector *)

Definition bind_result {A B} (r : result A) (k : A -> result B) : result B :=
  match r with
  | Ok a => k a
  | Raise e => Raise e
  end.

(** A loop that threads an accumulator and stops at the first error. *)
Fixpoint foldM {A S} (body : S -> A -> result S) (l : list A) (s : S) : result S :=
  match l with
  | [] => Ok s
  | x :: r => bind_result (body s x) (foldM body r)
  end.

Definition Qlt_bool (x y : Q) : bool := negb (Qle_bool y x).

Definition pair_eqb (a b : Q * Q) : bool :=
  Qeq_bool (fst a) (fst b) && Qeq_bool (snd a) (snd b).

(** [sum(mask)] of a boolean series: the number of [True]. *)
Definition count_true (mask : list bool) : nat :=
  length (List.filter (fun b => b) mask).

(** [np.sort(np.unique(...))] of the first and of the second entries of
    the column keys, as the crossing detector collects them. *)
Definition tau_levels (pred : PredTable) : list Q :=
  sort_unique Qle_bool Qeq_bool (map (fun c => fst (fst c)) (pt_columns pred)).

Definition fold_ids (pred : PredTable) : list nat :=
  sort_unique Nat.leb Nat.eqb (map (fun c => snd (fst c)) (pt_columns pred)).

(** The dictionary [crossings]: fold identifier to (pair of quantile levels
    to count); [pd.DataFrame(crossings)] presents it as a frame with
    columns labelled by the folds and rows by the pairs. *)
Definition Crossings : Type := list (nat * list ((Q * Q) * nat)).

Definition crossings_cell (pred : PredTable) (CV : nat) (t1 : Q)
    (row : list ((Q * Q) * nat)) (t2 : Q) : result (list ((Q * Q) * nat)) :=
  if Qlt_bool t1 t2 then
    bind_result (pred_getitem pred (t1, CV)) (fun lower =>
    bind_result (pred_getitem pred (t2, CV)) (fun upper =>
    bind_result (series_cmp Qgt_bool lower upper) (fun mask =>
    Ok (dict_set pair_eqb (t1, t2) (count_true mask) row))))
  else Ok row.

Definition crossings_fold (pred : PredTable) (tau_arr : list Q) (CV : nat)
  : result (list ((Q * Q) * nat)) :=
  foldM (fun row t1 => foldM (crossings_cell pred CV t1) tau_arr row) tau_arr [].

(** The loop of lines 219 to 225. *)
Definition crossings_loop (pred_trainval : PredTable) (tau_arr : list Q)
    (CV_arr : list nat) : result Crossings :=
  foldM (fun crossings CV =>
           bind_result (crossings_fold pred_trainval tau_arr CV) (fun row =>
           Ok (dict_set Nat.eqb CV row crossings)))
        CV_arr [].

(** The row labels of [pd.DataFrame(crossings)]: the pairs that some fold
    holds. *)
Definition row_labels (c : Crossings) : list (Q * Q) :=
  flat_map (fun col => map fst (snd col)) c.

(** [df.index.rename(['Lower Quantile', 'Upper Quantile'], inplace=True)]:
    the row index has two levels when its labels are pairs; without any
    label it is a flat index, which takes one name and raises TypeError on
    a list of two. *)
Definition index_rename (c : Crossings) : result Crossings :=
  match row_labels c with
  | [] => Raise TypeError
  | _ :: _ => Ok c
  end.

Definition n_crossings (pred_trainval : PredTable) : result Crossings :=
  let tau_arr := tau_levels pred_trainval in
  let CV_arr := fold_ids pred_trainval in
  bind_result (crossings_loop pred_trainval tau_arr CV_arr) index_rename.

(** The entry of the crossing table for a pair at a fold. *)
Definition crossings_at (c : Crossings) (CV : nat) (pair : Q * Q) : option nat :=
  match dict_get Nat.eqb CV c with
  | Some row => dict_get pair_eqb pair row
  | None => None
  end.

(** ** The metric result table *)

(** A cell holds the placeholder [""] or a metric value. *)
Inductive cell : Type :=
| Blank
| Val (v : scalar).

(** A column of the metric table: one cell per row label. *)
Definition Column : Type := list (string * cell).

Record DataFrame : Type := {
  df_index : list string;
  df_columns : list (colkey * Column)
}.

(** [pd.DataFrame()] with its index set to the metric names. *)
Definition frame_new (names : list string) : DataFrame :=
  {| df_index := names; df_columns := [] |}.

(** [df[key] = ""] *)
Definition setitem_column (key : colkey) (F : DataFrame) : DataFrame :=
  {| df_index := df_index F;
     df_columns := dict_set key_eqb key (map (fun n => (n, Blank)) (df_index F))
                            (df_columns F) |}.

(** [col[name] = v]: every row labelled [name] takes the value. *)
Definition set_rows (name : string) (v : scalar) (col : Column) : Column :=
  map (fun r => if String.eqb (fst r) name then (fst r, Val v) else r) col.

(** [df[key][name] = v]: the column taken out of the frame is a view of
    it, so the assignment lands in the frame (pandas without copy on
    write, which [mean(axis=1, level=0)] below needs as well).  A name that
    labels no row leaves the frame as it is. *)
Definition setitem_cell (key : colkey) (name : string) (v : scalar)
    (F : DataFrame) : DataFrame :=
  {| df_index := df_index F;
     df_columns := dict_alter key_eqb (set_rows name v) key (df_columns F) |}.

(** The cell at row [name] of column [key]. *)
Definition df_at (F : DataFrame) (name : string) (key : colkey) : option cell :=
  match dict_get key_eqb key (df_columns F) with
  | Some col => dict_get String.eqb name col
  | None => None
  end.

Definition df_keys (F : DataFrame) : list colkey := map fst (df_columns F).

(** ** Program state *)

(** References to frames are positions in the heap. *)
Abbreviation loc := nat (only parsing).

Record State : Type := {
  pinball_defaults : Q;      (* [pinball_loss.__defaults__] *)
  heap : list DataFrame      (* the frames alive, by reference *)
}.

(** The state when the module has just been loaded. *)
Definition initial_state : State :=
  {| pinball_defaults := 975 # 1000; heap := [] |}.

Definition M (A : Type) : Type := State -> result A * State.

Definition ret {A} (a : A) : M A := fun st => (Ok a, st).

Definition bind {A B} (c : M A) (k : A -> M B) : M B :=
  fun st =>
    match c st with
    | (Ok a, st') => k a st'
    | (Raise e, st') => (Raise e, st')
    end.

Global Instance M_ret : MRet M := @ret.
Global Instance M_bind : MBind M := fun A B k c => bind c k.

Definition lift {A} (r : result A) : M A := fun st => (r, st).

Definition set_pinball_defaults (tau : Q) : M unit :=
  fun st => (Ok tt, {| pinball_defaults := tau; heap := heap st |}).

Definition get_pinball_defaults : M Q :=
  fun st => (Ok (pinball_defaults st), st).

(** A new frame object; its reference is returned. *)
Definition new_frame (F : DataFrame) : M loc :=
  fun st => (Ok (length (heap st)),
             {| pinball_defaults := pinball_defaults st; heap := heap st ++ [F] |}).

Definition read_frame (l : loc) : M DataFrame :=
  fun st => (Ok (default (frame_new []) (heap st !! l)), st).

(** In-place update of the frame behind a reference. *)
Definition modify_frame (l : loc) (f : DataFrame -> DataFrame) : M unit :=
  fun st => (Ok tt, {| pinball_defaults := pinball_defaults st;
                       heap := alter f l (heap st) |}).

Fixpoint for_each {A} (l : list A) (body : A -> M unit) : M unit :=
  match l with
  | [] => ret tt
  | x :: r => body x ;; for_each r body
  end.

(** ** The aggregators *)

Inductive metric : Type :=
| Coverage
| Requirement
| Exceeding
| Closeness
| MaxExceeding
| ReserveRampRate
| PinballLoss.

(** [metric.__name__] *)
Definition metric_name (m : metric) : string :=
  match m with
  | Coverage => "coverage"
  | Requirement => "requirement"
  | Exceeding => "exceeding"
  | Closeness => "closeness"
  | MaxExceeding => "max_exceeding"
  | ReserveRampRate => "reserve_ramp_rate"
  | PinballLoss => "pinball_loss"
  end.

(** [metric(y_true, y_pred)]: [pinball_loss] is called without [tau] and
    takes it from its current default. *)
Definition call_metric (m : metric) (y_true y_pred : Series) : M scalar :=
  match m with
  | Coverage => lift (coverage y_true y_pred)
  | Requirement => lift (requirement y_true y_pred)
  | Exceeding => lift (exceeding y_true y_pred)
  | Closeness => lift (closeness y_true y_pred)
  | MaxExceeding => lift (max_exceeding y_true y_pred)
  | ReserveRampRate => lift (reserve_ramp_rate y_true y_pred)
  | PinballLoss =>
      tau ← get_pinball_defaults; lift (pinball_loss y_true y_pred tau)
  end.

Definition default_metrics : list metric :=
  [Coverage; Requirement; Exceeding; Closeness; MaxExceeding;
   ReserveRampRate; PinballLoss].

(** [np.arange(10)] *)
Definition CV_folds : list nat := seq 0 10.

(** One fold of the loop of lines 163 to 167. *)
Definition fill_fold (output_trainval : Series) (pred_trainval : PredTable)
    (df : loc) (tau : Q) (metrics : list metric) (CV : nat) : M unit :=
  y_pred ← lift (pred_getitem pred_trainval (tau, CV));
  modify_frame df (setitem_column (tau, CV)) ;;
  for_each metrics (fun m =>
    v ← call_metric m output_trainval y_pred;
    modify_frame df (setitem_cell (tau, CV) (metric_name m) v)).

(** [compute_metrics_for_specified_tau], with [filename=None] (writing the
    table to a file is left out).  [df] is [None] or a reference to an
    existing table.  The last step, [df.T.set_index(...).T], builds a new
    frame object with the same cells, whose columns are a two-level index;
    its reference is returned. *)
Definition compute_metrics_for_specified_tau (output_trainval : Series)
    (pred_trainval : PredTable) (df : option loc) (tau : Q)
    (metrics : list metric) : M loc :=
  set_pinball_defaults tau ;;
  df ← match df with
        | None => new_frame (frame_new (map metric_name metrics))
        | Some l => ret l
        end;
  for_each CV_folds (fill_fold output_trainval pred_trainval df tau metrics) ;;
  F ← read_frame df;
  new_frame F.

(** The frame averaged over folds: columns keyed by quantile level only. *)
Definition AvgFrame : Type := list (Q * list (string * scalar)).


(** [astype('float')] of one cell: the placeholder [""] is not a number. *)
Definition cell_float (c : cell) : result scalar :=
  match c with
  | Val v => Ok v
  | Blank => Raise ValueError
  end.

Fixpoint mapM {A B} (f : A -> result B) (l : list A) : result (list B) :=
  match l with
  | [] => Ok []
  | x :: r =>
      bind_result (f x) (fun y =>
      bind_result (mapM f r) (fun ys => Ok (y :: ys)))
  end.

(** [astype('float')] of a frame. *)
Definition astype_float (F : DataFrame)
  : result (list (colkey * list (string * scalar))) :=
  mapM (fun c =>
          bind_result
            (mapM (fun r => bind_result (cell_float (snd r))
                                        (fun v => Ok (fst r, v))) (snd c))
            (fun col => Ok (fst c, col)))
       (df_columns F).

(** The distinct values of a list, in order of first appearance. *)
Fixpoint unique_first (l : list Q) : list Q :=
  match l with
  | [] => []
  | x :: r => x :: List.filter (fun y => negb (Qeq_bool x y)) (unique_first r)
  end.

(** The values at row [name] in the columns of level [tau]; a column
    without that row contributes a missing value. *)
Definition level_values (cols : list (colkey * list (string * scalar)))
    (tau : Q) (name : string) : list scalar :=
  map (fun c => default NaN (dict_get String.eqb name (snd c)))
      (List.filter (fun c => Qeq_bool (fst (fst c)) tau) cols).

(** [mean(axis=1, level=0)]: the columns are grouped by their first level
    and each row of a group is averaged, skipping [nan]. *)
Definition mean_level0 (index : list string)
    (cols : list (colkey * list (string * scalar))) : AvgFrame :=
  map (fun tau => (tau, map (fun name => (name, pd_mean (level_values cols tau name))) index))
      (unique_first (map (fun c => fst (fst c)) cols)).

(** What [compute_metrics_for_all_taus] returns. *)
Inductive table : Type :=
| PerFold (F : DataFrame)
| Averaged (A : AvgFrame).

(** The loop of lines 189 to 191. *)
Fixpoint all_taus_loop (output_trainval : Series) (pred_trainval : PredTable)
    (taus : list Q) (metrics_value_df : option loc) : M (option loc) :=
  match taus with
  | [] => ret metrics_value_df
  | tau :: r =>
      l ← compute_metrics_for_specified_tau output_trainval pred_trainval
             metrics_value_df tau default_metrics;
      all_taus_loop output_trainval pred_trainval r (Some l)
  end.

(** [pred_trainval.columns.levels[0]] *)
Definition columns_levels0 (pred : PredTable) : result (list Q) :=
  match pt_levels pred with
  | Some taus => Ok taus
  | None => Raise AttributeError
  end.

(** [compute_metrics_for_all_taus]; the table returned is read off the
    heap.  With no quantile level at all the loop leaves [None]. *)
Definition compute_metrics_for_all_taus (output_trainval : Series)
    (pred_trainval : PredTable) (avg_across_folds : bool) : M (option table) :=
  taus ← lift (columns_levels0 pred_trainval);
  metrics_value_df ← all_taus_loop output_trainval pred_trainval taus None;
  if avg_across_folds then
    match metrics_value_df with
    | None => lift (Raise AttributeError)
    | Some l =>
        F ← read_frame l;
        cols ← lift (astype_float F);
        ret (Some (Averaged (mean_level0 (df_index F) cols)))
    end
  else
    match metrics_value_df with
    | None => ret None
    | Some l => F ← read_frame l; ret (Some (PerFold F))
    end.

(** ** Definitions used to state and prove the properties *)

(** The call returns the number [v], up to the representation of a
    rational. *)
Definition returns (r : result scalar) (v : scalar) : Prop :=
  match r with
  | Ok s => scalar_eq s v
  | Raise _ => False
  end.

(** The least number of points a metric is meant for: two for the ramp
    rate, which looks at consecutive points, one for the others. *)
Definition min_points (m : metric) : nat :=
  match m with
  | ReserveRampRate => 2
  | _ => 1
  end.

(** The sum of finitely many numbers. *)
Definition qsum (l : list Q) : Q := fold_right Qplus 0 l.

(** The pinball term of one timestamp, as the code computes it: the larger
    of [(1 - tau) * (y_pred - y_true)] and [tau * (y_true - y_pred)]. *)
Definition pinball_term (tau yt yp : Q) : Q :=
  if Qle_bool ((1 - tau) * (yp - yt)) (tau * (yt - yp))
  then tau * (yt - yp) else (1 - tau) * (yp - yt).

(** The number of timestamps at which the lower series strictly exceeds the
    upper one. *)
Fixpoint exceed_count (lower upper : Series) : nat :=
  match lower, upper with
  | a :: l, b :: u =>
      ((if Qlt_le_dec (snd b) (snd a) then 1 else 0) + exceed_count l u)%nat
  | _, _ => 0%nat
  end.

(** Every present quantile level is paired with every present fold. *)
Definition pred_complete (pred : PredTable) : Prop :=
  forall c1 c2, In c1 (pt_columns pred) -> In c2 (pt_columns pred) ->
    dict_get key_eqb (fst (fst c1), snd (fst c2)) (pt_columns pred) <> None.

(** The table has a column for key [k]. *)
Definition present (pred : PredTable) (k : colkey) : Prop :=
  dict_get key_eqb k (pt_columns pred) <> None.

(** The row of a fold has an entry for the pair [p]. *)
Definition has_pair (row : list ((Q * Q) * nat)) (p : Q * Q) : Prop :=
  dict_get pair_eqb p row <> None.

(** What a row of the crossing dictionary holds for fold [CV]: only pairs
    lower < upper, each with the count of its two columns. *)
Definition row_sound (pred : PredTable) (CV : nat)
    (row : list ((Q * Q) * nat)) : Prop :=
  forall a b n, dict_get pair_eqb (a, b) row = Some n ->
    a < b /\
    exists lower upper,
      pred_getitem pred (a, CV) = Ok lower /\
      pred_getitem pred (b, CV) = Ok upper /\
      n = exceed_count lower upper.

(** A complete row: sound, and holding every pair lower < upper. *)
Definition row_done (pred : PredTable) (taus : list Q) (CV : nat)
    (row : list ((Q * Q) * nat)) : Prop :=
  row_sound pred CV row /\
  forall t1 t2, In t1 taus -> In t2 taus -> t1 < t2 -> has_pair row (t1, t2).

(** Two quantile levels times two folds, on three timestamps. *)
Definition square_table : PredTable :=
  {| pt_index := [0%Z; 1%Z; 2%Z];
     pt_levels := Some [1 # 2; 9 # 10];
     pt_columns := [((1 # 2, 0%nat), [1; 5; 3]); ((9 # 10, 0%nat), [2; 4; 3]);
                    ((1 # 2, 1%nat), [1; 1; 1]); ((9 # 10, 1%nat), [2; 2; 2])] |}.

(** A table whose fold 0 holds both levels and whose fold 1 lacks the
    level 9/10. *)
Definition ragged_table : PredTable :=
  {| pt_index := [0%Z; 1%Z];
     pt_levels := Some [1 # 2; 9 # 10];
     pt_columns := [((1 # 2, 0%nat), [1; 5]); ((9 # 10, 0%nat), [2; 4]);
                    ((1 # 2, 1%nat), [1; 1])] |}.

(** One quantile level, two folds. *)
Definition one_level_table : PredTable :=
  {| pt_index := [0%Z; 1%Z];
     pt_levels := Some [1 # 2];
     pt_columns := [((1 # 2, 0%nat), [1; 5]); ((1 # 2, 1%nat), [1; 1])] |}.

(** The value of a metric when [pinball_loss] has default [dflt]. *)
Definition metric_value (dflt : Q) (m : metric) (y_true y_pred : Series) : result scalar :=
  match m with
  | Coverage => coverage y_true y_pred
  | Requirement => requirement y_true y_pred
  | Exceeding => exceeding y_true y_pred
  | Closeness => closeness y_true y_pred
  | MaxExceeding => max_exceeding y_true y_pred
  | ReserveRampRate => reserve_ramp_rate y_true y_pred
  | PinballLoss => pinball_loss y_true y_pred dflt
  end.


(** The state with another heap. *)
Definition with_heap (st : State) (h : list DataFrame) : State :=
  {| pinball_defaults := pinball_defaults st; heap := h |}.

(** The effect of the loop over the metrics on the frame it fills. *)
Fixpoint fill_cells (dflt : Q) (y_true y_pred : Series) (key : colkey)
    (metrics : list metric) (F : DataFrame) : result unit * DataFrame :=
  match metrics with
  | [] => (Ok tt, F)
  | m :: r =>
      match metric_value dflt m y_true y_pred with
      | Ok v => fill_cells dflt y_true y_pred key r (setitem_cell key (metric_name m) v F)
      | Raise e => (Raise e, F)
      end
  end.

(** The effect of one fold, and of the loop over the folds. *)
Definition fill_fold_frame (dflt : Q) (y_true : Series) (pred : PredTable)
    (tau : Q) (metrics : list metric) (CV : nat) (F : DataFrame)
  : result unit * DataFrame :=
  match pred_getitem pred (tau, CV) with
  | Ok y_pred => fill_cells dflt y_true y_pred (tau, CV) metrics (setitem_column (tau, CV) F)
  | Raise e => (Raise e, F)
  end.

Fixpoint fill_folds (dflt : Q) (y_true : Series) (pred : PredTable)
    (tau : Q) (metrics : list metric) (CVs : list nat) (F : DataFrame)
  : result unit * DataFrame :=
  match CVs with
  | [] => (Ok tt, F)
  | CV :: r =>
      match fill_fold_frame dflt y_true pred tau metrics CV F with
      | (Ok _, F') => fill_folds dflt y_true pred tau metrics r F'
      | (Raise e, F') => (Raise e, F')
      end
  end.

(** The value written for a metric; [nan] stands in where the call raises. *)
Definition metric_scalar (dflt : Q) (m : metric) (y_true y_pred : Series) : scalar :=
  match metric_value dflt m y_true y_pred with
  | Ok v => v
  | Raise _ => NaN
  end.

(** The column that [df[key] = ""] creates. *)
Definition blank_column (index : list string) : Column :=
  map (fun n => (n, Blank)) index.

(** A column after the loop over the metrics. *)
Fixpoint fill_column (dflt : Q) (y_true y_pred : Series) (metrics : list metric)
    (col : Column) : Column :=
  match metrics with
  | [] => col
  | m :: r =>
      fill_column dflt y_true y_pred r
        (set_rows (metric_name m) (metric_scalar dflt m y_true y_pred) col)
  end.

(** The column of fold [CV] once filled. *)
Definition fold_column (dflt : Q) (y_true : Series) (pred : PredTable) (tau : Q)
    (metrics : list metric) (index : list string) (CV : nat) : Column :=
  match pred_getitem pred (tau, CV) with
  | Ok y_pred => fill_column dflt y_true y_pred metrics (blank_column index)
  | Raise _ => []
  end.

(** The columns [(tau, CV)] assigned one after the other. *)
Definition add_columns (tau : Q) (cols : nat -> Column) (CVs : list nat)
    (d : list (colkey * Column)) : list (colkey * Column) :=
  fold_left (fun d CV => dict_set key_eqb (tau, CV) (cols CV) d) CVs d.

(** The call returned; it did not raise. *)
Definition is_ok {A} (r : result A) : bool :=
  match r with Ok _ => true | Raise _ => false end.

(** The time steps of a series fit 64 bits. *)
Definition steps_ok {A} (s : list (Z * A)) : bool :=
  forallb int64_ok (time_steps (labels s)).

(** A fold is fine when its column is there, labelled like the
    observations, with time steps that fit 64 bits. *)
Definition fold_ok (y_true : Series) (pred : PredTable) (tau : Q) (CV : nat) : bool :=
  match pred_getitem pred (tau, CV) with
  | Ok y_pred => index_equals y_true y_pred && steps_ok y_pred
  | Raise _ => false
  end.

(** What the default metrics raise at a fold that is not fine: KeyError
    for a missing column; ValueError, from [coverage], for a column
    labelled unlike the observations; OverflowError, from
    [reserve_ramp_rate], for a time step that does not fit. *)
Definition fold_error (y_true : Series) (pred : PredTable) (tau : Q) (CV : nat) : error :=
  match pred_getitem pred (tau, CV) with
  | Ok y_pred => if index_equals y_true y_pred then OverflowError else ValueError
  | Raise _ => KeyError
  end.

(** A reference handed to the aggregator points to a live frame. *)
Definition valid_ref (st : State) (df : option nat) : Prop :=
  match df with
  | Some l => (l < length (heap st))%nat
  | None => True
  end.

(** The state effect that all steps but the first share: the default of
    [pinball_loss] stays. *)
Definition keeps_defaults {A} (c : M A) : Prop :=
  forall st, pinball_defaults (snd (c st)) = pinball_defaults st.

(** The frame the loop starts from. *)
Definition start_frame (st : State) (df : option nat) (metrics : list metric) : DataFrame :=
  match df with
  | None => frame_new (map metric_name metrics)
  | Some l => default (frame_new []) (heap st !! l)
  end.

(** The table that one successful call leaves. *)
Definition extended (yt : Series) (pred : PredTable) (tau : Q) (metrics : list metric)
    (F : DataFrame) : DataFrame :=
  {| df_index := df_index F;
     df_columns := add_columns tau (fold_column tau yt pred tau metrics (df_index F))
                     CV_folds (df_columns F) |}.

(** Two calls in a row: a table for [ta], then extended with [tb]. *)
Definition aggregate_two (y_true : Series) (pred : PredTable) (ta tb : Q) : M nat :=
  l ← compute_metrics_for_specified_tau y_true pred None ta default_metrics;
  compute_metrics_for_specified_tau y_true pred (Some l) tb default_metrics.

(** One observation, and a table of the levels 0.95 and 0.975 with ten
    folds each on the same index. *)
Definition example_obs : Series := [(0%Z, 10)].

Definition example_pred : PredTable :=
  {| pt_index := [0%Z];
     pt_levels := Some [95 # 100; 975 # 1000];
     pt_columns := map (fun f => ((95 # 100, f), [12])) (seq 0 10) ++
                   map (fun f => ((975 # 1000, f), [12])) (seq 0 10) |}.



(** The columns of the level 0.975 taken out of [example_pred]: the column
    index keeps the level 0.95, which no column uses any more. *)
Definition sliced_pred : PredTable :=
  {| pt_index := [0%Z];
     pt_levels := Some [95 # 100; 975 # 1000];
     pt_columns := map (fun f => ((975 # 1000, f), [12])) (seq 0 10) |}.


(** The value in the cell of metric [m], quantile [tau] and fold [CV]. *)
Definition scalar_at (y_true : Series) (pred : PredTable) (tau : Q) (CV : nat)
    (m : metric) : scalar :=
  match pred_getitem pred (tau, CV) with
  | Ok y_pred => metric_scalar tau m y_true y_pred
  | Raise _ => NaN
  end.



(** A column in which the metrics selected by [P] are written and the
    others are still blank. *)
Definition column_state (v : metric -> scalar) (P : metric -> bool) (all : list metric)
  : Column :=
  map (fun m => (metric_name m, if P m then Val (v m) else Blank)) all.



(** ** Definitions used to state the further properties *)

(** The larger of two numbers, as [smax] picks it. *)
Definition qmax (x y : Q) : Q := if Qle_bool x y then y else x.

(** Whether observed exceeds predicted at a row of two zipped series. *)
Definition exceeds (r : (Z * Q) * (Z * Q)) : Prop := snd (snd r) < snd (fst r).

(** The difference observed minus predicted at a row. *)
Definition row_diff (r : (Z * Q) * (Z * Q)) : Q := snd (fst r) - snd (snd r).

(** The ramps between consecutive rows. *)
Fixpoint ramps (s : Series) : list scalar :=
  match s with
  | r0 :: ((r1 :: _) as rest) =>
      ramp (snd r1 - snd r0) (fst r1 - fst r0) :: ramps rest
  | _ => []
  end.

(** The rates of change between consecutive rows when no time step is
    zero. *)
Fixpoint finite_ramps (s : Series) : list Q :=
  match s with
  | r0 :: ((r1 :: _) as rest) =>
      Qabs (snd r1 - snd r0) / (inject_Z (fst r1 - fst r0) / ns_per_hour)
      :: finite_ramps rest
  | _ => []
  end.

(** The level 0.95 with the folds 0, 1 and 2 only, on the index of
    [example_obs]. *)
Definition three_fold_pred : PredTable :=
  {| pt_index := [0%Z];
     pt_levels := Some [95 # 100];
     pt_columns := map (fun f => ((95 # 100, f), [12])) (seq 0 3) |}.

(** The caller's table after a call that stopped at fold [f0]: the columns
    of the folds before [f0] are filled. *)
Definition partly_extended (yt : Series) (pred : PredTable) (tau : Q)
    (metrics : list metric) (f0 : nat) (F : DataFrame) : DataFrame :=
  {| df_index := df_index F;
     df_columns := add_columns tau (fold_column tau yt pred tau metrics (df_index F))
                     (seq 0 f0) (df_columns F) |}.

(** * Properties of the metric functions *)

Section MetricFacts.

Lemma list_eqb_refl (l : list Z) : list_eqb Z.eqb l l = true.
Proof. induction l as [|x l IH]; simpl; [reflexivity|]. by rewrite Z.eqb_refl, IH. Qed.

Lemma list_eqb_eq (l1 l2 : list Z) : list_eqb Z.eqb l1 l2 = true -> l1 = l2.
Proof.
  revert l2; induction l1 as [|x l1 IH]; intros [|y l2] H; simpl in H;
    try discriminate; [reflexivity|].
  apply andb_prop in H as [Hx Hl]. apply Z.eqb_eq in Hx. f_equal; auto.
Qed.

Lemma index_equals_labels {A B} (a : list (Z * A)) (b : list (Z * B)) :
  index_equals a b = true <-> labels a = labels b.
Proof.
  unfold index_equals; split; [apply list_eqb_eq|].
  intros ->. apply list_eqb_refl.
Qed.

Lemma index_equals_sym {A B} (a : list (Z * A)) (b : list (Z * B)) :
  index_equals a b = true -> index_equals b a = true.
Proof. rewrite !index_equals_labels. congruence. Qed.

Lemma index_equals_length {A B} (a : list (Z * A)) (b : list (Z * B)) :
  index_equals a b = true -> length a = length b.
Proof.
  rewrite index_equals_labels. unfold labels. intros H.
  rewrite <- (length_map fst a), H. apply length_map.
Qed.

(** On identically labelled series the difference is taken row by row. *)
Lemma values_series_sub (a b : Series) :
  index_equals a b = true ->
  values (series_sub a b) =
  map (fun r => Num (snd (fst r) - snd (snd r))) (combine a b).
Proof.
  intros H. unfold series_sub, values. rewrite H, map_map. reflexivity.
Qed.

Lemma combine_swap {A B} (a : list A) (b : list B) :
  combine b a = map (fun r => (snd r, fst r)) (combine a b).
Proof.
  revert b; induction a as [|x a IH]; intros [|y b]; simpl; try reflexivity.
  by rewrite IH.
Qed.

Lemma values_series_sub_rev (a b : Series) :
  index_equals a b = true ->
  values (series_sub b a) =
  map (fun r => Num (snd (snd r) - snd (fst r))) (combine a b).
Proof.
  intros H. rewrite values_series_sub by (by apply index_equals_sym).
  rewrite (combine_swap a b), map_map. reflexivity.
Qed.

Lemma rowwise_max_map {A} (f g : A -> scalar) (l : list A) :
  rowwise_max (map f l) (map g l) = map (fun r => smax (f r) (g r)) l.
Proof. induction l as [|x l IH]; simpl; [reflexivity|]. by rewrite IH. Qed.

Lemma ssum_Num (l : list Q) : ssum (map Num l) = Num (qsum l).
Proof.
  unfold ssum. induction l as [|x l IH]; simpl; [reflexivity|]. by rewrite IH.
Qed.

Lemma dropna_Num (l : list Q) : dropna (map Num l) = map Num l.
Proof.
  unfold dropna. induction l as [|x l IH]; simpl; [reflexivity|]. by rewrite IH.
Qed.

(** The mean of finitely many numbers is their sum over their count. *)
Lemma np_mean_Num (l : list Q) :
  l <> [] -> np_mean (map Num l) = Num (qsum l / inject_Z (Z.of_nat (length l))).
Proof.
  destruct l as [|x l]; [congruence|]. intros _.
  unfold np_mean. change (map Num (x :: l)) with (Num x :: map Num l) at 1.
  cbv beta iota. rewrite ssum_Num, length_map. reflexivity.
Qed.

Lemma pd_mean_Num (l : list Q) :
  l <> [] -> pd_mean (map Num l) = Num (qsum l / inject_Z (Z.of_nat (length l))).
Proof. intros H. unfold pd_mean. rewrite dropna_Num. by apply np_mean_Num. Qed.

Lemma qsum_nonneg (l : list Q) : Forall (fun x => 0 <= x) l -> 0 <= qsum l.
Proof.
  induction 1 as [|x l Hx _ IH]; simpl; [apply Qle_refl|]. lra.
Qed.

Lemma pinball_loss_aligned (tau : Q) (a b : Series) :
  index_equals a b = true ->
  pinball_loss a b tau =
  Ok (np_mean (map Num (map (fun r => pinball_term tau (snd (fst r)) (snd (snd r)))
                            (combine a b)))).
Proof.
  intros H. unfold pinball_loss.
  rewrite (values_series_sub a b H), (values_series_sub_rev a b H).
  rewrite !map_map, rowwise_max_map. do 2 f_equal.
  apply map_ext. intros [[ta x] [tb y]]. unfold pinball_term. simpl.
  destruct (Qle_bool _ _); reflexivity.
Qed.

Lemma closeness_aligned (a b : Series) :
  index_equals a b = true ->
  closeness a b =
  Ok (pd_mean (map Num (map (fun r => Qabs (snd (fst r) - snd (snd r)))
                            (combine a b)))).
Proof.
  intros H. unfold closeness. rewrite values_series_sub by exact H.
  rewrite !map_map. reflexivity.
Qed.

Lemma pinball_term_half (yt yp : Q) :
  pinball_term (1 # 2) yt yp == (1 # 2) * Qabs (yt - yp).
Proof.
  unfold pinball_term.
  destruct (Qle_bool _ _) eqn:E.
  - apply Qle_bool_iff in E.
    rewrite Qabs_pos by lra. reflexivity.
  - assert (~ (1 - (1 # 2)) * (yp - yt) <= (1 # 2) * (yt - yp)) as N.
    { intros L. apply Qle_bool_iff in L. congruence. }
    rewrite Qabs_neg by lra. lra.
Qed.

Lemma pinball_term_nonneg (tau yt yp : Q) :
  0 <= tau -> tau <= 1 -> 0 <= pinball_term tau yt yp.
Proof.
  intros H0 H1. unfold pinball_term.
  destruct (Qle_bool _ _) eqn:E.
  - apply Qle_bool_iff in E.
    destruct (Qlt_le_dec yt yp) as [L|L].
    + assert (0 <= (1 - tau) * (yp - yt)) by (apply Qmult_le_0_compat; lra). lra.
    + apply Qmult_le_0_compat; lra.
  - assert (~ (1 - tau) * (yp - yt) <= tau * (yt - yp)) as N.
    { intros L. apply Qle_bool_iff in L. congruence. }
    destruct (Qlt_le_dec yt yp) as [L|L].
    + apply Qmult_le_0_compat; lra.
    + assert (0 <= tau * (yt - yp)) by (apply Qmult_le_0_compat; lra). lra.
Qed.

Lemma combine_nonempty {A B} (a : list A) (b : list B) :
  length a = length b -> (1 <= length a)%nat -> combine a b <> [].
Proof. destruct a, b; simpl; intros; try lia; congruence. Qed.

End MetricFacts.

(** C3: on identically labelled series of at least one point, the pinball
    loss at the median quantile is half the closeness (half the mean
    absolute error). *)
Theorem pinball_median_half_closeness (y_true y_pred : Series) :
  index_equals y_true y_pred = true ->
  (1 <= length y_true)%nat ->
  exists p c,
    pinball_loss y_true y_pred (1 # 2) = Ok (Num p) /\
    closeness y_true y_pred = Ok (Num c) /\
    p == (1 # 2) * c.
Proof.
  intros Hidx Hlen.
  pose proof (combine_nonempty y_true y_pred (index_equals_length _ _ Hidx) Hlen) as Hne.
  rewrite (pinball_loss_aligned _ _ _ Hidx), (closeness_aligned _ _ Hidx).
  rewrite np_mean_Num, pd_mean_Num
    by (intros E; apply map_eq_nil in E; contradiction).
  eexists _, _. split; [reflexivity|]. split; [reflexivity|].
  rewrite !length_map.
  set (l := combine y_true y_pred).
  assert (qsum (map (fun r => pinball_term (1 # 2) (snd (fst r)) (snd (snd r))) l) ==
          (1 # 2) * qsum (map (fun r => Qabs (snd (fst r) - snd (snd r))) l)) as ->.
  { clear. induction l as [|r l IH]; cbn [map qsum fold_right]; [lra|].
    fold (qsum (map (fun r => pinball_term (1 # 2) (snd (fst r)) (snd (snd r))) l)).
    fold (qsum (map (fun r => Qabs (snd (fst r) - snd (snd r))) l)).
    rewrite IH, pinball_term_half. lra. }
  unfold Qdiv. ring.
Qed.

(** C3 on two points: observed 10 and 14, predicted 12 and 12. *)
Lemma pinball_median_half_closeness_witness :
  exists p c,
    pinball_loss [(0%Z, 10); (1%Z, 14)] [(0%Z, 12); (1%Z, 12)] (1 # 2) = Ok (Num p) /\
    closeness [(0%Z, 10); (1%Z, 14)] [(0%Z, 12); (1%Z, 12)] = Ok (Num c) /\
    p == (1 # 2) * c.
Proof.
  apply pinball_median_half_closeness; [reflexivity | simpl; lia].
Defined.

(** C10: on identically labelled series of at least one point and for a
    quantile level between 0 and 1, the pinball loss is a number that is not
    negative. *)
Theorem pinball_loss_nonneg (y_true y_pred : Series) (tau : Q) :
  index_equals y_true y_pred = true ->
  (1 <= length y_true)%nat ->
  0 <= tau -> tau <= 1 ->
  exists p, pinball_loss y_true y_pred tau = Ok (Num p) /\ 0 <= p.
Proof.
  intros Hidx Hlen H0 H1.
  pose proof (combine_nonempty y_true y_pred (index_equals_length _ _ Hidx) Hlen) as Hne.
  rewrite (pinball_loss_aligned _ _ _ Hidx).
  rewrite np_mean_Num by (intros E; apply map_eq_nil in E; contradiction).
  eexists. split; [reflexivity|].
  apply Qle_shift_div_l.
  - rewrite length_map. change 0 with (inject_Z 0). rewrite <- Zlt_Qlt.
    rewrite length_combine, <- (index_equals_length _ _ Hidx), Nat.min_id. lia.
  - rewrite Qmult_0_l. apply qsum_nonneg, List.Forall_forall.
    intros x Hx. apply in_map_iff in Hx as [r [<- _]].
    by apply pinball_term_nonneg.
Qed.

(** C10 on two points at the quantile level 0.975. *)
Lemma pinball_loss_nonneg_witness :
  exists p,
    pinball_loss [(0%Z, 10); (1%Z, 14)] [(0%Z, 12); (1%Z, 12)] (975 # 1000) = Ok (Num p) /\
    0 <= p.
Proof.
  apply pinball_loss_nonneg; [reflexivity | simpl; lia | lra | lra].
Defined.

(** C4: for observed = [10,10,10] and predicted = [12,12,12] on one index,
    coverage is 1, closeness is 2, requirement is 12, exceeding is nan and
    max_exceeding is -2. *)
Theorem example_all_covered (t0 t1 t2 : Z) :
  let observed : Series := [(t0, 10); (t1, 10); (t2, 10)] in
  let predicted : Series := [(t0, 12); (t1, 12); (t2, 12)] in
  returns (coverage observed predicted) (Num 1) /\
  returns (closeness observed predicted) (Num 2) /\
  returns (requirement observed predicted) (Num 12) /\
  exceeding observed predicted = Ok NaN /\
  returns (max_exceeding observed predicted) (Num (-2)).
Proof.
  intros observed predicted.
  assert (index_equals observed predicted = true) as Hidx
    by (apply index_equals_labels; reflexivity).
  unfold coverage, closeness, requirement, exceeding, max_exceeding,
    series_cmp, series_sub.
  rewrite Hidx. repeat split; vm_compute; reflexivity.
Qed.

(** C8, as the code has it: no metric function fails on a series that is
    too short; each returns nan.  (The minimum is 2 points for
    [reserve_ramp_rate] and 1 for the others.) *)
Theorem short_series_gives_nan (m : metric) (y_true y_pred : Series) (st : State) :
  index_equals y_true y_pred = true ->
  (length y_pred < min_points m)%nat ->
  call_metric m y_true y_pred st = (Ok NaN, st).
Proof.
  intros Hidx Hlen.
  assert (m <> ReserveRampRate -> y_true = [] /\ y_pred = []) as Hnil.
  { intros Hm. apply index_equals_length in Hidx.
    destruct m; try congruence; simpl in Hlen;
      destruct y_true, y_pred; simpl in *; try lia; auto. }
  destruct m; try (destruct Hnil as [-> ->]; [congruence|]; reflexivity).
  destruct y_pred as [|r0 [|r1 rest]]; simpl in Hlen; try lia; reflexivity.
Qed.

(** C8 on a single point: [reserve_ramp_rate] returns nan. *)
Lemma short_series_gives_nan_witness :
  call_metric ReserveRampRate [(0%Z, 10)] [(0%Z, 12)] initial_state
  = (Ok NaN, initial_state).
Proof.
  apply short_series_gives_nan; [reflexivity | simpl; lia].
Defined.

(** C8, as stated, fails: on a single point [reserve_ramp_rate] returns a
    value, nan, and raises nothing. *)
Lemma reserve_ramp_rate_single_point :
  let y : Series := [(0%Z, 12)] in
  (length y < 2)%nat /\
  reserve_ramp_rate y y = Ok NaN /\
  ~ (exists e, reserve_ramp_rate y y = Raise e).
Proof.
  simpl. split; [lia|]. split; [reflexivity|]. intros [e He]. discriminate.
Qed.

(** * Facts on dictionaries *)

Section DictFacts.
Context {K V : Type} (eqb : K -> K -> bool).
Hypothesis eqb_refl : forall k, eqb k k = true.
Hypothesis eqb_sym : forall a b, eqb a b = eqb b a.
Hypothesis eqb_trans : forall a b c, eqb a b = true -> eqb b c = true -> eqb a c = true.

Lemma eqb_congr_l a b c : eqb a b = true -> eqb a c = eqb b c.
Proof.
  intros Hab. destruct (eqb b c) eqn:Hbc.
  - eauto.
  - destruct (eqb a c) eqn:Hac; [|reflexivity].
    rewrite <- Hbc. symmetry. apply (eqb_trans b a c); [|exact Hac].
    by rewrite eqb_sym.
Qed.

Lemma dict_get_proper (k k' : K) (d : list (K * V)) :
  eqb k k' = true -> dict_get eqb k d = dict_get eqb k' d.
Proof.
  intros Hk. induction d as [|[k0 v0] d IH]; simpl; [reflexivity|].
  rewrite IH. rewrite (eqb_sym k0 k), (eqb_sym k0 k'), (eqb_congr_l k k' k0 Hk).
  reflexivity.
Qed.

Lemma dict_get_set (k k' : K) (v : V) (d : list (K * V)) :
  dict_get eqb k (dict_set eqb k' v d) =
  if eqb k' k then Some v else dict_get eqb k d.
Proof.
  induction d as [|[k0 v0] d IH]; simpl; [reflexivity|].
  destruct (eqb k0 k') eqn:E0; simpl.
  - rewrite (eqb_congr_l k0 k' k E0). destruct (eqb k' k); reflexivity.
  - rewrite IH. destruct (eqb k0 k) eqn:E1; [|reflexivity].
    destruct (eqb k' k) eqn:E2; [|reflexivity].
    exfalso. rewrite eqb_sym in E2.
    rewrite (eqb_trans k0 k k' E1 E2) in E0. discriminate.
Qed.

Lemma dict_alter_set (f : V -> V) (k : K) (v : V) (d : list (K * V)) :
  dict_alter eqb f k (dict_set eqb k v d) = dict_set eqb k (f v) d.
Proof.
  induction d as [|[k0 v0] d IH]; simpl.
  - by rewrite eqb_refl.
  - destruct (eqb k0 k) eqn:E0; simpl; rewrite E0; [reflexivity|].
    by rewrite IH.
Qed.

Lemma dict_set_fresh (k : K) (v : V) (d : list (K * V)) :
  Forall (fun c => eqb (fst c) k = false) d ->
  dict_set eqb k v d = d ++ [(k, v)].
Proof.
  induction 1 as [|[k0 v0] d H0 _ IH]; simpl; [reflexivity|].
  simpl in H0. rewrite H0. by rewrite IH.
Qed.


Lemma dict_get_In (k : K) (v : V) (d : list (K * V)) :
  dict_get eqb k d = Some v -> exists k', In (k', v) d /\ eqb k' k = true.
Proof.
  induction d as [|[k0 v0] d IH]; simpl; [discriminate|].
  destruct (eqb k0 k) eqn:E.
  - intros [= <-]. eauto.
  - intros H. destruct (IH H) as (k' & Hin & Hk). eauto.
Qed.

End DictFacts.

(** The equalities on keys are equivalences. *)

Lemma Qeq_bool_sym (a b : Q) : Qeq_bool a b = Qeq_bool b a.
Proof.
  destruct (Qeq_bool a b) eqn:E1, (Qeq_bool b a) eqn:E2; try reflexivity.
  - apply Qeq_bool_iff in E1. symmetry in E1. apply Qeq_bool_iff in E1. congruence.
  - apply Qeq_bool_iff in E2. symmetry in E2. apply Qeq_bool_iff in E2. congruence.
Qed.

Lemma Qeq_bool_trans' (a b c : Q) :
  Qeq_bool a b = true -> Qeq_bool b c = true -> Qeq_bool a c = true.
Proof. rewrite !Qeq_bool_iff. intros -> ->. reflexivity. Qed.

Lemma key_eqb_refl (k : colkey) : key_eqb k k = true.
Proof. unfold key_eqb. by rewrite Qeq_bool_refl, Nat.eqb_refl. Qed.

Lemma key_eqb_sym (a b : colkey) : key_eqb a b = key_eqb b a.
Proof. unfold key_eqb. by rewrite Qeq_bool_sym, Nat.eqb_sym. Qed.

Lemma key_eqb_trans (a b c : colkey) :
  key_eqb a b = true -> key_eqb b c = true -> key_eqb a c = true.
Proof.
  unfold key_eqb. rewrite !andb_true_iff, !Nat.eqb_eq.
  intros [H1 ->] [H2 ->]. eauto using Qeq_bool_trans'.
Qed.

Lemma key_eqb_iff (a b : colkey) :
  key_eqb a b = true <-> fst a == fst b /\ snd a = snd b.
Proof. unfold key_eqb. by rewrite andb_true_iff, Qeq_bool_iff, Nat.eqb_eq. Qed.

Lemma pair_eqb_refl (k : Q * Q) : pair_eqb k k = true.
Proof. unfold pair_eqb. by rewrite !Qeq_bool_refl. Qed.

Lemma pair_eqb_sym (a b : Q * Q) : pair_eqb a b = pair_eqb b a.
Proof. unfold pair_eqb. by rewrite (Qeq_bool_sym (fst a)), (Qeq_bool_sym (snd a)). Qed.

Lemma pair_eqb_trans (a b c : Q * Q) :
  pair_eqb a b = true -> pair_eqb b c = true -> pair_eqb a c = true.
Proof.
  unfold pair_eqb. rewrite !andb_true_iff.
  intros [H1 H1'] [H2 H2']. eauto using Qeq_bool_trans'.
Qed.

Lemma pair_eqb_iff (a b : Q * Q) :
  pair_eqb a b = true <-> fst a == fst b /\ snd a == snd b.
Proof. unfold pair_eqb. by rewrite andb_true_iff, !Qeq_bool_iff. Qed.

Lemma nat_eqb_trans (a b c : nat) :
  Nat.eqb a b = true -> Nat.eqb b c = true -> Nat.eqb a c = true.
Proof. rewrite !Nat.eqb_eq. congruence. Qed.

(** * Facts on [sort_unique] *)

Section SortFacts.
Context {A : Type} (leb eqb : A -> A -> bool).

Lemma insert_sorted_In (x y : A) (l : list A) :
  In y (insert_sorted leb eqb x l) -> y = x \/ In y l.
Proof.
  induction l as [|z l IH]; simpl.
  - intros [->|[]]. by left.
  - destruct (eqb x z); [by right|].
    destruct (leb x z); simpl.
    + intros [->|H]; [by left|by right].
    + intros [->|H]; [right; by left|].
      destruct (IH H); [by left|right; by right].
Qed.

Lemma insert_sorted_keeps (x y : A) (l : list A) :
  In y l -> In y (insert_sorted leb eqb x l).
Proof.
  induction l as [|z l IH]; simpl; [intros []|].
  destruct (eqb x z); [auto|].
  destruct (leb x z); simpl; [auto|].
  intros [->|H]; auto.
Qed.

Lemma insert_sorted_has (x : A) (l : list A) :
  eqb x x = true ->
  exists y, In y (insert_sorted leb eqb x l) /\ eqb x y = true.
Proof.
  intros Hrefl. induction l as [|z l IH]; simpl.
  - exists x. auto.
  - destruct (eqb x z) eqn:E; [exists z; simpl; auto|].
    destruct (leb x z); [exists x; simpl; auto|].
    destruct IH as (y & Hy & Hxy). exists y. simpl. auto.
Qed.

Lemma sort_unique_In (y : A) (l : list A) :
  In y (sort_unique leb eqb l) -> In y l.
Proof.
  induction l as [|x l IH]; simpl; [intros []|].
  intros H. apply insert_sorted_In in H as [->|H]; auto.
Qed.

Lemma sort_unique_has (x : A) (l : list A) :
  (forall a, eqb a a = true) ->
  In x l -> exists y, In y (sort_unique leb eqb l) /\ eqb x y = true.
Proof.
  intros Hrefl. induction l as [|z l IH]; simpl; [intros []|].
  intros [->|H].
  - by apply insert_sorted_has.
  - destruct (IH H) as (y & Hy & Hxy). exists y. split; [|exact Hxy].
    by apply insert_sorted_keeps.
Qed.
End SortFacts.

Lemma Qlt_bool_iff (x y : Q) : Qlt_bool x y = true <-> x < y.
Proof.
  unfold Qlt_bool. rewrite negb_true_iff. split.
  - intros H. apply Qnot_le_lt. intros L. apply Qle_bool_iff in L. congruence.
  - intros H. destruct (Qle_bool y x) eqn:E; [|reflexivity].
    apply Qle_bool_iff in E. lra.
Qed.

(** The quantile levels of a table, as the code collects them, are strictly
    increasing: sorted and distinct. *)
Lemma insert_sorted_Qlt (x : Q) (l : list Q) :
  StronglySorted Qlt l -> StronglySorted Qlt (insert_sorted Qle_bool Qeq_bool x l).
Proof.
  induction 1 as [|y l Hs IH Hy]; simpl; [repeat constructor|].
  destruct (Qeq_bool x y) eqn:E; [by constructor|].
  assert (~ x == y) as Hne by (intros H; apply Qeq_bool_iff in H; congruence).
  destruct (Qle_bool x y) eqn:L.
  - apply Qle_bool_iff in L. assert (x < y) as Hlt by (apply Qle_lteq in L as [|]; tauto).
    constructor; [by constructor|]. constructor; [exact Hlt|].
    eapply List.Forall_impl; [|exact Hy]. simpl. intros z Hz. lra.
  - assert (y < x) as Hlt.
    { apply Qnot_le_lt. intros H. apply Qle_bool_iff in H. congruence. }
    constructor; [exact IH|]. apply List.Forall_forall. intros z Hz.
    apply insert_sorted_In in Hz as [->|Hz]; [exact Hlt|].
    rewrite List.Forall_forall in Hy. by apply Hy.
Qed.

Lemma tau_levels_sorted (pred : PredTable) : StronglySorted Qlt (tau_levels pred).
Proof.
  unfold tau_levels, sort_unique.
  induction (pt_columns pred) as [|x l IH]; simpl; [constructor|].
  by apply insert_sorted_Qlt.
Qed.

(** * The crossing detector *)

Section Crossings.
Variable pred : PredTable.
Hypothesis Hwf : pred_wf pred.

Lemma pred_getitem_labels (k : colkey) (s : Series) :
  pred_getitem pred k = Ok s -> labels s = pt_index pred.
Proof.
  unfold pred_getitem. destruct (dict_get _ _ _) as [vals|] eqn:E; [|discriminate].
  intros [= <-]. apply dict_get_In in E as (k' & Hin & _).
  unfold pred_wf in Hwf. rewrite List.Forall_forall in Hwf.
  specialize (Hwf _ Hin). simpl in Hwf. unfold labels.
  clear Hin. revert vals Hwf. induction (pt_index pred) as [|t idx IH];
    intros [|v vals] Hlen; simpl in *; try lia; [reflexivity|].
  f_equal. apply IH. lia.
Qed.

Lemma pred_getitem_proper (k k' : colkey) :
  key_eqb k k' = true -> pred_getitem pred k = pred_getitem pred k'.
Proof.
  intros H. unfold pred_getitem.
  by rewrite (dict_get_proper key_eqb key_eqb_sym key_eqb_trans k k' _ H).
Qed.

Lemma count_true_exceed (lower upper : Series) :
  count_true (map (fun r => Qgt_bool (snd (fst r)) (snd (snd r))) (combine lower upper))
  = exceed_count lower upper.
Proof.
  unfold count_true.
  revert upper; induction lower as [|a l IH]; intros [|b u]; simpl; try reflexivity.
  rewrite <- IH. unfold Qgt_bool.
  destruct (Qlt_le_dec (snd b) (snd a)) as [L|L].
  - destruct (Qle_bool (snd a) (snd b)) eqn:E; [|reflexivity].
    apply Qle_bool_iff in E. lra.
  - apply Qle_bool_iff in L. rewrite L. reflexivity.
Qed.

Lemma exceed_count_monotone (lower upper : Series) :
  Forall2 (fun a b => snd a <= snd b) lower upper -> exceed_count lower upper = 0%nat.
Proof.
  induction 1 as [|a b l u Hab _ IH]; simpl; [reflexivity|].
  rewrite IH. destruct (Qlt_le_dec (snd b) (snd a)); [lra|reflexivity].
Qed.

Lemma present_getitem (k : colkey) :
  present pred k -> exists s, pred_getitem pred k = Ok s.
Proof.
  unfold present, pred_getitem. destruct (dict_get _ _ _); [eauto|congruence].
Qed.

Lemma pair_get_set (p k : Q * Q) (n : nat) row :
  dict_get pair_eqb p (dict_set pair_eqb k n row) =
  if pair_eqb k p then Some n else dict_get pair_eqb p row.
Proof. apply (dict_get_set pair_eqb pair_eqb_sym pair_eqb_trans). Qed.

Lemma crossings_cell_ok (CV : nat) (t1 t2 : Q) row :
  present pred (t1, CV) -> present pred (t2, CV) -> row_sound pred CV row ->
  exists row',
    crossings_cell pred CV t1 row t2 = Ok row' /\
    row_sound pred CV row' /\
    (forall p, has_pair row p -> has_pair row' p) /\
    (t1 < t2 -> has_pair row' (t1, t2)).
Proof.
  intros H1 H2 Hrow. unfold crossings_cell.
  destruct (Qlt_bool t1 t2) eqn:E.
  - apply Qlt_bool_iff in E.
    destruct (present_getitem _ H1) as [lower Hl].
    destruct (present_getitem _ H2) as [upper Hu].
    rewrite Hl, Hu. simpl. unfold series_cmp.
    assert (index_equals lower upper = true) as ->.
    { apply index_equals_labels.
      by rewrite (pred_getitem_labels _ _ Hl), (pred_getitem_labels _ _ Hu). }
    simpl. rewrite count_true_exceed. eexists. split; [reflexivity|].
    split; [|split].
    + intros a b n. rewrite pair_get_set.
      destruct (pair_eqb (t1, t2) (a, b)) eqn:Ep; [|apply Hrow].
      apply pair_eqb_iff in Ep as [Ea Eb]. simpl in Ea, Eb.
      intros [= <-]. split; [lra|]. exists lower, upper.
      rewrite <- (pred_getitem_proper (t1, CV) (a, CV)), <- (pred_getitem_proper (t2, CV) (b, CV))
        by (by apply key_eqb_iff).
      auto.
    + intros p Hp. unfold has_pair. rewrite pair_get_set.
      destruct (pair_eqb _ _); [discriminate|exact Hp].
    + intros _. unfold has_pair. rewrite pair_get_set, pair_eqb_refl. discriminate.
  - exists row. split; [reflexivity|]. split; [exact Hrow|]. split; [auto|].
    intros L. apply Qlt_bool_iff in L. congruence.
Qed.

Lemma crossings_inner_ok (CV : nat) (t1 : Q) (taus : list Q) row :
  present pred (t1, CV) -> (forall t2, In t2 taus -> present pred (t2, CV)) ->
  row_sound pred CV row ->
  exists row',
    foldM (crossings_cell pred CV t1) taus row = Ok row' /\
    row_sound pred CV row' /\
    (forall p, has_pair row p -> has_pair row' p) /\
    (forall t2, In t2 taus -> t1 < t2 -> has_pair row' (t1, t2)).
Proof.
  intros H1. revert row. induction taus as [|t taus IH]; intros row Hall Hrow; simpl.
  - exists row. split; [reflexivity|]. split; [exact Hrow|]. split; [auto|].
    intros t2 [].
  - destruct (crossings_cell_ok CV t1 t row H1 (Hall t (or_introl eq_refl)) Hrow)
      as (row1 & -> & Hs1 & Hk1 & Hn1). simpl.
    destruct (IH row1 (fun t2 H => Hall t2 (or_intror H)) Hs1)
      as (row2 & -> & Hs2 & Hk2 & Hn2).
    exists row2. split; [reflexivity|]. split; [exact Hs2|]. split; [auto|].
    intros t2 [<-|Hin] L; auto.
Qed.

Lemma crossings_outer_ok (CV : nat) (lowers taus : list Q) row :
  (forall t, In t lowers -> present pred (t, CV)) ->
  (forall t, In t taus -> present pred (t, CV)) ->
  row_sound pred CV row ->
  exists row',
    foldM (fun row t1 => foldM (crossings_cell pred CV t1) taus row) lowers row = Ok row' /\
    row_sound pred CV row' /\
    (forall p, has_pair row p -> has_pair row' p) /\
    (forall t1 t2, In t1 lowers -> In t2 taus -> t1 < t2 -> has_pair row' (t1, t2)).
Proof.
  intros Hlow Htaus. revert row Hlow.
  induction lowers as [|t lowers IH]; intros row Hlow Hrow; simpl.
  - exists row. split; [reflexivity|]. split; [exact Hrow|]. split; [auto|].
    intros t1 t2 [].
  - destruct (crossings_inner_ok CV t taus row (Hlow t (or_introl eq_refl)) Htaus Hrow)
      as (row1 & -> & Hs1 & Hk1 & Hn1). simpl.
    destruct (IH row1 (fun t' H => Hlow t' (or_intror H)) Hs1)
      as (row2 & -> & Hs2 & Hk2 & Hn2).
    exists row2. split; [reflexivity|]. split; [exact Hs2|]. split; [auto|].
    intros t1 t2 [<-|Hin] H2 L; eauto.
Qed.

Lemma crossings_fold_ok (taus : list Q) (CV : nat) :
  (forall t, In t taus -> present pred (t, CV)) ->
  exists row, crossings_fold pred taus CV = Ok row /\ row_done pred taus CV row.
Proof.
  intros H. unfold crossings_fold.
  destruct (crossings_outer_ok CV taus taus [] H H) as (row & -> & Hs & _ & Hn).
  - intros a b n. discriminate.
  - exists row. split; [reflexivity|]. split; auto.
Qed.

Lemma n_crossings_loop_ok (taus : list Q) (CVs : list nat) (c : Crossings) :
  (forall t CV, In t taus -> In CV CVs -> present pred (t, CV)) ->
  (forall CV row, dict_get Nat.eqb CV c = Some row -> row_done pred taus CV row) ->
  exists c',
    foldM (fun crossings CV =>
             bind_result (crossings_fold pred taus CV) (fun row =>
             Ok (dict_set Nat.eqb CV row crossings))) CVs c = Ok c' /\
    (forall CV row, dict_get Nat.eqb CV c' = Some row -> row_done pred taus CV row) /\
    (forall CV, dict_get Nat.eqb CV c <> None -> dict_get Nat.eqb CV c' <> None) /\
    (forall CV, In CV CVs -> dict_get Nat.eqb CV c' <> None).
Proof.
  revert c. induction CVs as [|CV CVs IH]; intros c Hpres Hc; simpl.
  - exists c. split; [reflexivity|]. split; [exact Hc|]. split; [auto|].
    intros CV [].
  - destruct (crossings_fold_ok taus CV) as (row & -> & Hrow).
    { intros t Ht. apply Hpres; [exact Ht|by left]. }
    simpl.
    assert (forall k, dict_get Nat.eqb k (dict_set Nat.eqb CV row c) =
                      if Nat.eqb CV k then Some row else dict_get Nat.eqb k c) as Hgs.
    { intros k. apply (dict_get_set Nat.eqb Nat.eqb_sym nat_eqb_trans). }
    destruct (IH (dict_set Nat.eqb CV row c)) as (c' & -> & Hd & Hk & Hn).
    { intros t CV' Ht HCV. apply Hpres; [exact Ht|by right]. }
    { intros CV' row'. rewrite Hgs. destruct (Nat.eqb CV CV') eqn:E; [|apply Hc].
      apply Nat.eqb_eq in E as <-. by intros [= <-]. }
    exists c'. split; [reflexivity|]. split; [exact Hd|]. split.
    + intros CV' H'. apply Hk. rewrite Hgs. destruct (Nat.eqb CV CV'); [discriminate|exact H'].
    + intros CV' [<-|Hin]; [|by apply Hn].
      apply Hk. rewrite Hgs, Nat.eqb_refl. discriminate.
Qed.
End Crossings.

(** ** The frame built from the dictionary *)

Section CrossingFrame.
Variable pred : PredTable.

Lemma nat_get_set {V} (k CV : nat) (row : V) (c : list (nat * V)) :
  dict_get Nat.eqb k (dict_set Nat.eqb CV row c) =
  if Nat.eqb CV k then Some row else dict_get Nat.eqb k c.
Proof. apply (dict_get_set Nat.eqb Nat.eqb_sym nat_eqb_trans). Qed.

(** A row holds every pair lower < upper of [taus]. *)
Lemma crossings_cell_pairs (CV : nat) (t1 t2 : Q) row row' :
  crossings_cell pred CV t1 row t2 = Ok row' ->
  (forall p, has_pair row p -> has_pair row' p) /\
  (t1 < t2 -> has_pair row' (t1, t2)).
Proof.
  unfold crossings_cell. destruct (Qlt_bool t1 t2) eqn:E.
  - destruct (pred_getitem pred (t1, CV)) as [lower|]; simpl; [|discriminate].
    destruct (pred_getitem pred (t2, CV)) as [upper|]; simpl; [|discriminate].
    destruct (series_cmp Qgt_bool lower upper) as [mask|]; simpl; [|discriminate].
    intros [= <-]. split.
    + intros p Hp. unfold has_pair. rewrite pair_get_set.
      destruct (pair_eqb _ _); [discriminate|exact Hp].
    + intros _. unfold has_pair. rewrite pair_get_set, pair_eqb_refl. discriminate.
  - intros [= <-]. split; [auto|]. intros L. apply Qlt_bool_iff in L. congruence.
Qed.

Lemma crossings_inner_pairs (CV : nat) (t1 : Q) (taus : list Q) :
  forall row row',
    foldM (crossings_cell pred CV t1) taus row = Ok row' ->
    (forall p, has_pair row p -> has_pair row' p) /\
    (forall t2, In t2 taus -> t1 < t2 -> has_pair row' (t1, t2)).
Proof.
  induction taus as [|t taus IH]; intros row row'; simpl.
  - intros [= <-]. split; [auto|]. intros t2 [].
  - destruct (crossings_cell pred CV t1 row t) as [row1|] eqn:E; simpl; [|discriminate].
    intros H. destruct (crossings_cell_pairs _ _ _ _ _ E) as [Hk1 Hn1].
    destruct (IH _ _ H) as [Hk2 Hn2]. split; [auto|].
    intros t2 [<-|Hin] L; auto.
Qed.

Lemma crossings_outer_pairs (CV : nat) (lowers taus : list Q) :
  forall row row',
    foldM (fun row t1 => foldM (crossings_cell pred CV t1) taus row) lowers row = Ok row' ->
    (forall p, has_pair row p -> has_pair row' p) /\
    (forall t1 t2, In t1 lowers -> In t2 taus -> t1 < t2 -> has_pair row' (t1, t2)).
Proof.
  induction lowers as [|t lowers IH]; intros row row'; simpl.
  - intros [= <-]. split; [auto|]. intros t1 t2 [].
  - destruct (foldM (crossings_cell pred CV t) taus row) as [row1|] eqn:E; simpl;
      [|discriminate].
    intros H. destruct (crossings_inner_pairs _ _ _ _ _ E) as [Hk1 Hn1].
    destruct (IH _ _ H) as [Hk2 Hn2]. split; [auto|].
    intros t1 t2 [<-|Hin] H2 L; eauto.
Qed.

Lemma crossings_loop_pairs (taus : list Q) (CVs : list nat) :
  forall c c',
    foldM (fun crossings CV =>
             bind_result (crossings_fold pred taus CV) (fun row =>
             Ok (dict_set Nat.eqb CV row crossings))) CVs c = Ok c' ->
    forall CV,
      In CV CVs \/
      (exists row, dict_get Nat.eqb CV c = Some row /\
                   forall t1 t2, In t1 taus -> In t2 taus -> t1 < t2 -> has_pair row (t1, t2)) ->
      exists row, dict_get Nat.eqb CV c' = Some row /\
                  forall t1 t2, In t1 taus -> In t2 taus -> t1 < t2 -> has_pair row (t1, t2).
Proof.
  induction CVs as [|CV0 CVs IH]; intros c c'; simpl.
  - intros [= <-] CV [[]|H]. exact H.
  - destruct (crossings_fold pred taus CV0) as [row0|] eqn:E; simpl; [|discriminate].
    intros H CV HCV. apply (IH _ _ H).
    unfold crossings_fold in E. apply crossings_outer_pairs in E as [_ Hfull].
    rewrite nat_get_set.
    destruct (Nat.eqb_spec CV0 CV) as [->|Hne].
    + right. exists row0. auto.
    + destruct HCV as [[->|Hin]|Hold]; [congruence|by left|by right].
Qed.

Lemma row_labels_nonempty (c : Crossings) (CV : nat) row (p : Q * Q) :
  dict_get Nat.eqb CV c = Some row -> has_pair row p -> row_labels c <> [].
Proof.
  intros Hc Hp. apply dict_get_In in Hc as (k & Hin & _).
  unfold has_pair in Hp. destruct (dict_get pair_eqb p row) as [n|] eqn:E; [|congruence].
  apply dict_get_In in E as (p' & Hin' & _).
  assert (In p' (row_labels c)) as H.
  { unfold row_labels. apply in_flat_map. exists (k, row). split; [exact Hin|].
    simpl. apply in_map_iff. exists (p', n). auto. }
  intros E0. rewrite E0 in H. destruct H.
Qed.

(** Two levels present give a lower and an upper one, and a fold. *)
Lemma two_levels_lt :
  (2 <= length (tau_levels pred))%nat ->
  exists t1 t2, In t1 (tau_levels pred) /\ In t2 (tau_levels pred) /\ t1 < t2.
Proof.
  pose proof (tau_levels_sorted pred) as Hs.
  destruct (tau_levels pred) as [|t1 [|t2 l]]; simpl; try lia. intros _.
  exists t1, t2. inversion Hs as [|? ? _ Hlt]; subst. inversion Hlt; subst.
  split; [by left|]. split; [right; by left|assumption].
Qed.

Lemma level_gives_fold (t : Q) :
  In t (tau_levels pred) -> exists CV, In CV (fold_ids pred).
Proof.
  intros Ht. unfold tau_levels in Ht.
  apply sort_unique_In, in_map_iff in Ht as (c & _ & Hc).
  destruct (sort_unique_has Nat.leb Nat.eqb (snd (fst c))
              (map (fun c => snd (fst c)) (pt_columns pred)) Nat.eqb_refl)
    as (CV & HCV & _); [apply in_map_iff; eauto|].
  exists CV. exact HCV.
Qed.

(** With two levels present the frame has pairs as row labels, and takes
    the two names. *)
Lemma index_rename_two_levels (c : Crossings) :
  (2 <= length (tau_levels pred))%nat ->
  crossings_loop pred (tau_levels pred) (fold_ids pred) = Ok c ->
  index_rename c = Ok c.
Proof.
  intros H2 Hc. destruct (two_levels_lt H2) as (t1 & t2 & Ht1 & Ht2 & Hlt).
  destruct (level_gives_fold t1 Ht1) as [CV HCV].
  destruct (crossings_loop_pairs _ _ _ _ Hc CV (or_introl HCV)) as (row & Hrow & Hfull).
  pose proof (row_labels_nonempty c CV row (t1, t2) Hrow (Hfull t1 t2 Ht1 Ht2 Hlt)) as Hne.
  unfold index_rename. destruct (row_labels c); [congruence|reflexivity].
Qed.

(** With fewer than two levels no pair is looked at: every fold gets an
    empty dictionary, the frame has no row label, and the two names are
    refused. *)
Lemma crossings_fold_one_level (taus : list Q) (CV : nat) :
  (length taus < 2)%nat -> crossings_fold pred taus CV = Ok [].
Proof.
  destruct taus as [|t [|t' l]]; simpl; try lia; intros _; [reflexivity|].
  unfold crossings_fold. simpl. unfold crossings_cell.
  assert (Qlt_bool t t = false) as ->; [|reflexivity].
  destruct (Qlt_bool t t) eqn:E; [|reflexivity]. apply Qlt_bool_iff in E. lra.
Qed.

Lemma dict_set_empty_rows (CV : nat) (c : Crossings) :
  Forall (fun col => snd col = []) c ->
  Forall (fun col => snd col = []) (dict_set Nat.eqb CV [] c).
Proof.
  induction 1 as [|[k v] c Hk Hc IH]; simpl; [by repeat constructor|].
  destruct (Nat.eqb k CV); constructor; try assumption; reflexivity.
Qed.

Lemma row_labels_empty (c : Crossings) :
  Forall (fun col => snd col = []) c -> row_labels c = [].
Proof.
  unfold row_labels. induction 1 as [|[k v] c Hk _ IH]; simpl; [reflexivity|].
  simpl in Hk. by rewrite Hk, IH.
Qed.

Lemma crossings_loop_one_level (taus : list Q) (CVs : list nat) :
  (length taus < 2)%nat ->
  forall c, Forall (fun col => snd col = []) c ->
    exists c',
      foldM (fun crossings CV =>
               bind_result (crossings_fold pred taus CV) (fun row =>
               Ok (dict_set Nat.eqb CV row crossings))) CVs c = Ok c' /\
      Forall (fun col => snd col = []) c'.
Proof.
  intros Hlen. induction CVs as [|CV CVs IH]; intros c Hc; simpl; [eauto|].
  rewrite (crossings_fold_one_level taus CV Hlen). simpl.
  apply IH. by apply dict_set_empty_rows.
Qed.

Lemma n_crossings_one_level :
  (length (tau_levels pred) < 2)%nat -> n_crossings pred = Raise TypeError.
Proof.
  intros Hlen. unfold n_crossings, crossings_loop.
  destruct (crossings_loop_one_level (tau_levels pred) (fold_ids pred) Hlen [])
    as (c & -> & Hc); [constructor|].
  simpl. unfold index_rename. by rewrite (row_labels_empty c Hc).
Qed.

End CrossingFrame.

(** C2, as the code has it: on a table (a frame: every column as long as
    the index) that holds at least two quantile levels and pairs every
    present level with every present fold, the crossing detector returns
    a table in which, for every present fold and all present levels
    t1 < t2, the entry is the number of timestamps at which the (t1, fold)
    prediction strictly exceeds the (t2, fold) prediction (0 when the
    first series lies below the second pointwise), and which has no entry
    for a pair with t1 >= t2. *)
Theorem n_crossings_complete_table (pred : PredTable) :
  pred_wf pred -> pred_complete pred ->
  (2 <= length (tau_levels pred))%nat ->
  exists c,
    n_crossings pred = Ok c /\
    (forall c0 c1 c2 lower upper,
        In c0 (pt_columns pred) -> In c1 (pt_columns pred) -> In c2 (pt_columns pred) ->
        let CV := snd (fst c0) in
        let t1 := fst (fst c1) in
        let t2 := fst (fst c2) in
        t1 < t2 ->
        pred_getitem pred (t1, CV) = Ok lower ->
        pred_getitem pred (t2, CV) = Ok upper ->
        crossings_at c CV (t1, t2) = Some (exceed_count lower upper) /\
        (Forall2 (fun a b => snd a <= snd b) lower upper ->
         crossings_at c CV (t1, t2) = Some 0%nat)) /\
    (forall CV t1 t2, ~ t1 < t2 -> crossings_at c CV (t1, t2) = None).
Proof.
  intros Hwf Hcomplete Htwo. unfold n_crossings.
  assert (forall t CV, In t (tau_levels pred) -> In CV (fold_ids pred) ->
                       present pred (t, CV)) as Hpres.
  { intros t CV Ht HCV. unfold tau_levels in Ht. unfold fold_ids in HCV.
    apply sort_unique_In, in_map_iff in Ht as (c1 & <- & H1).
    apply sort_unique_In, in_map_iff in HCV as (c2 & <- & H2).
    by apply Hcomplete. }
  destruct (n_crossings_loop_ok pred Hwf (tau_levels pred) (fold_ids pred) [] Hpres)
    as (c & Hc & Hdone & _ & Hhas).
  { intros CV row. discriminate. }
  exists c. split.
  { cbv zeta. fold (crossings_loop pred (tau_levels pred) (fold_ids pred)) in Hc |- *.
    rewrite Hc. simpl. by apply (index_rename_two_levels pred). }
  split.
  - intros c0 c1 c2 lower upper H0 H1 H2. cbv zeta.
    set (CV := snd (fst c0)). set (t1 := fst (fst c1)). set (t2 := fst (fst c2)).
    intros Hlt Hl Hu.
    assert (In CV (fold_ids pred)) as HCV.
    { destruct (sort_unique_has Nat.leb Nat.eqb CV (map (fun c => snd (fst c)) (pt_columns pred))
                  Nat.eqb_refl) as (y & Hy & Hxy).
      - apply in_map_iff. eauto.
      - apply Nat.eqb_eq in Hxy as <-. exact Hy. }
    destruct (sort_unique_has Qle_bool Qeq_bool t1 (map (fun c => fst (fst c)) (pt_columns pred))
                Qeq_bool_refl) as (t1' & Ht1 & E1); [apply in_map_iff; eauto|].
    destruct (sort_unique_has Qle_bool Qeq_bool t2 (map (fun c => fst (fst c)) (pt_columns pred))
                Qeq_bool_refl) as (t2' & Ht2 & E2); [apply in_map_iff; eauto|].
    fold (tau_levels pred) in Ht1, Ht2.
    apply Qeq_bool_iff in E1, E2.
    unfold crossings_at.
    destruct (dict_get Nat.eqb CV c) as [row|] eqn:Erow; [|by apply Hhas in HCV].
    destruct (Hdone CV row Erow) as [Hsound Hall].
    assert (has_pair row (t1', t2')) as Hp by (apply Hall; auto; lra).
    unfold has_pair in Hp.
    rewrite (dict_get_proper pair_eqb pair_eqb_sym pair_eqb_trans (t1', t2') (t1, t2)) in Hp
      by (apply pair_eqb_iff; simpl; split; symmetry; assumption).
    destruct (dict_get pair_eqb (t1, t2) row) as [n|] eqn:En; [|congruence].
    destruct (Hsound _ _ _ En) as (_ & lower' & upper' & Hl' & Hu' & ->).
    rewrite Hl in Hl'. rewrite Hu in Hu'. injection Hl' as <-. injection Hu' as <-.
    split; [reflexivity|]. intros Hmono. by rewrite exceed_count_monotone.
  - intros CV t1 t2 Hge. unfold crossings_at.
    destruct (dict_get Nat.eqb CV c) as [row|] eqn:Erow; [|reflexivity].
    destruct (Hdone CV row Erow) as [Hsound _].
    destruct (dict_get pair_eqb (t1, t2) row) as [n|] eqn:En; [|reflexivity].
    destruct (Hsound _ _ _ En) as (Hlt & _). contradiction.
Qed.

(** C2 on a table of two quantile levels and two folds. *)
Lemma n_crossings_complete_table_witness :
  exists c,
    n_crossings square_table = Ok c /\
    (forall c0 c1 c2 lower upper,
        In c0 (pt_columns square_table) -> In c1 (pt_columns square_table) ->
        In c2 (pt_columns square_table) ->
        let CV := snd (fst c0) in
        let t1 := fst (fst c1) in
        let t2 := fst (fst c2) in
        t1 < t2 ->
        pred_getitem square_table (t1, CV) = Ok lower ->
        pred_getitem square_table (t2, CV) = Ok upper ->
        crossings_at c CV (t1, t2) = Some (exceed_count lower upper) /\
        (Forall2 (fun a b => snd a <= snd b) lower upper ->
         crossings_at c CV (t1, t2) = Some 0%nat)) /\
    (forall CV t1 t2, ~ t1 < t2 -> crossings_at c CV (t1, t2) = None).
Proof.
  apply n_crossings_complete_table.
  - unfold pred_wf, square_table. simpl. repeat constructor.
  - intros c1 c2 H1 H2. unfold square_table in *. simpl in H1, H2.
    destruct H1 as [<-|[<-|[<-|[<-|[]]]]]; destruct H2 as [<-|[<-|[<-|[<-|[]]]]];
      vm_compute; discriminate.
  - vm_compute. lia.
Defined.

(** C2, as stated, fails on a table that lacks one combination: fold 0
    holds the series of both levels 1/2 < 9/10, the first above the second
    at one timestamp, so the claim asks for the entry 1 at fold 0; fold 1
    lacks the level 9/10, and the detector raises KeyError instead of
    producing any entry. *)
Lemma n_crossings_ragged_table :
  pred_wf ragged_table /\
  (exists lower upper,
      pred_getitem ragged_table (1 # 2, 0%nat) = Ok lower /\
      pred_getitem ragged_table (9 # 10, 0%nat) = Ok upper /\
      exceed_count lower upper = 1%nat) /\
  In 0%nat (fold_ids ragged_table) /\
  In (1 # 2) (tau_levels ragged_table) /\
  In (9 # 10) (tau_levels ragged_table) /\
  1 # 2 < 9 # 10 /\
  n_crossings ragged_table = Raise KeyError.
Proof.
  split; [unfold pred_wf, ragged_table; simpl; repeat constructor|].
  split; [eexists _, _; repeat split|].
  repeat split; vm_compute; auto.
Qed.

(** * The aggregator, step by step *)

Section Refinement.

Lemma with_heap_id (st : State) : with_heap st (heap st) = st.
Proof. by destruct st. Qed.

Lemma call_metric_spec (m : metric) (yt yp : Series) (st : State) :
  call_metric m yt yp st = (metric_value (pinball_defaults st) m yt yp, st).
Proof. destruct m; reflexivity. Qed.

Lemma insert_alter_same (f : DataFrame -> DataFrame) (l : loc) (X : DataFrame)
    (h : list DataFrame) :
  <[l := X]> (alter f l h) = <[l := X]> h.
Proof.
  rewrite !list_insert_alter, list_alter_alter_eq. reflexivity.
Qed.

Lemma metrics_loop_spec (l : loc) (key : colkey) (yt yp : Series) (metrics : list metric) :
  forall st F, heap st !! l = Some F ->
    for_each metrics (fun m =>
      v ← call_metric m yt yp;
      modify_frame l (setitem_cell key (metric_name m) v)) st
    = (fst (fill_cells (pinball_defaults st) yt yp key metrics F),
       with_heap st (<[l := snd (fill_cells (pinball_defaults st) yt yp key metrics F)]> (heap st))).
Proof.
  induction metrics as [|m metrics IH]; intros st F HF; simpl.
  - unfold ret. by rewrite list_insert_id, with_heap_id.
  - unfold mbind, M_bind, bind. rewrite call_metric_spec.
    destruct (metric_value _ m yt yp) as [v|e]; simpl.
    + unfold mbind, M_bind, bind in IH.
      rewrite (IH _ (setitem_cell key (metric_name m) v F)); simpl.
      * by rewrite insert_alter_same.
      * simpl. rewrite list_lookup_alter_eq. by rewrite HF.
    + by rewrite list_insert_id, with_heap_id.
Qed.

Lemma fill_fold_spec (yt : Series) (pred : PredTable) (l : loc) (tau : Q)
    (metrics : list metric) (CV : nat) (st : State) (F : DataFrame) :
  heap st !! l = Some F ->
  fill_fold yt pred l tau metrics CV st
  = (fst (fill_fold_frame (pinball_defaults st) yt pred tau metrics CV F),
     with_heap st (<[l := snd (fill_fold_frame (pinball_defaults st) yt pred tau metrics CV F)]>
                     (heap st))).
Proof.
  intros HF. unfold fill_fold, fill_fold_frame, mbind, M_bind, bind, lift.
  destruct (pred_getitem pred (tau, CV)) as [yp|e]; simpl.
  - pose proof (metrics_loop_spec l (tau, CV) yt yp metrics) as Hloop.
    unfold mbind, M_bind, bind in Hloop.
    rewrite (Hloop _ (setitem_column (tau, CV) F)); simpl.
    + by rewrite insert_alter_same.
    + simpl. rewrite list_lookup_alter_eq. by rewrite HF.
  - by rewrite list_insert_id, with_heap_id.
Qed.

Lemma folds_loop_spec (yt : Series) (pred : PredTable) (l : loc) (tau : Q)
    (metrics : list metric) (CVs : list nat) :
  forall st F, heap st !! l = Some F ->
    for_each CVs (fill_fold yt pred l tau metrics) st
    = (fst (fill_folds (pinball_defaults st) yt pred tau metrics CVs F),
       with_heap st (<[l := snd (fill_folds (pinball_defaults st) yt pred tau metrics CVs F)]>
                       (heap st))).
Proof.
  induction CVs as [|CV CVs IH]; intros st F HF; simpl.
  - unfold ret. by rewrite list_insert_id, with_heap_id.
  - unfold mbind, M_bind, bind. rewrite (fill_fold_spec _ _ _ _ _ _ _ F HF).
    destruct (fill_fold_frame _ yt pred tau metrics CV F) as [[[]|e] F1]; simpl.
    + unfold mbind, M_bind, bind in IH. rewrite (IH _ F1); simpl.
      * by rewrite list_insert_insert_eq.
      * apply list_lookup_insert_eq. by eapply lookup_lt_Some.
    + reflexivity.
Qed.

(** The aggregator called on an existing table. *)
Lemma aggregator_spec_extend (yt : Series) (pred : PredTable) (l : loc) (tau : Q)
    (metrics : list metric) (st : State) (F : DataFrame) :
  heap st !! l = Some F ->
  compute_metrics_for_specified_tau yt pred (Some l) tau metrics st =
  match fill_folds tau yt pred tau metrics CV_folds F with
  | (Ok _, F') =>
      (Ok (length (heap st)),
       {| pinball_defaults := tau; heap := <[l := F']> (heap st) ++ [F'] |})
  | (Raise e, F') =>
      (Raise e, {| pinball_defaults := tau; heap := <[l := F']> (heap st) |})
  end.
Proof.
  intros HF.
  pose proof (folds_loop_spec yt pred l tau metrics CV_folds
                {| pinball_defaults := tau; heap := heap st |} F HF) as Hloop.
  unfold compute_metrics_for_specified_tau, mbind, M_bind, bind.
  revert Hloop. generalize CV_folds. intros CVs Hloop.
  simpl in *. rewrite Hloop.
  destruct (fill_folds tau yt pred tau metrics CVs F) as [[[]|e] F']; simpl.
  - unfold read_frame, new_frame, with_heap; simpl.
    rewrite list_lookup_insert_eq by (by eapply lookup_lt_Some). simpl.
    by rewrite length_insert.
  - reflexivity.
Qed.

(** The aggregator called without a table. *)
Lemma aggregator_spec_fresh (yt : Series) (pred : PredTable) (tau : Q)
    (metrics : list metric) (st : State) :
  compute_metrics_for_specified_tau yt pred None tau metrics st =
  match fill_folds tau yt pred tau metrics CV_folds (frame_new (map metric_name metrics)) with
  | (Ok _, F') =>
      (Ok (S (length (heap st))),
       {| pinball_defaults := tau; heap := heap st ++ [F'; F'] |})
  | (Raise e, F') =>
      (Raise e, {| pinball_defaults := tau; heap := heap st ++ [F'] |})
  end.
Proof.
  set (F0 := frame_new (map metric_name metrics)).
  assert ((heap st ++ [F0]) !! length (heap st) = Some F0) as HF
    by (by rewrite list_lookup_middle).
  pose proof (folds_loop_spec yt pred (length (heap st)) tau metrics CV_folds
                {| pinball_defaults := tau; heap := heap st ++ [F0] |} F0 HF) as Hloop.
  unfold compute_metrics_for_specified_tau, mbind, M_bind, bind.
  revert Hloop. generalize CV_folds. intros CVs Hloop.
  simpl in *. fold F0. rewrite Hloop.
  assert (forall X, <[length (heap st) := X]> (heap st ++ [F0]) = heap st ++ [X]) as Hins.
  { intros X. replace (length (heap st)) with (length (heap st) + 0)%nat at 1 by lia.
    by rewrite insert_app_r. }
  destruct (fill_folds tau yt pred tau metrics CVs F0) as [[[]|e] F']; simpl.
  - unfold read_frame, new_frame, with_heap; simpl. rewrite Hins.
    rewrite list_lookup_middle by reflexivity. simpl.
    rewrite length_app, <- app_assoc. simpl. do 2 f_equal. lia.
  - unfold with_heap; simpl. by rewrite Hins.
Qed.

End Refinement.

Section AggregatorFacts.

Lemma index_steps_ok {A} (s : list (Z * A)) :
  steps_ok s = true -> index_steps (labels s) = Ok (time_steps (labels s)).
Proof. unfold steps_ok, index_steps. by intros ->. Qed.

Lemma index_steps_overflow {A} (s : list (Z * A)) :
  steps_ok s = false -> index_steps (labels s) = Raise OverflowError.
Proof. unfold steps_ok, index_steps. by intros ->. Qed.

Lemma metric_value_aligned (dflt : Q) (m : metric) (yt yp : Series) :
  index_equals yt yp = true -> steps_ok yp = true ->
  exists v, metric_value dflt m yt yp = Ok v.
Proof.
  intros H Hs. destruct m; unfold metric_value, coverage, requirement, exceeding,
    closeness, max_exceeding, reserve_ramp_rate, pinball_loss, series_cmp;
    rewrite ?H, ?(index_steps_ok _ Hs); eauto.
Qed.

Lemma coverage_misaligned (yt yp : Series) :
  index_equals yt yp = false -> coverage yt yp = Raise ValueError.
Proof. intros H. unfold coverage, series_cmp. by rewrite H. Qed.

Lemma pred_getitem_error (pred : PredTable) (k : colkey) (e : error) :
  pred_getitem pred k = Raise e -> e = KeyError.
Proof. unfold pred_getitem. destruct (dict_get _ _ _); congruence. Qed.

Lemma key_alter_set (f : Column -> Column) (k : colkey) (v : Column) d :
  dict_alter key_eqb f k (dict_set key_eqb k v d) = dict_set key_eqb k (f v) d.
Proof. apply dict_alter_set, key_eqb_refl. Qed.

Lemma key_get_set (k k' : colkey) {V} (v : V) d :
  dict_get key_eqb k (dict_set key_eqb k' v d) =
  if key_eqb k' k then Some v else dict_get key_eqb k d.
Proof. apply (dict_get_set key_eqb key_eqb_sym key_eqb_trans). Qed.

Lemma fill_cells_aligned (dflt : Q) (yt yp : Series) (key : colkey) :
  index_equals yt yp = true -> steps_ok yp = true ->
  forall metrics index col d,
    fill_cells dflt yt yp key metrics
      {| df_index := index; df_columns := dict_set key_eqb key col d |}
    = (Ok tt, {| df_index := index;
                 df_columns := dict_set key_eqb key (fill_column dflt yt yp metrics col) d |}).
Proof.
  intros Hidx Hs. induction metrics as [|m metrics IH]; intros index col d; simpl;
    [reflexivity|].
  unfold metric_scalar.
  destruct (metric_value_aligned dflt m yt yp Hidx Hs) as [v ->].
  unfold setitem_cell; simpl. rewrite key_alter_set. apply IH.
Qed.

Lemma fill_fold_frame_ok (dflt : Q) (yt : Series) (pred : PredTable) (tau : Q)
    (metrics : list metric) (CV : nat) (F : DataFrame) :
  fold_ok yt pred tau CV = true ->
  fill_fold_frame dflt yt pred tau metrics CV F
  = (Ok tt, {| df_index := df_index F;
               df_columns := dict_set key_eqb (tau, CV)
                               (fold_column dflt yt pred tau metrics (df_index F) CV)
                               (df_columns F) |}).
Proof.
  unfold fold_ok, fill_fold_frame, fold_column.
  destruct (pred_getitem pred (tau, CV)) as [yp|e]; [|discriminate].
  intros Hok. apply andb_prop in Hok as [Hidx Hs].
  unfold setitem_column. by rewrite fill_cells_aligned.
Qed.

Lemma fill_folds_ok (dflt : Q) (yt : Series) (pred : PredTable) (tau : Q)
    (metrics : list metric) (CVs : list nat) :
  forallb (fold_ok yt pred tau) CVs = true ->
  forall F,
    fill_folds dflt yt pred tau metrics CVs F
    = (Ok tt, {| df_index := df_index F;
                 df_columns := add_columns tau
                                 (fold_column dflt yt pred tau metrics (df_index F))
                                 CVs (df_columns F) |}).
Proof.
  induction CVs as [|CV CVs IH]; simpl; intros Hall F.
  - by destruct F.
  - apply andb_prop in Hall as [H1 H2].
    rewrite (fill_fold_frame_ok _ _ _ _ _ _ _ H1). by rewrite (IH H2).
Qed.

(** With the default metrics the first fold that is not fine stops the
    loop: KeyError when its column is missing, ValueError when its labels
    differ from those of the observations, OverflowError when a time step
    does not fit. *)
Lemma fill_cells_default_misaligned (dflt : Q) (yt yp : Series) (key : colkey) F :
  index_equals yt yp = false ->
  fst (fill_cells dflt yt yp key default_metrics F) = Raise ValueError.
Proof.
  intros H. unfold default_metrics. cbn [fill_cells metric_value].
  by rewrite (coverage_misaligned _ _ H).
Qed.

Lemma fill_cells_default_overflow (dflt : Q) (yt yp : Series) (key : colkey) F :
  index_equals yt yp = true -> steps_ok yp = false ->
  fst (fill_cells dflt yt yp key default_metrics F) = Raise OverflowError.
Proof.
  intros H Hs. unfold default_metrics. cbn [fill_cells metric_value].
  unfold coverage, requirement, exceeding, closeness, max_exceeding, series_cmp.
  rewrite H. cbn [fill_cells metric_value]. unfold reserve_ramp_rate.
  by rewrite (index_steps_overflow _ Hs).
Qed.

Lemma fill_fold_frame_bad (dflt : Q) (yt : Series) (pred : PredTable) (tau : Q)
    (CV : nat) (F : DataFrame) :
  fold_ok yt pred tau CV = false ->
  fst (fill_fold_frame dflt yt pred tau default_metrics CV F) =
  Raise (fold_error yt pred tau CV).
Proof.
  unfold fold_ok, fold_error, fill_fold_frame.
  destruct (pred_getitem pred (tau, CV)) as [yp|e] eqn:E; intros H.
  - destruct (index_equals yt yp) eqn:Hidx.
    + by apply fill_cells_default_overflow.
    + by apply fill_cells_default_misaligned.
  - simpl. by rewrite (pred_getitem_error _ _ _ E).
Qed.

Lemma fill_folds_first_bad (dflt : Q) (yt : Series) (pred : PredTable) (tau : Q)
    (before : list nat) (CV : nat) (after : list nat) :
  forallb (fold_ok yt pred tau) before = true ->
  fold_ok yt pred tau CV = false ->
  forall F,
    fst (fill_folds dflt yt pred tau default_metrics (before ++ CV :: after) F) =
    Raise (fold_error yt pred tau CV).
Proof.
  intros Hbefore Hbad. induction before as [|b before IH]; intros F.
  - cbn [app fill_folds].
    pose proof (fill_fold_frame_bad dflt yt pred tau CV F Hbad) as H.
    destruct (fill_fold_frame dflt yt pred tau default_metrics CV F) as [[[]|e] F'];
      simpl in *; [discriminate|exact H].
  - simpl in Hbefore. apply andb_prop in Hbefore as [H1 H2].
    cbn [app fill_folds]. rewrite (fill_fold_frame_ok _ _ _ _ _ _ _ H1). by apply IH.
Qed.

(** The loop succeeds exactly when every fold is fine. *)
Lemma forallb_split_bad {A} (p : A -> bool) (l : list A) :
  forallb p l = false ->
  exists before x after, l = before ++ x :: after /\ forallb p before = true /\ p x = false.
Proof.
  induction l as [|x l IH]; simpl; [discriminate|].
  destruct (p x) eqn:E; simpl.
  - intros H. destruct (IH H) as (b & y & a & -> & Hb & Hy).
    exists (x :: b), y, a. simpl. by rewrite E, Hb.
  - intros _. exists [], x, l. auto.
Qed.

Lemma fill_folds_bad (dflt : Q) (yt : Series) (pred : PredTable) (tau : Q)
    (CVs : list nat) (F : DataFrame) :
  forallb (fold_ok yt pred tau) CVs = false ->
  is_ok (fst (fill_folds dflt yt pred tau default_metrics CVs F)) = false.
Proof.
  intros H. destruct (forallb_split_bad _ _ H) as (b & x & a & -> & Hb & Hx).
  by rewrite (fill_folds_first_bad _ _ _ _ _ _ _ Hb Hx).
Qed.

(** Reading a column after the assignments of one call. *)
Lemma get_add_columns (k : colkey) (tau : Q) (cols : nat -> Column) (CVs : list nat) :
  forall d,
    dict_get key_eqb k (add_columns tau cols CVs d) =
    if Qeq_bool tau (fst k) && existsb (Nat.eqb (snd k)) CVs
    then Some (cols (snd k))
    else dict_get key_eqb k d.
Proof.
  unfold add_columns. induction CVs as [|CV CVs IH]; intros d; simpl.
  - by rewrite andb_false_r.
  - rewrite IH, key_get_set. unfold key_eqb at 1. simpl.
    destruct (Qeq_bool tau (fst k)); simpl; [|reflexivity].
    destruct (existsb (Nat.eqb (snd k)) CVs); simpl.
    + by rewrite orb_true_r.
    + rewrite orb_false_r, (Nat.eqb_sym (snd k) CV).
      destruct (Nat.eqb CV (snd k)) eqn:E; [|reflexivity].
      by apply Nat.eqb_eq in E as ->.
Qed.

Lemma existsb_CV_folds (f : nat) : existsb (Nat.eqb f) CV_folds = (f <? 10)%nat.
Proof.
  destruct (f <? 10)%nat eqn:E.
  - apply Nat.ltb_lt in E. apply existsb_exists. exists f.
    split; [apply in_seq; lia|apply Nat.eqb_refl].
  - apply Nat.ltb_ge in E. destruct (existsb _ _) eqn:E'; [|reflexivity].
    apply existsb_exists in E' as (x & Hx & Hfx).
    apply in_seq in Hx. apply Nat.eqb_eq in Hfx. lia.
Qed.

Lemma forallb_CV_folds (p : nat -> bool) :
  forallb p CV_folds = true <-> forall f, (f < 10)%nat -> p f = true.
Proof.
  rewrite forallb_forall. unfold CV_folds. split.
  - intros H f Hf. apply H, in_seq. lia.
  - intros H f Hf. apply in_seq in Hf. apply H. lia.
Qed.

Lemma keeps_bind {A B} (c : M A) (k : A -> M B) :
  keeps_defaults c -> (forall a, keeps_defaults (k a)) -> keeps_defaults (bind c k).
Proof.
  intros Hc Hk st. unfold bind. specialize (Hc st).
  destruct (c st) as [[a|e] st1]; simpl in *; [|exact Hc].
  by rewrite Hk.
Qed.

Lemma keeps_for_each {A} (l : list A) (body : A -> M unit) :
  (forall x, keeps_defaults (body x)) -> keeps_defaults (for_each l body).
Proof.
  intros Hb. induction l as [|x l IH]; simpl; [by intros st|].
  apply keeps_bind; auto.
Qed.

Lemma keeps_call_metric (m : metric) (yt yp : Series) : keeps_defaults (call_metric m yt yp).
Proof. intros st. by rewrite call_metric_spec. Qed.

Lemma keeps_fill_fold yt pred l tau metrics CV :
  keeps_defaults (fill_fold yt pred l tau metrics CV).
Proof.
  unfold fill_fold. apply keeps_bind; [by intros st|]. intros yp.
  apply keeps_bind; [by intros st|]. intros _.
  apply keeps_for_each. intros m.
  apply keeps_bind; [apply keeps_call_metric|]. by intros v st.
Qed.

End AggregatorFacts.

Section AggregatorTheorems.

Lemma valid_ref_lookup (st : State) (l : nat) :
  valid_ref st (Some l) -> exists F, heap st !! l = Some F.
Proof. simpl. intros H. by apply lookup_lt_is_Some in H as [F HF]; eauto. Qed.

Lemma aggregator_result (yt : Series) (pred : PredTable) (df : option nat) (tau : Q)
    (metrics : list metric) (st : State) :
  valid_ref st df ->
  fst (compute_metrics_for_specified_tau yt pred df tau metrics st) =
  match fst (fill_folds tau yt pred tau metrics CV_folds (start_frame st df metrics)) with
  | Ok _ => Ok (match df with None => S (length (heap st)) | Some _ => length (heap st) end)
  | Raise e => Raise e
  end.
Proof.
  intros Hv. destruct df as [l|]; unfold start_frame.
  - destruct (valid_ref_lookup _ _ Hv) as [F HF].
    rewrite (aggregator_spec_extend yt pred l tau metrics st F HF), HF.
    change (default (frame_new []) (Some F)) with F.
    by destruct (fill_folds tau yt pred tau metrics CV_folds F) as [[[]|e] F'].
  - rewrite aggregator_spec_fresh.
    by destruct (fill_folds tau yt pred tau metrics CV_folds _) as [[[]|e] F'].
Qed.

Lemma CV_folds_split (f0 : nat) :
  (f0 < 10)%nat -> CV_folds = seq 0 f0 ++ f0 :: seq (S f0) (9 - f0).
Proof.
  intros H. unfold CV_folds.
  replace 10%nat with (f0 + S (9 - f0))%nat by lia.
  rewrite seq_app. simpl. reflexivity.
Qed.

Lemma aggregator_bad (yt : Series) (pred : PredTable) (df : option nat) (tau : Q) (st : State) :
  valid_ref st df ->
  forallb (fold_ok yt pred tau) CV_folds = false ->
  is_ok (fst (compute_metrics_for_specified_tau yt pred df tau default_metrics st)) = false.
Proof.
  intros Hv Hbad. rewrite (aggregator_result yt pred df tau default_metrics st Hv).
  pose proof (fill_folds_bad tau yt pred tau CV_folds (start_frame st df default_metrics) Hbad) as H.
  by destruct (fst (fill_folds _ _ _ _ _ _ _)).
Qed.

Lemma aggregator_extend_ok (yt : Series) (pred : PredTable) (l : nat) (tau : Q)
    (metrics : list metric) (st : State) (F : DataFrame) :
  heap st !! l = Some F ->
  forallb (fold_ok yt pred tau) CV_folds = true ->
  compute_metrics_for_specified_tau yt pred (Some l) tau metrics st =
  (Ok (length (heap st)),
   {| pinball_defaults := tau;
      heap := <[l := extended yt pred tau metrics F]> (heap st)
              ++ [extended yt pred tau metrics F] |}).
Proof.
  intros HF Hok. rewrite (aggregator_spec_extend yt pred l tau metrics st F HF).
  by rewrite (fill_folds_ok tau yt pred tau metrics CV_folds Hok).
Qed.

Lemma aggregator_fresh_ok (yt : Series) (pred : PredTable) (tau : Q)
    (metrics : list metric) (st : State) :
  forallb (fold_ok yt pred tau) CV_folds = true ->
  compute_metrics_for_specified_tau yt pred None tau metrics st =
  (Ok (S (length (heap st))),
   {| pinball_defaults := tau;
      heap := heap st ++ [extended yt pred tau metrics (frame_new (map metric_name metrics));
                          extended yt pred tau metrics (frame_new (map metric_name metrics))] |}).
Proof.
  intros Hok. rewrite aggregator_spec_fresh.
  by rewrite (fill_folds_ok tau yt pred tau metrics CV_folds Hok).
Qed.

Lemma get_extended (yt : Series) (pred : PredTable) (tau : Q) (metrics : list metric)
    (F : DataFrame) (k : colkey) :
  dict_get key_eqb k (df_columns (extended yt pred tau metrics F)) =
  if Qeq_bool tau (fst k) && (snd k <? 10)%nat
  then Some (fold_column tau yt pred tau metrics (df_index F) (snd k))
  else dict_get key_eqb k (df_columns F).
Proof.
  unfold extended. cbn [df_columns df_index].
  by rewrite get_add_columns, existsb_CV_folds.
Qed.

Lemma aggregate_two_ok (yt : Series) (pred : PredTable) (ta tb : Q) (st : State) :
  forallb (fold_ok yt pred ta) CV_folds = true ->
  forallb (fold_ok yt pred tb) CV_folds = true ->
  exists l st',
    aggregate_two yt pred ta tb st = (Ok l, st') /\
    heap st' !! l =
    Some (extended yt pred tb default_metrics
            (extended yt pred ta default_metrics
               (frame_new (map metric_name default_metrics)))).
Proof.
  intros Ha Hb. unfold aggregate_two, mbind, M_bind, bind.
  rewrite (aggregator_fresh_ok yt pred ta default_metrics st Ha).
  set (F1 := extended yt pred ta default_metrics _).
  assert ((heap st ++ [F1; F1]) !! S (length (heap st)) = Some F1) as H1.
  { rewrite lookup_app_r by lia. by replace (S _ - _)%nat with 1%nat by lia. }
  rewrite (aggregator_extend_ok yt pred (S (length (heap st))) tb default_metrics
             {| pinball_defaults := ta; heap := heap st ++ [F1; F1] |} F1 H1 Hb).
  eexists _, _. split; [reflexivity|]. cbn [heap].
  rewrite lookup_app_r by (rewrite length_insert; lia).
  rewrite length_insert. by rewrite Nat.sub_diag.
Qed.

Lemma aggregate_two_is_ok (yt : Series) (pred : PredTable) (ta tb : Q) (st : State) :
  is_ok (fst (aggregate_two yt pred ta tb st)) =
  forallb (fold_ok yt pred ta) CV_folds && forallb (fold_ok yt pred tb) CV_folds.
Proof.
  destruct (forallb (fold_ok yt pred ta) CV_folds) eqn:Ha;
    [destruct (forallb (fold_ok yt pred tb) CV_folds) eqn:Hb|].
  - destruct (aggregate_two_ok yt pred ta tb st Ha Hb) as (l & st' & -> & _). reflexivity.
  - unfold aggregate_two, mbind, M_bind, bind.
    rewrite (aggregator_fresh_ok yt pred ta default_metrics st Ha).
    pose proof (aggregator_bad yt pred (Some (S (length (heap st)))) tb
                  {| pinball_defaults := ta;
                     heap := heap st ++
                       [extended yt pred ta default_metrics
                          (frame_new (map metric_name default_metrics));
                        extended yt pred ta default_metrics
                          (frame_new (map metric_name default_metrics))] |}) as H.
    simpl in H. rewrite length_app in H. simpl in H.
    specialize (H ltac:(lia) Hb).
    by destruct (compute_metrics_for_specified_tau _ _ _ _ _ _) as [[]].
  - unfold aggregate_two, mbind, M_bind, bind.
    pose proof (aggregator_bad yt pred None ta st I Ha) as H.
    by destruct (compute_metrics_for_specified_tau _ _ _ _ _ _) as [[]].
Qed.

End AggregatorTheorems.

(** C1, as the code has it: the aggregator binds the quantile by setting
    the default of [pinball_loss]: after any call with quantile [tau],
    whether it returns or raises, the default is [tau], and a later call of
    [pinball_loss] without [tau] computes the loss at [tau]. *)
Theorem aggregator_sets_pinball_default (y_true : Series) (pred : PredTable)
    (df : option nat) (tau : Q) (metrics : list metric) (st : State) :
  let st' := snd (compute_metrics_for_specified_tau y_true pred df tau metrics st) in
  pinball_defaults st' = tau /\
  forall y p, call_metric PinballLoss y p st' = (pinball_loss y p tau, st').
Proof.
  assert (pinball_defaults
            (snd (compute_metrics_for_specified_tau y_true pred df tau metrics st)) = tau) as H.
  { unfold compute_metrics_for_specified_tau, mbind, M_bind.
    generalize CV_folds. intros CVs.
    unfold bind at 1. unfold set_pinball_defaults. cbv beta iota.
    match goal with |- pinball_defaults (snd (?c ?s)) = _ =>
      assert (keeps_defaults c) as Hk end.
    { apply keeps_bind; [destruct df; by intros s|]. intros l.
      apply keeps_bind; [apply keeps_for_each; intros CV; apply keeps_fill_fold|].
      intros _. apply keeps_bind; [by intros s|]. by intros F s. }
    by rewrite Hk. }
  split; [exact H|]. intros y p. rewrite call_metric_spec. simpl. by rewrite H.
Qed.

(** C1, as stated, fails: a call with quantile 0.95 changes the default
    from 0.975 to 0.95, and the same direct call of [pinball_loss] then
    gives another value. *)
Lemma aggregator_changes_pinball_default :
  let st' := snd (compute_metrics_for_specified_tau example_obs example_pred None
                    (95 # 100) default_metrics initial_state) in
  pinball_defaults initial_state = 975 # 1000 /\
  pinball_defaults st' = 95 # 100 /\
  returns (fst (call_metric PinballLoss [(0%Z, 10)] [(0%Z, 12)] initial_state)) (Num (5 # 100)) /\
  returns (fst (call_metric PinballLoss [(0%Z, 10)] [(0%Z, 12)] st')) (Num (10 # 100)).
Proof. vm_compute. repeat split. Qed.




(** C9, as the code has it: a successful call adds the ten columns of its
    quantile to the table object it was given, in place; afterwards that
    object and the returned one hold the same frame: a column for every
    fold of the quantile, and every other column as before. *)
Theorem aggregator_extends_in_place (y_true : Series) (pred : PredTable) (l : nat)
    (tau : Q) (metrics : list metric) (st : State) (F : DataFrame) :
  heap st !! l = Some F ->
  (forall f, (f < 10)%nat -> fold_ok y_true pred tau f = true) ->
  exists l' st' F',
    compute_metrics_for_specified_tau y_true pred (Some l) tau metrics st = (Ok l', st') /\
    l' <> l /\
    heap st' !! l = Some F' /\
    heap st' !! l' = Some F' /\
    (forall f, (f < 10)%nat -> dict_get key_eqb (tau, f) (df_columns F') <> None) /\
    (forall key, ~ (fst key == tau /\ (snd key < 10)%nat) ->
                 dict_get key_eqb key (df_columns F') = dict_get key_eqb key (df_columns F)).
Proof.
  intros HF Hok. apply forallb_CV_folds in Hok.
  pose proof (lookup_lt_Some _ _ _ HF) as Hlt.
  eexists (length (heap st)), _, (extended y_true pred tau metrics F).
  split; [by apply aggregator_extend_ok|]. cbn [heap].
  split; [lia|]. split; [|split; [|split]].
  - rewrite lookup_app_l by (by rewrite length_insert).
    by apply list_lookup_insert_eq.
  - rewrite lookup_app_r by (by rewrite length_insert).
    by rewrite length_insert, Nat.sub_diag.
  - intros f Hf. rewrite get_extended. simpl.
    apply Nat.ltb_lt in Hf. by rewrite Qeq_bool_refl, Hf.
  - intros key Hkey. rewrite get_extended.
    destruct (Qeq_bool tau (fst key)) eqn:E1; [|reflexivity].
    destruct (snd key <? 10)%nat eqn:E2; [|reflexivity].
    exfalso. apply Hkey. apply Qeq_bool_iff in E1. apply Nat.ltb_lt in E2.
    split; [by symmetry|exact E2].
Qed.

(** C9 on an empty table of the default metrics, extended with 0.95. *)
Lemma aggregator_extends_in_place_witness :
  exists l' st' F',
    compute_metrics_for_specified_tau example_obs example_pred (Some 0%nat) (95 # 100)
      default_metrics
      {| pinball_defaults := 975 # 1000; heap := [frame_new (map metric_name default_metrics)] |}
    = (Ok l', st') /\
    l' <> 0%nat /\
    heap st' !! 0%nat = Some F' /\
    heap st' !! l' = Some F' /\
    (forall f, (f < 10)%nat -> dict_get key_eqb (95 # 100, f) (df_columns F') <> None) /\
    (forall key, ~ (fst key == 95 # 100 /\ (snd key < 10)%nat) ->
                 dict_get key_eqb key (df_columns F') =
                 dict_get key_eqb key (df_columns (frame_new (map metric_name default_metrics)))).
Proof.
  apply (aggregator_extends_in_place example_obs example_pred 0 (95 # 100) default_metrics
           {| pinball_defaults := 975 # 1000;
              heap := [frame_new (map metric_name default_metrics)] |}
           (frame_new (map metric_name default_metrics))).
  - reflexivity.
  - intros f Hf. do 10 (destruct f as [|f]; [reflexivity|]). lia.
Defined.

(** C9, as stated, fails: the table built for 0.975 holds 10 columns; after
    it is passed to a call for 0.95, the same object holds 20. *)
Lemma aggregator_mutates_callers_table :
  exists l1 st1 l2 st2 before after,
    compute_metrics_for_specified_tau example_obs example_pred None (975 # 1000)
      default_metrics initial_state = (Ok l1, st1) /\
    heap st1 !! l1 = Some before /\
    compute_metrics_for_specified_tau example_obs example_pred (Some l1) (95 # 100)
      default_metrics st1 = (Ok l2, st2) /\
    heap st2 !! l1 = Some after /\
    length (df_columns before) = 10%nat /\
    length (df_columns after) = 20%nat.
Proof.
  eexists _, _, _, _, _, _.
  split; [vm_compute; reflexivity|].
  split; [vm_compute; reflexivity|].
  split; [vm_compute; reflexivity|].
  split; [vm_compute; reflexivity|].
  split; vm_compute; reflexivity.
Qed.

(** C7: for two different quantile levels, building the table for the one
    and extending it with the other succeeds in either order or in neither
    (it succeeds when all twenty columns are there and labelled like the
    observations, with time steps that fit 64 bits), both orders give tables with the same cells, and the
    extension leaves the cells of the columns computed first as they
    were. *)
Theorem aggregation_order_irrelevant (y_true : Series) (pred : PredTable)
    (ta tb : Q) (st : State) :
  ~ ta == tb ->
  let ok := forallb (fold_ok y_true pred ta) CV_folds &&
            forallb (fold_ok y_true pred tb) CV_folds in
  is_ok (fst (aggregate_two y_true pred ta tb st)) = ok /\
  is_ok (fst (aggregate_two y_true pred tb ta st)) = ok /\
  (ok = true ->
   exists l1 st1 F1 lA stA FA lB stB FB,
     compute_metrics_for_specified_tau y_true pred None ta default_metrics st = (Ok l1, st1) /\
     heap st1 !! l1 = Some F1 /\
     compute_metrics_for_specified_tau y_true pred (Some l1) tb default_metrics st1
     = (Ok lA, stA) /\
     heap stA !! lA = Some FA /\
     aggregate_two y_true pred ta tb st = (Ok lA, stA) /\
     aggregate_two y_true pred tb ta st = (Ok lB, stB) /\
     heap stB !! lB = Some FB /\
     (forall name key, df_at FA name key = df_at FB name key) /\
     (forall name key, dict_get key_eqb key (df_columns F1) <> None ->
                       df_at FA name key = df_at F1 name key)).
Proof.
  intros Hne ok. split; [apply aggregate_two_is_ok|].
  split; [rewrite aggregate_two_is_ok; apply andb_comm|].
  intros Hok. apply andb_prop in Hok as [Ha Hb].
  set (F0 := frame_new (map metric_name default_metrics)).
  set (F1 := extended y_true pred ta default_metrics F0).
  destruct (aggregate_two_ok y_true pred tb ta st Hb Ha) as (lB & stB & HB & HFB).
  assert ((heap st ++ [F1; F1]) !! S (length (heap st)) = Some F1) as H1.
  { rewrite lookup_app_r by lia. by replace (S _ - _)%nat with 1%nat by lia. }
  eexists _, _, F1, _, _, (extended y_true pred tb default_metrics F1), lB, stB, _.
  split; [by apply aggregator_fresh_ok|].
  split; [exact H1|].
  split; [by apply (aggregator_extend_ok y_true pred (S (length (heap st))) tb default_metrics
                      {| pinball_defaults := ta; heap := heap st ++ [F1; F1] |} F1 H1 Hb)|].
  split.
  { cbn [heap]. rewrite lookup_app_r by (rewrite length_insert; lia).
    by rewrite length_insert, Nat.sub_diag. }
  split.
  { unfold aggregate_two, mbind, M_bind, bind.
    rewrite (aggregator_fresh_ok y_true pred ta default_metrics st Ha).
    cbv beta iota. fold F0. fold F1.
    by rewrite (aggregator_extend_ok y_true pred (S (length (heap st))) tb default_metrics
                  {| pinball_defaults := ta; heap := heap st ++ [F1; F1] |} F1 H1 Hb). }
  split; [exact HB|]. split; [exact HFB|].
  assert (forall k : colkey,
             Qeq_bool ta (fst k) = true -> Qeq_bool tb (fst k) = true -> False) as Hx.
  { intros k E1 E2. apply Qeq_bool_iff in E1, E2. apply Hne. by rewrite E1, E2. }
  split.
  - intros name key. unfold df_at, F1. rewrite !get_extended.
    change (df_index (extended y_true pred ta default_metrics F0)) with (df_index F0).
    change (df_index (extended y_true pred tb default_metrics F0)) with (df_index F0).
    destruct (Qeq_bool ta (fst key)) eqn:E1, (Qeq_bool tb (fst key)) eqn:E2;
      cbn [andb]; try reflexivity.
    destruct (Hx key E1 E2).
  - intros name key Hkey. unfold df_at. rewrite get_extended.
    destruct (Qeq_bool tb (fst key)) eqn:E2; cbn [andb]; [|reflexivity].
    exfalso. apply Hkey. unfold F1. rewrite get_extended.
    destruct (Qeq_bool ta (fst key)) eqn:E1; [destruct (Hx key E1 E2)|reflexivity].
Qed.

(** C7 for the quantile levels 0.95 and 0.975. *)
Lemma aggregation_order_irrelevant_witness :
  let ok := forallb (fold_ok example_obs example_pred (95 # 100)) CV_folds &&
            forallb (fold_ok example_obs example_pred (975 # 1000)) CV_folds in
  is_ok (fst (aggregate_two example_obs example_pred (95 # 100) (975 # 1000) initial_state))
  = ok /\
  is_ok (fst (aggregate_two example_obs example_pred (975 # 1000) (95 # 100) initial_state))
  = ok /\
  (ok = true ->
   exists l1 st1 F1 lA stA FA lB stB FB,
     compute_metrics_for_specified_tau example_obs example_pred None (95 # 100)
       default_metrics initial_state = (Ok l1, st1) /\
     heap st1 !! l1 = Some F1 /\
     compute_metrics_for_specified_tau example_obs example_pred (Some l1) (975 # 1000)
       default_metrics st1 = (Ok lA, stA) /\
     heap stA !! lA = Some FA /\
     aggregate_two example_obs example_pred (95 # 100) (975 # 1000) initial_state
     = (Ok lA, stA) /\
     aggregate_two example_obs example_pred (975 # 1000) (95 # 100) initial_state
     = (Ok lB, stB) /\
     heap stB !! lB = Some FB /\
     (forall name key, df_at FA name key = df_at FB name key) /\
     (forall name key, dict_get key_eqb key (df_columns F1) <> None ->
                       df_at FA name key = df_at F1 name key)).
Proof.
  apply (aggregation_order_irrelevant example_obs example_pred (95 # 100) (975 # 1000)
           initial_state).
  intros H. vm_compute in H. discriminate H.
Defined.

Section AllTaus.

Lemma metric_name_inj (m m' : metric) : metric_name m = metric_name m' -> m = m'.
Proof. destruct m, m'; simpl; intros H; try reflexivity; discriminate H. Qed.

(** ** A column once all metrics are written *)

Lemma column_state_ext v (P P' : metric -> bool) all :
  (forall m, In m all -> P m = P' m) -> column_state v P all = column_state v P' all.
Proof.
  intros H. unfold column_state. apply map_ext_in. intros m Hm. by rewrite (H m Hm).
Qed.

Lemma set_rows_state v (P : metric -> bool) (m' : metric) all :
  set_rows (metric_name m') (v m') (column_state v P all) =
  column_state v (fun m => P m || String.eqb (metric_name m) (metric_name m')) all.
Proof.
  unfold set_rows, column_state. rewrite map_map. apply map_ext. intros m. simpl.
  destruct (String.eqb (metric_name m) (metric_name m')) eqn:E.
  - apply String.eqb_eq, metric_name_inj in E as ->. by rewrite orb_true_r.
  - by rewrite orb_false_r.
Qed.

Lemma fill_column_state dflt yt yp (all ms : list metric) :
  forall P,
    fill_column dflt yt yp ms (column_state (fun m => metric_scalar dflt m yt yp) P all) =
    column_state (fun m => metric_scalar dflt m yt yp)
      (fun m => P m || existsb (fun m' => String.eqb (metric_name m) (metric_name m')) ms) all.
Proof.
  induction ms as [|m' ms IH]; intros P; simpl.
  - apply column_state_ext. intros m _. by rewrite orb_false_r.
  - rewrite (set_rows_state (fun m => metric_scalar dflt m yt yp)), IH.
    apply column_state_ext. intros m _. by rewrite orb_assoc.
Qed.

Lemma fill_column_all dflt yt yp (ms : list metric) :
  fill_column dflt yt yp ms (blank_column (map metric_name ms)) =
  map (fun m => (metric_name m, Val (metric_scalar dflt m yt yp))) ms.
Proof.
  assert (blank_column (map metric_name ms) =
          column_state (fun m => metric_scalar dflt m yt yp) (fun _ => false) ms) as ->.
  { unfold blank_column, column_state. by rewrite map_map. }
  rewrite fill_column_state. unfold column_state. apply map_ext_in. intros m Hm.
  simpl. assert (existsb (fun m' => String.eqb (metric_name m) (metric_name m')) ms = true) as ->.
  { apply existsb_exists. exists m. split; [exact Hm|apply String.eqb_refl]. }
  reflexivity.
Qed.

Lemma fold_column_ok (yt : Series) (pred : PredTable) (tau : Q) (metrics : list metric)
    (CV : nat) :
  fold_ok yt pred tau CV = true ->
  fold_column tau yt pred tau metrics (map metric_name metrics) CV =
  map (fun m => (metric_name m, Val (scalar_at yt pred tau CV m))) metrics.
Proof.
  unfold fold_ok, fold_column, scalar_at.
  destruct (pred_getitem pred (tau, CV)); [|discriminate]. intros _.
  apply fill_column_all.
Qed.

(** ** New columns go to the end *)

Lemma key_set_fresh {V} (k : colkey) (v : V) d :
  Forall (fun c => key_eqb (fst c) k = false) d ->
  dict_set key_eqb k v d = d ++ [(k, v)].
Proof. apply dict_set_fresh. Qed.

Lemma add_columns_fresh (tau : Q) (cols : nat -> Column) (CVs : list nat) :
  NoDup CVs ->
  forall d,
    Forall (fun c => Qeq_bool (fst (fst c)) tau = false) d ->
    add_columns tau cols CVs d = d ++ map (fun f => ((tau, f), cols f)) CVs.
Proof.
  intros Hnd d Hd.
  assert (forall f, In f CVs -> Forall (fun c => key_eqb (fst c) (tau, f) = false) d) as Hfresh.
  { intros f _. eapply List.Forall_impl; [|exact Hd]. intros c Hc.
    cbv beta in Hc. unfold key_eqb. cbn [fst snd].
    apply andb_false_iff. left. exact Hc. }
  clear Hd. revert d Hfresh. unfold add_columns.
  induction Hnd as [|CV CVs Hnotin Hnd IH]; intros d Hfresh; simpl.
  - by rewrite app_nil_r.
  - rewrite key_set_fresh by (apply Hfresh; by left).
    rewrite IH.
    + by rewrite <- app_assoc.
    + intros f Hf. apply Forall_app. split; [apply Hfresh; by right|].
      constructor; [|constructor]. unfold key_eqb. simpl.
      apply andb_false_iff. right. apply Nat.eqb_neq. intros ->.
      apply Hnotin, list_elem_of_In, Hf.
Qed.

Lemma NoDup_CV_folds : NoDup CV_folds.
Proof. apply NoDup_ListNoDup, seq_NoDup. Qed.



(** ** The loop over the quantile levels *)

Lemma all_taus_loop_from (yt : Series) (pred : PredTable) (taus : list Q) :
  forall l st F,
    heap st !! l = Some F ->
    (forall tau, In tau taus -> forallb (fold_ok yt pred tau) CV_folds = true) ->
    exists l' st',
      all_taus_loop yt pred taus (Some l) st = (Ok (Some l'), st') /\
      heap st' !! l' =
      Some (fold_left (fun F tau => extended yt pred tau default_metrics F) taus F).
Proof.
  induction taus as [|tau taus IH]; intros l st F HF Hok.
  - exists l, st. split; [reflexivity|exact HF].
  - cbn [all_taus_loop fold_left]. unfold mbind, M_bind, bind.
    rewrite (aggregator_extend_ok yt pred l tau default_metrics st F HF)
      by (apply Hok; by left).
    apply IH.
    + cbn [heap]. rewrite lookup_app_r by (by rewrite length_insert).
      by rewrite length_insert, Nat.sub_diag.
    + intros t Ht. apply Hok. by right.
Qed.

Lemma all_taus_loop_ok (yt : Series) (pred : PredTable) (taus : list Q) (st : State) :
  taus <> [] ->
  (forall tau, In tau taus -> forallb (fold_ok yt pred tau) CV_folds = true) ->
  exists l' st',
    all_taus_loop yt pred taus None st = (Ok (Some l'), st') /\
    heap st' !! l' =
    Some (fold_left (fun F tau => extended yt pred tau default_metrics F) taus
            (frame_new (map metric_name default_metrics))).
Proof.
  destruct taus as [|tau taus]; [congruence|]. intros _ Hok.
  cbn [all_taus_loop fold_left]. unfold mbind, M_bind, bind.
  rewrite (aggregator_fresh_ok yt pred tau default_metrics st) by (apply Hok; by left).
  set (F1 := extended yt pred tau default_metrics _).
  destruct (all_taus_loop_from yt pred taus (S (length (heap st)))
              {| pinball_defaults := tau; heap := heap st ++ [F1; F1] |} F1)
    as (l' & st' & Hrun & Hl').
  - cbn [heap]. rewrite lookup_app_r by lia.
    by replace (S _ - _)%nat with 1%nat by lia.
  - intros t Ht. apply Hok. by right.
  - exists l', st'. split; [exact Hrun|].
    rewrite Hl'. f_equal.
Qed.

End AllTaus.

Section Averaging.





Lemma filter_none {A} (p : A -> bool) (l : list A) :
  (forall x, In x l -> p x = false) -> List.filter p l = [].
Proof.
  induction l as [|x l IH]; intros H; simpl; [reflexivity|].
  rewrite (H x (or_introl eq_refl)), IH; [reflexivity|]. intros y Hy. apply H. by right.
Qed.











Lemma dict_get_metric {V} (v : metric -> V) (ms : list metric) (m : metric) :
  In m ms ->
  dict_get String.eqb (metric_name m) (map (fun m' => (metric_name m', v m')) ms) = Some (v m).
Proof.
  induction ms as [|m' ms IH]; intros Hin; [destruct Hin|].
  cbn [map dict_get]. destruct (String.eqb (metric_name m') (metric_name m)) eqn:E.
  - by apply String.eqb_eq, metric_name_inj in E as ->.
  - destruct Hin as [->|Hin]; [by rewrite String.eqb_refl in E|by apply IH].
Qed.

End Averaging.

Section AveragingTheorem.




End AveragingTheorem.




(** * Further properties of the metric functions *)

Section MetricExtras.

Lemma coverage_aligned (a b : Series) :
  index_equals a b = true ->
  coverage a b =
  Ok (pd_mean (map Num (map (fun r => if Qle_bool (snd (fst r)) (snd (snd r)) then 1 else 0)
                            (combine a b)))).
Proof.
  intros H. unfold coverage, series_cmp. rewrite H. rewrite !map_map.
  do 2 f_equal. apply map_ext. intros r. by destruct (Qle_bool _ _).
Qed.

Lemma qsum_bounds (l : list Q) :
  Forall (fun x => 0 <= x /\ x <= 1) l ->
  0 <= qsum l /\ qsum l <= inject_Z (Z.of_nat (length l)).
Proof.
  induction 1 as [|x l [H0 H1] _ [IH0 IH1]].
  - simpl. split; apply Qle_refl.
  - change (qsum (x :: l)) with (x + qsum l).
    change (length (x :: l)) with (S (length l)).
    rewrite Nat2Z.inj_succ, <- Z.add_1_r, inject_Z_plus.
    change (inject_Z 1) with 1. simpl in H0, H1. split; lra.
Qed.

Lemma length_pos_Q (n : nat) : (1 <= n)%nat -> 0 < inject_Z (Z.of_nat n).
Proof. intros H. change 0 with (inject_Z 0). rewrite <- Zlt_Qlt. lia. Qed.

Lemma combine_length_aligned (a b : Series) :
  index_equals a b = true -> length (combine a b) = length a.
Proof.
  intros H. rewrite length_combine, <- (index_equals_length _ _ H). apply Nat.min_id.
Qed.

Lemma select_map {A B} (f : A -> B) (g : A -> bool) (l : list A) :
  select (map f l) (map g l) = map f (List.filter g l).
Proof.
  induction l as [|x l IH]; simpl; [reflexivity|].
  destruct (g x); simpl; by rewrite IH.
Qed.

Lemma exceeding_aligned (a b : Series) :
  index_equals a b = true ->
  exceeding a b =
  Ok (pd_mean (map Num (map row_diff
         (List.filter (fun r => Qgt_bool (snd (fst r)) (snd (snd r))) (combine a b))))).
Proof.
  intros H. unfold exceeding, series_cmp, series_sub. rewrite H.
  rewrite select_map. unfold values. rewrite !map_map. reflexivity.
Qed.

Lemma max_exceeding_aligned (a b : Series) :
  index_equals a b = true ->
  max_exceeding a b = Ok (pd_max (map Num (map row_diff (combine a b)))).
Proof.
  intros H. unfold max_exceeding. rewrite (values_series_sub _ _ H).
  by rewrite map_map.
Qed.

Lemma fold_smax_Num (l : list Q) (x : Q) :
  fold_left smax (map Num l) (Num x) = Num (fold_left qmax l x).
Proof.
  revert x. induction l as [|y l IH]; intros x; simpl; [reflexivity|].
  unfold qmax at 2. destruct (Qle_bool x y); apply IH.
Qed.

Lemma pd_max_Num (x : Q) (l : list Q) :
  pd_max (map Num (x :: l)) = Num (fold_left qmax l x).
Proof.
  unfold pd_max. rewrite dropna_Num. simpl. apply fold_smax_Num.
Qed.

Lemma qmax_cases (x y : Q) : (qmax x y = y /\ x <= y) \/ (qmax x y = x /\ y <= x).
Proof.
  unfold qmax. destruct (Qle_bool x y) eqn:E.
  - left. split; [reflexivity|]. by apply Qle_bool_iff.
  - right. split; [reflexivity|].
    apply Qlt_le_weak, Qnot_le_lt. intros H. apply Qle_bool_iff in H. congruence.
Qed.

Lemma fold_qmax_ge (l : list Q) (x : Q) :
  x <= fold_left qmax l x /\ Forall (fun y => y <= fold_left qmax l x) l.
Proof.
  revert x. induction l as [|y l IH]; intros x; simpl.
  - split; [apply Qle_refl|constructor].
  - destruct (IH (qmax x y)) as [H1 H2].
    destruct (qmax_cases x y) as [[E L]|[E L]]; rewrite E in *;
      (split; [lra|constructor; [lra|exact H2]]).
Qed.

Lemma fold_qmax_In (l : list Q) (x : Q) : In (fold_left qmax l x) (x :: l).
Proof.
  revert x. induction l as [|y l IH]; intros x; simpl; [by left|].
  destruct (IH (qmax x y)) as [H|H]; [|by right; right].
  rewrite <- H. destruct (qmax_cases x y) as [[E _]|[E _]]; rewrite E; auto.
Qed.

Lemma Forall2_combine {A B} (P : A -> B -> Prop) (a : list A) (b : list B) :
  length a = length b ->
  (Forall2 P a b <-> Forall (fun r => P (fst r) (snd r)) (combine a b)).
Proof.
  revert b. induction a as [|x a IH]; intros [|y b] Hlen; simpl in *; try lia.
  - split; constructor.
  - split.
    + intros H. inversion H; subst. constructor; [assumption|]. apply IH; [lia|assumption].
    + intros H. inversion H; subst. constructor; [assumption|]. apply IH; [lia|assumption].
Qed.

Lemma qsum_zero (l : list Q) : Forall (fun x => x == 0) l -> qsum l == 0.
Proof.
  induction 1 as [|x l Hx _ IH]; [reflexivity|].
  change (qsum (x :: l)) with (x + qsum l). rewrite Hx, IH. reflexivity.
Qed.

Lemma qsum_nonneg_zero (l : list Q) :
  Forall (fun x => 0 <= x) l -> qsum l == 0 -> Forall (fun x => x == 0) l.
Proof.
  induction 1 as [|x l Hx Hl IH]; intros Hs; [constructor|].
  change (qsum (x :: l)) with (x + qsum l) in Hs.
  pose proof (qsum_nonneg l Hl) as Hq.
  constructor; [lra|]. apply IH. lra.
Qed.

Lemma qsum_pos (l : list Q) :
  l <> [] -> Forall (fun x => 0 < x) l -> 0 < qsum l.
Proof.
  intros Hne H. destruct H as [|x l Hx Hl]; [congruence|].
  change (qsum (x :: l)) with (x + qsum l).
  assert (0 <= qsum l).
  { apply qsum_nonneg. eapply List.Forall_impl; [|exact Hl]. intros y Hy. simpl in Hy. lra. }
  lra.
Qed.

Lemma mean_eq_one (s : Q) (n : nat) :
  (1 <= n)%nat -> (s / inject_Z (Z.of_nat n) == 1 <-> s == inject_Z (Z.of_nat n)).
Proof.
  intros Hn. pose proof (length_pos_Q n Hn) as Hpos. split; intros H.
  - rewrite <- (Qmult_div_r s (inject_Z (Z.of_nat n))) by lra. rewrite H. ring.
  - rewrite H. field. lra.
Qed.

Lemma indicator_sum_full {A} (p : A -> bool) (l : list A) :
  qsum (map (fun r => if p r then 1 else 0) l) == inject_Z (Z.of_nat (length l)) <->
  Forall (fun r => p r = true) l.
Proof.
  induction l as [|x l IH].
  - split; [constructor|reflexivity].
  - cbn [map]. change (qsum (?y :: ?r)) with (y + qsum r).
    change (length (x :: l)) with (S (length l)).
    rewrite Nat2Z.inj_succ, <- Z.add_1_r, inject_Z_plus. change (inject_Z 1) with 1.
    assert (qsum (map (fun r => if p r then 1 else 0) l) <= inject_Z (Z.of_nat (length l))) as Hb.
    { pose proof (qsum_bounds (map (fun r => if p r then 1 else 0) l)) as H.
      rewrite length_map in H. apply H. apply List.Forall_forall. intros y Hy.
      apply in_map_iff in Hy as (r & <- & _). destruct (p r); lra. }
    destruct (p x) eqn:E; split.
    + intros H. constructor; [exact E|]. apply IH. lra.
    + intros H. inversion H; subst. apply IH in H3. lra.
    + intros H. lra.
    + intros H. inversion H; subst. congruence.
Qed.

Lemma combine_diag {A} (l : list A) (p : A * A) : In p (combine l l) -> fst p = snd p.
Proof.
  induction l as [|x l IH]; simpl; [intros []|].
  intros [<-|H]; [reflexivity|by apply IH].
Qed.

Lemma index_equals_refl {A} (a : list (Z * A)) : index_equals a a = true.
Proof. by apply index_equals_labels. Qed.

End MetricExtras.

(** X1: on identically labelled series of at least one point, coverage is a
    number between 0 and 1. *)
Theorem coverage_between_0_and_1 (y_true y_pred : Series) :
  index_equals y_true y_pred = true ->
  (1 <= length y_true)%nat ->
  exists c, coverage y_true y_pred = Ok (Num c) /\ 0 <= c /\ c <= 1.
Proof.
  intros Hidx Hlen.
  pose proof (combine_nonempty y_true y_pred (index_equals_length _ _ Hidx) Hlen) as Hne.
  rewrite (coverage_aligned _ _ Hidx).
  rewrite pd_mean_Num by (intros E; apply map_eq_nil in E; contradiction).
  eexists. split; [reflexivity|].
  set (l := map _ (combine y_true y_pred)).
  assert (Forall (fun x => 0 <= x /\ x <= 1) l) as Hl.
  { apply List.Forall_forall. intros x Hx. apply in_map_iff in Hx as (r & <- & _).
    destruct (Qle_bool _ _); lra. }
  destruct (qsum_bounds l Hl) as [H0 H1].
  assert (0 < inject_Z (Z.of_nat (length l))) as Hpos.
  { apply length_pos_Q. unfold l. rewrite length_map, combine_length_aligned; auto. }
  split.
  - apply Qle_shift_div_l; [exact Hpos|]. lra.
  - apply Qle_shift_div_r; [exact Hpos|]. lra.
Qed.

(** X1 on two points. *)
Lemma coverage_between_0_and_1_witness :
  exists c, coverage [(0%Z, 10); (1%Z, 14)] [(0%Z, 12); (1%Z, 12)] = Ok (Num c) /\
            0 <= c /\ c <= 1.
Proof. apply coverage_between_0_and_1; [reflexivity|simpl; lia]. Defined.

(** X3: on identically labelled series of at least one point,
    [max_exceeding] is the largest of the differences observed minus
    predicted: it is one of them and no difference is above it. *)
Theorem max_exceeding_is_maximum (y_true y_pred : Series) :
  index_equals y_true y_pred = true ->
  (1 <= length y_true)%nat ->
  exists m,
    max_exceeding y_true y_pred = Ok (Num m) /\
    In m (map row_diff (combine y_true y_pred)) /\
    Forall (fun r => row_diff r <= m) (combine y_true y_pred).
Proof.
  intros Hidx Hlen.
  pose proof (combine_nonempty y_true y_pred (index_equals_length _ _ Hidx) Hlen) as Hne.
  rewrite (max_exceeding_aligned _ _ Hidx).
  destruct (combine y_true y_pred) as [|r l]; [congruence|].
  change (map row_diff (r :: l)) with (row_diff r :: map row_diff l). rewrite pd_max_Num.
  exists (fold_left qmax (map row_diff l) (row_diff r)).
  split; [reflexivity|]. split; [apply fold_qmax_In|].
  destruct (fold_qmax_ge (map row_diff l) (row_diff r)) as [H1 H2].
  constructor; [exact H1|]. rewrite List.Forall_forall in H2.
  apply List.Forall_forall. intros x Hx. apply H2, in_map, Hx.
Qed.

(** X3 on two points. *)
Lemma max_exceeding_is_maximum_witness :
  exists m,
    max_exceeding [(0%Z, 10); (1%Z, 14)] [(0%Z, 12); (1%Z, 12)] = Ok (Num m) /\
    In m (map row_diff (combine [(0%Z, 10); (1%Z, 14)] [(0%Z, 12); (1%Z, 12)])) /\
    Forall (fun r => row_diff r <= m) (combine [(0%Z, 10); (1%Z, 14)] [(0%Z, 12); (1%Z, 12)]).
Proof. apply max_exceeding_is_maximum; [reflexivity|simpl; lia]. Defined.

(** X4: on identically labelled series of at least one point these say the
    same: observed is at most predicted at every timestamp; coverage is 1;
    exceeding is nan; max_exceeding is at most 0. *)
Theorem fully_covered_iff (y_true y_pred : Series) :
  index_equals y_true y_pred = true ->
  (1 <= length y_true)%nat ->
  let covered := Forall2 (fun a b => snd a <= snd b) y_true y_pred in
  (returns (coverage y_true y_pred) (Num 1) <-> covered) /\
  (exceeding y_true y_pred = Ok NaN <-> covered) /\
  ((exists m, max_exceeding y_true y_pred = Ok (Num m) /\ m <= 0) <-> covered).
Proof.
  intros Hidx Hlen covered.
  pose proof (index_equals_length _ _ Hidx) as Hl.
  pose proof (combine_nonempty y_true y_pred Hl Hlen) as Hne.
  assert (covered <-> Forall (fun r => snd (fst r) <= snd (snd r)) (combine y_true y_pred)) as Hc.
  { unfold covered. apply (Forall2_combine (fun a b : Z * Q => snd a <= snd b)), Hl. }
  rewrite Hc. clear Hc covered.
  split; [|split].
  - rewrite (coverage_aligned _ _ Hidx).
    rewrite pd_mean_Num by (intros E; apply map_eq_nil in E; contradiction).
    cbn [returns scalar_eq]. rewrite length_map.
    rewrite mean_eq_one by (rewrite combine_length_aligned; auto).
    rewrite (indicator_sum_full (fun r : Z * Q * (Z * Q) => Qle_bool (snd (fst r)) (snd (snd r)))).
    split; intros H; (eapply List.Forall_impl; [|exact H]); intros r Hr; simpl in *;
      by apply Qle_bool_iff.
  - rewrite (exceeding_aligned _ _ Hidx).
    set (sel := List.filter _ (combine y_true y_pred)).
    split.
    + intros H. assert (sel = []) as Hs.
      { destruct sel as [|r l] eqn:E; [reflexivity|].
        rewrite pd_mean_Num in H by discriminate. discriminate. }
      apply List.Forall_forall. intros r Hr.
      destruct (Qle_bool (snd (fst r)) (snd (snd r))) eqn:E; [by apply Qle_bool_iff|].
      assert (In r sel) as Hin.
      { unfold sel. apply filter_In. split; [exact Hr|]. unfold Qgt_bool. by rewrite E. }
      rewrite Hs in Hin. destruct Hin.
    + intros H. assert (sel = []) as ->; [|reflexivity].
      destruct sel as [|r l] eqn:E; [reflexivity|].
      assert (In r sel) as Hin by (rewrite E; by left).
      unfold sel in Hin. apply filter_In in Hin as [Hr Hg].
      rewrite List.Forall_forall in H. apply H, Qle_bool_iff in Hr.
      unfold Qgt_bool in Hg. rewrite Hr in Hg. discriminate.
  - rewrite (max_exceeding_aligned _ _ Hidx).
    destruct (combine y_true y_pred) as [|r l]; [congruence|].
    change (map row_diff (r :: l)) with (row_diff r :: map row_diff l). rewrite pd_max_Num.
    destruct (fold_qmax_ge (map row_diff l) (row_diff r)) as [H1 H2].
    pose proof (fold_qmax_In (map row_diff l) (row_diff r)) as H3.
    set (m := fold_left qmax (map row_diff l) (row_diff r)) in *.
    split.
    + intros (m' & [= <-] & Hm). rewrite List.Forall_forall in H2.
      constructor; [unfold row_diff in H1; lra|].
      apply List.Forall_forall. intros x Hx.
      specialize (H2 (row_diff x) (in_map row_diff _ _ Hx)). unfold row_diff in H2. lra.
    + intros H. exists m. split; [reflexivity|].
      change (row_diff r :: map row_diff l) with (map row_diff (r :: l)) in H3.
      apply in_map_iff in H3 as (x & <- & Hx). rewrite List.Forall_forall in H.
      specialize (H x Hx). unfold row_diff. lra.
Qed.

(** X4 on three points that are all covered. *)
Lemma fully_covered_iff_witness :
  let y_true : Series := [(0%Z, 10); (1%Z, 10); (2%Z, 10)] in
  let y_pred : Series := [(0%Z, 12); (1%Z, 12); (2%Z, 12)] in
  let covered := Forall2 (fun a b => snd a <= snd b) y_true y_pred in
  (returns (coverage y_true y_pred) (Num 1) <-> covered) /\
  (exceeding y_true y_pred = Ok NaN <-> covered) /\
  ((exists m, max_exceeding y_true y_pred = Ok (Num m) /\ m <= 0) <-> covered).
Proof.
  apply (fully_covered_iff [(0%Z, 10); (1%Z, 10); (2%Z, 10)]
           [(0%Z, 12); (1%Z, 12); (2%Z, 12)]); [reflexivity|simpl; lia].
Defined.

(** X5: on identically labelled series, when observed exceeds predicted at
    some timestamp, [exceeding] is a positive number. *)
Theorem exceeding_positive (y_true y_pred : Series) :
  index_equals y_true y_pred = true ->
  Exists exceeds (combine y_true y_pred) ->
  exists q, exceeding y_true y_pred = Ok (Num q) /\ 0 < q.
Proof.
  intros Hidx Hex. rewrite (exceeding_aligned _ _ Hidx).
  set (sel := List.filter _ (combine y_true y_pred)).
  assert (sel <> []) as Hne.
  { apply List.Exists_exists in Hex as (r & Hr & Hx). intros E.
    assert (In r sel) as Hin; [|rewrite E in Hin; destruct Hin].
    unfold sel. apply filter_In. split; [exact Hr|]. unfold Qgt_bool, exceeds in *.
    destruct (Qle_bool (snd (fst r)) (snd (snd r))) eqn:El; [|reflexivity].
    apply Qle_bool_iff in El. lra. }
  assert (Forall (fun x => 0 < x) (map row_diff sel)) as Hpos.
  { apply List.Forall_forall. intros x Hx. apply in_map_iff in Hx as (r & <- & Hr).
    unfold sel in Hr. apply filter_In in Hr as [_ Hg]. unfold Qgt_bool in Hg.
    apply negb_true_iff in Hg. unfold row_diff.
    assert (~ snd (fst r) <= snd (snd r)) by (intros L; apply Qle_bool_iff in L; congruence).
    lra. }
  rewrite pd_mean_Num by (intros E; apply map_eq_nil in E; contradiction).
  eexists. split; [reflexivity|].
  apply Qlt_shift_div_l.
  - apply length_pos_Q. rewrite length_map. destruct sel; [congruence|simpl; lia].
  - rewrite Qmult_0_l. apply qsum_pos; [|exact Hpos].
    intros E; apply map_eq_nil in E; contradiction.
Qed.

(** X5 on two points, one of them exceeding. *)
Lemma exceeding_positive_witness :
  exists q, exceeding [(0%Z, 10); (1%Z, 14)] [(0%Z, 12); (1%Z, 12)] = Ok (Num q) /\ 0 < q.
Proof.
  apply exceeding_positive; [reflexivity|].
  simpl. apply Exists_cons_tl, Exists_cons_hd. unfold exceeds. simpl. lra.
Defined.

(** X6: a forecast equal to the observations (at least one point) has
    coverage 1, closeness 0, exceeding nan, max_exceeding 0 and pinball loss
    0 at every quantile level. *)
Theorem perfect_forecast (y : Series) :
  (1 <= length y)%nat ->
  returns (coverage y y) (Num 1) /\
  returns (closeness y y) (Num 0) /\
  exceeding y y = Ok NaN /\
  returns (max_exceeding y y) (Num 0) /\
  forall tau, returns (pinball_loss y y tau) (Num 0).
Proof.
  intros Hlen.
  pose proof (index_equals_refl y) as Hidx.
  pose proof (combine_nonempty y y eq_refl Hlen) as Hne.
  assert (forall r, In r (combine y y) -> row_diff r == 0) as Hdiag.
  { intros r Hr. apply combine_diag in Hr. unfold row_diff. rewrite Hr. ring. }
  assert (forall (f : Z * Q * (Z * Q) -> Q),
             (forall r, In r (combine y y) -> f r == 0) ->
             qsum (map f (combine y y)) / inject_Z (Z.of_nat (length (map f (combine y y)))) == 0)
    as Hzero.
  { intros f Hf. rewrite qsum_zero; [unfold Qdiv; ring|].
    apply List.Forall_forall. intros x Hx. apply in_map_iff in Hx as (r & <- & Hr). auto. }
  split; [|split; [|split; [|split]]].
  - rewrite (coverage_aligned _ _ Hidx).
    rewrite pd_mean_Num by (intros E; apply map_eq_nil in E; contradiction).
    cbn [returns scalar_eq]. rewrite length_map.
    apply mean_eq_one; [rewrite combine_length_aligned; auto|].
    apply (indicator_sum_full (fun r : Z * Q * (Z * Q) => Qle_bool (snd (fst r)) (snd (snd r)))).
    apply List.Forall_forall. intros r Hr. apply combine_diag in Hr.
    rewrite Hr. apply Qle_bool_iff, Qle_refl.
  - rewrite (closeness_aligned _ _ Hidx).
    rewrite pd_mean_Num by (intros E; apply map_eq_nil in E; contradiction).
    cbn [returns scalar_eq]. apply Hzero. intros r Hr.
    specialize (Hdiag r Hr). unfold row_diff in Hdiag. rewrite Hdiag. reflexivity.
  - rewrite (exceeding_aligned _ _ Hidx).
    assert (List.filter (fun r : Z * Q * (Z * Q) => Qgt_bool (snd (fst r)) (snd (snd r)))
                        (combine y y) = []) as ->; [|reflexivity].
    apply filter_none. intros r Hr. apply combine_diag in Hr. unfold Qgt_bool.
    rewrite Hr. apply negb_false_iff, Qle_bool_iff, Qle_refl.
  - rewrite (max_exceeding_aligned _ _ Hidx).
    destruct (combine y y) as [|r l] eqn:E; [congruence|].
    change (map row_diff (r :: l)) with (row_diff r :: map row_diff l). rewrite pd_max_Num.
    cbn [returns scalar_eq].
    pose proof (fold_qmax_In (map row_diff l) (row_diff r)) as H3.
    change (row_diff r :: map row_diff l) with (map row_diff (r :: l)) in H3.
    apply in_map_iff in H3 as (x & <- & Hx). by apply Hdiag.
  - intros tau. rewrite (pinball_loss_aligned _ _ _ Hidx).
    rewrite np_mean_Num by (intros E; apply map_eq_nil in E; contradiction).
    cbn [returns scalar_eq]. apply Hzero. intros r Hr.
    apply combine_diag in Hr. unfold pinball_term. rewrite Hr.
    destruct (Qle_bool _ _); ring.
Qed.

(** X6 on one point. *)
Lemma perfect_forecast_witness :
  returns (coverage [(0%Z, 10)] [(0%Z, 10)]) (Num 1) /\
  returns (closeness [(0%Z, 10)] [(0%Z, 10)]) (Num 0) /\
  exceeding [(0%Z, 10)] [(0%Z, 10)] = Ok NaN /\
  returns (max_exceeding [(0%Z, 10)] [(0%Z, 10)]) (Num 0) /\
  forall tau, returns (pinball_loss [(0%Z, 10)] [(0%Z, 10)] tau) (Num 0).
Proof. apply (perfect_forecast [(0%Z, 10)]). simpl. lia. Defined.

(** X7: on identically labelled series of at least one point, closeness is
    a number that is not negative, and it is 0 exactly when predicted
    equals observed at every timestamp. *)
Theorem closeness_zero_iff_equal (y_true y_pred : Series) :
  index_equals y_true y_pred = true ->
  (1 <= length y_true)%nat ->
  exists c,
    closeness y_true y_pred = Ok (Num c) /\
    0 <= c /\
    (c == 0 <-> Forall2 (fun a b => snd a == snd b) y_true y_pred).
Proof.
  intros Hidx Hlen.
  pose proof (index_equals_length _ _ Hidx) as Hl.
  pose proof (combine_nonempty y_true y_pred Hl Hlen) as Hne.
  rewrite (closeness_aligned _ _ Hidx).
  rewrite pd_mean_Num by (intros E; apply map_eq_nil in E; contradiction).
  eexists. split; [reflexivity|].
  set (l := map _ (combine y_true y_pred)).
  assert (Forall (fun x => 0 <= x) l) as Hnn.
  { apply List.Forall_forall. intros x Hx. apply in_map_iff in Hx as (r & <- & _).
    apply Qabs_nonneg. }
  assert (0 < inject_Z (Z.of_nat (length l))) as Hpos.
  { apply length_pos_Q. unfold l. rewrite length_map, combine_length_aligned; auto. }
  split.
  - apply Qle_shift_div_l; [exact Hpos|]. rewrite Qmult_0_l. by apply qsum_nonneg.
  - rewrite (Forall2_combine (fun a b : Z * Q => snd a == snd b)) by exact Hl.
    assert (qsum l / inject_Z (Z.of_nat (length l)) == 0 <-> qsum l == 0) as ->.
    { split; intros H.
      - rewrite <- (Qmult_div_r (qsum l) (inject_Z (Z.of_nat (length l)))) by lra.
        rewrite H. ring.
      - rewrite H. unfold Qdiv. ring. }
    split.
    + intros H. pose proof (qsum_nonneg_zero l Hnn H) as Hz.
      apply List.Forall_forall. intros r Hr. rewrite List.Forall_forall in Hz.
      assert (Qabs (snd (fst r) - snd (snd r)) == 0) as Ha.
      { apply Hz. unfold l. apply in_map_iff. eauto. }
      destruct (Qlt_le_dec (snd (fst r)) (snd (snd r))) as [L|L].
      * rewrite Qabs_neg in Ha by lra. lra.
      * rewrite Qabs_pos in Ha by lra. lra.
    + intros H. apply qsum_zero, List.Forall_forall. intros x Hx. unfold l in Hx.
      apply in_map_iff in Hx as (r & <- & Hr). rewrite List.Forall_forall in H.
      rewrite (H r Hr).
      assert (snd (snd r) - snd (snd r) == 0) as -> by ring. reflexivity.
Qed.

(** X7 on two points. *)
Lemma closeness_zero_iff_equal_witness :
  exists c,
    closeness [(0%Z, 10); (1%Z, 14)] [(0%Z, 12); (1%Z, 12)] = Ok (Num c) /\
    0 <= c /\
    (c == 0 <-> Forall2 (fun a b => snd a == snd b)
                        [(0%Z, 10); (1%Z, 14)] [(0%Z, 12); (1%Z, 12)]).
Proof. apply closeness_zero_iff_equal; [reflexivity|simpl; lia]. Defined.

Section RampExtras.

Lemma rates_ramps (s : Series) :
  rates (value_steps (values s)) (time_steps (labels s)) = ramps s.
Proof.
  induction s as [|r0 s IH]; [reflexivity|].
  destruct s as [|r1 s]; [reflexivity|].
  change (ramps (r0 :: r1 :: s))
    with (ramp (snd r1 - snd r0) (fst r1 - fst r0) :: ramps (r1 :: s)).
  rewrite <- IH. reflexivity.
Qed.

Lemma reserve_ramp_rate_steps_ok (y_true y_pred : Series) :
  steps_ok y_pred = true ->
  reserve_ramp_rate y_true y_pred = Ok (np_mean (ramps y_pred)).
Proof.
  intros H. unfold reserve_ramp_rate. by rewrite (index_steps_ok _ H), rates_ramps.
Qed.

Lemma ramps_finite (s : Series) :
  Sorted Z.lt (labels s) -> ramps s = map Num (finite_ramps s).
Proof.
  induction s as [|r0 s IH]; intros Hs; [reflexivity|].
  destruct s as [|r1 s]; [reflexivity|].
  change (ramps (r0 :: r1 :: s))
    with (ramp (snd r1 - snd r0) (fst r1 - fst r0) :: ramps (r1 :: s)).
  change (finite_ramps (r0 :: r1 :: s))
    with (Qabs (snd r1 - snd r0) / (inject_Z (fst r1 - fst r0) / ns_per_hour)
          :: finite_ramps (r1 :: s)).
  cbn [map]. unfold labels in Hs. cbn [map] in Hs.
  inversion Hs as [|? ? Hs' Hhd]; subst. inversion Hhd as [|? ? Hlt]; subst.
  rewrite IH by exact Hs'. f_equal. unfold ramp.
  destruct (Z.eqb_spec (fst r1 - fst r0) 0); [lia|reflexivity].
Qed.

Lemma finite_ramps_nonneg (s : Series) :
  Sorted Z.lt (labels s) -> Forall (fun x => 0 <= x) (finite_ramps s).
Proof.
  induction s as [|r0 s IH]; intros Hs; [constructor|].
  destruct s as [|r1 s]; [constructor|].
  change (finite_ramps (r0 :: r1 :: s))
    with (Qabs (snd r1 - snd r0) / (inject_Z (fst r1 - fst r0) / ns_per_hour)
          :: finite_ramps (r1 :: s)).
  unfold labels in Hs. cbn [map] in Hs.
  inversion Hs as [|? ? Hs' Hhd]; subst. inversion Hhd as [|? ? Hlt]; subst.
  constructor; [|by apply IH].
  assert (0 < inject_Z (fst r1 - fst r0) / ns_per_hour) as Hd.
  { apply Qlt_shift_div_l; [reflexivity|]. rewrite Qmult_0_l.
    change 0 with (inject_Z 0). rewrite <- Zlt_Qlt. lia. }
  apply Qle_shift_div_l; [exact Hd|]. rewrite Qmult_0_l. apply Qabs_nonneg.
Qed.

Lemma finite_ramps_length (s : Series) : length (finite_ramps s) = pred (length s).
Proof.
  induction s as [|r0 s IH]; [reflexivity|].
  destruct s as [|r1 s]; [reflexivity|].
  change (finite_ramps (r0 :: r1 :: s))
    with (Qabs (snd r1 - snd r0) / (inject_Z (fst r1 - fst r0) / ns_per_hour)
          :: finite_ramps (r1 :: s)).
  simpl length in *. by rewrite IH.
Qed.

Lemma finite_ramps_constant (s : Series) (c : Q) :
  Forall (fun r => snd r == c) s -> Forall (fun x => x == 0) (finite_ramps s).
Proof.
  induction s as [|r0 s IH]; intros Hc; [constructor|].
  destruct s as [|r1 s]; [constructor|].
  change (finite_ramps (r0 :: r1 :: s))
    with (Qabs (snd r1 - snd r0) / (inject_Z (fst r1 - fst r0) / ns_per_hour)
          :: finite_ramps (r1 :: s)).
  inversion Hc as [|? ? H0 Hc']; subst. inversion Hc' as [|? ? H1 _]; subst.
  constructor; [|by apply IH].
  assert (snd r1 - snd r0 == 0) as -> by (rewrite H0, H1; ring).
  unfold Qdiv. change (Qabs 0) with 0. apply Qmult_0_l.
Qed.

(** Sums and means of scalars that are not [-inf]. *)
Lemma ssum_not_finite (l : list scalar) :
  Forall (fun s => s <> NInf) l ->
  Exists (fun s => s = PInf \/ s = NaN) l ->
  ssum l = PInf \/ ssum l = NaN.
Proof.
  intros Hn. induction Hn as [|x l Hx Hl IH]; intros Hex; [inversion Hex|].
  assert (ssum l <> NInf) as Hs.
  { clear -Hl. induction Hl as [|y l Hy _ IH]; [discriminate|].
    change (ssum (y :: l)) with (sadd y (ssum l)).
    destruct y, (ssum l); simpl; congruence. }
  change (ssum (x :: l)) with (sadd x (ssum l)).
  apply Exists_cons in Hex as [[->| ->]|Hex'].
  - destruct (ssum l); simpl; auto; congruence.
  - right. reflexivity.
  - destruct (IH Hex') as [E|E]; rewrite E; destruct x; simpl; auto; congruence.
Qed.

Lemma ramps_no_ninf (s : Series) : Forall (fun x => x <> NInf) (ramps s).
Proof.
  induction s as [|r0 s IH]; [constructor|].
  destruct s as [|r1 s]; [constructor|].
  change (ramps (r0 :: r1 :: s))
    with (ramp (snd r1 - snd r0) (fst r1 - fst r0) :: ramps (r1 :: s)).
  constructor; [|exact IH]. unfold ramp.
  destruct (Z.eqb _ 0); [destruct (Qeq_bool _ 0)|]; discriminate.
Qed.

Lemma ramps_zero_step (pre post : Series) (r0 r1 : Z * Q) :
  fst r0 = fst r1 ->
  Exists (fun s => s = PInf \/ s = NaN) (ramps (pre ++ r0 :: r1 :: post)).
Proof.
  intros Ht. induction pre as [|a pre IH].
  - change (ramps ([] ++ r0 :: r1 :: post))
      with (ramp (snd r1 - snd r0) (fst r1 - fst r0) :: ramps (r1 :: post)).
    apply Exists_cons_hd. unfold ramp. rewrite Ht, Z.sub_diag. simpl.
    destruct (Qeq_bool _ 0); auto.
  - destruct pre as [|b pre].
    + change (ramps ([a] ++ r0 :: r1 :: post))
        with (ramp (snd r0 - snd a) (fst r0 - fst a) :: ramps ([] ++ r0 :: r1 :: post)).
      by apply Exists_cons_tl.
    + change (ramps ((a :: b :: pre) ++ r0 :: r1 :: post))
        with (ramp (snd b - snd a) (fst b - fst a) :: ramps ((b :: pre) ++ r0 :: r1 :: post)).
      by apply Exists_cons_tl.
Qed.

End RampExtras.

(** X9: when the timestamps of the predictions increase strictly, by
    steps that fit 64 bits, and there are at least two points,
    [reserve_ramp_rate] is a number that is not negative; it is 0 when all
    predictions are equal. *)
Theorem reserve_ramp_rate_nonneg (y_true y_pred : Series) :
  Sorted Z.lt (labels y_pred) ->
  steps_ok y_pred = true ->
  (2 <= length y_pred)%nat ->
  exists q,
    reserve_ramp_rate y_true y_pred = Ok (Num q) /\
    0 <= q /\
    (forall c, Forall (fun r => snd r == c) y_pred -> q == 0).
Proof.
  intros Hs Hsteps Hlen.
  rewrite (reserve_ramp_rate_steps_ok _ _ Hsteps), (ramps_finite _ Hs).
  assert (finite_ramps y_pred <> []) as Hne.
  { intros E. pose proof (finite_ramps_length y_pred) as H. rewrite E in H. simpl in H. lia. }
  rewrite np_mean_Num by exact Hne.
  eexists. split; [reflexivity|].
  assert (0 < inject_Z (Z.of_nat (length (finite_ramps y_pred)))) as Hpos.
  { apply length_pos_Q. rewrite finite_ramps_length. lia. }
  split.
  - apply Qle_shift_div_l; [exact Hpos|]. rewrite Qmult_0_l.
    by apply qsum_nonneg, finite_ramps_nonneg.
  - intros c Hc. rewrite (qsum_zero _ (finite_ramps_constant _ _ Hc)).
    unfold Qdiv. ring.
Qed.

(** X9 on three points an hour apart. *)
Lemma reserve_ramp_rate_nonneg_witness :
  exists q,
    reserve_ramp_rate [] [(0%Z, 12); (3600000000000%Z, 8); (7200000000000%Z, 9)]
    = Ok (Num q) /\
    0 <= q /\
    (forall c, Forall (fun r => snd r == c)
                      [(0%Z, 12); (3600000000000%Z, 8); (7200000000000%Z, 9)] -> q == 0).
Proof.
  apply reserve_ramp_rate_nonneg.
  - unfold labels. simpl. repeat constructor.
  - reflexivity.
  - simpl. lia.
Defined.

(** X10: when two consecutive predictions carry the same timestamp (and
    all time steps fit 64 bits), [reserve_ramp_rate] divides by a zero
    time step and returns no number: the result is inf or nan. *)
Theorem reserve_ramp_rate_zero_step (y_true pre post : Series) (r0 r1 : Z * Q) :
  fst r0 = fst r1 ->
  steps_ok (pre ++ r0 :: r1 :: post) = true ->
  reserve_ramp_rate y_true (pre ++ r0 :: r1 :: post) = Ok PInf \/
  reserve_ramp_rate y_true (pre ++ r0 :: r1 :: post) = Ok NaN.
Proof.
  intros Ht Hsteps. rewrite (reserve_ramp_rate_steps_ok _ _ Hsteps).
  pose proof (ramps_zero_step pre post r0 r1 Ht) as Hex.
  pose proof (ramps_no_ninf (pre ++ r0 :: r1 :: post)) as Hn.
  destruct (ssum_not_finite _ Hn Hex) as [E|E];
    destruct (ramps (pre ++ r0 :: r1 :: post)) as [|x l] eqn:El;
    try (inversion Hex; fail); unfold np_mean; rewrite E; simpl; auto.
Qed.

(** X10 on two points with the same timestamp. *)
Lemma reserve_ramp_rate_zero_step_witness :
  reserve_ramp_rate [] ([] ++ (0%Z, 12) :: (0%Z, 8) :: []) = Ok PInf \/
  reserve_ramp_rate [] ([] ++ (0%Z, 12) :: (0%Z, 8) :: []) = Ok NaN.
Proof. apply reserve_ramp_rate_zero_step; reflexivity. Defined.

(** X23: [requirement] needs no relation between the observations and the
    predictions: whatever the observations and their labels, on at least
    one prediction it is a number, which is not negative when no
    prediction is negative and not positive when no prediction is
    positive. *)
Theorem requirement_sign (y_true y_pred : Series) :
  (1 <= length y_pred)%nat ->
  exists q,
    requirement y_true y_pred = Ok (Num q) /\
    (Forall (fun r => 0 <= snd r) y_pred -> 0 <= q) /\
    (Forall (fun r => snd r <= 0) y_pred -> q <= 0).
Proof.
  intros Hlen. unfold requirement, values.
  assert (map snd y_pred <> []) as Hne.
  { destruct y_pred; [simpl in Hlen; lia|discriminate]. }
  rewrite pd_mean_Num by exact Hne.
  eexists. split; [reflexivity|].
  assert (0 < inject_Z (Z.of_nat (length (map snd y_pred)))) as Hpos.
  { apply length_pos_Q. by rewrite length_map. }
  split; intros H.
  - apply Qle_shift_div_l; [exact Hpos|]. rewrite Qmult_0_l.
    apply qsum_nonneg. apply List.Forall_forall. intros x Hx.
    apply in_map_iff in Hx as (r & <- & Hr).
    by apply (proj1 (List.Forall_forall _ _) H).
  - apply Qle_shift_div_r; [exact Hpos|]. rewrite Qmult_0_l.
    assert (0 <= qsum (map Qopp (map snd y_pred))) as Hn.
    { apply qsum_nonneg. apply List.Forall_forall. intros x Hx.
      apply in_map_iff in Hx as (y & <- & Hy). apply in_map_iff in Hy as (r & <- & Hr).
      pose proof (proj1 (List.Forall_forall _ _) H r Hr) as Hle. simpl in Hle. lra. }
    assert (forall l, qsum (map Qopp l) == - qsum l) as Hopp.
    { induction l as [|x l IH]; [reflexivity|].
      change (qsum (map Qopp (x :: l))) with (- x + qsum (map Qopp l)).
      change (qsum (x :: l)) with (x + qsum l). rewrite IH. ring. }
    rewrite Hopp in Hn. lra.
Qed.

(** X23 on two predictions that are not negative, with observations on
    other labels. *)
Lemma requirement_sign_witness :
  exists q,
    requirement [(5%Z, 10)] [(0%Z, 12); (1%Z, 8)] = Ok (Num q) /\
    (Forall (fun r => 0 <= snd r) [(0%Z, 12); (1%Z, 8)] -> 0 <= q) /\
    (Forall (fun r => snd r <= 0) [(0%Z, 12); (1%Z, 8)] -> q <= 0).
Proof. apply requirement_sign. simpl. lia. Defined.

(** * Further properties of the crossing detector *)

Section CrossingExtras.

Lemma complete_present (pred : PredTable) :
  pred_complete pred ->
  forall t CV, In t (tau_levels pred) -> In CV (fold_ids pred) -> present pred (t, CV).
Proof.
  intros Hcomplete t CV Ht HCV. unfold tau_levels in Ht. unfold fold_ids in HCV.
  apply sort_unique_In, in_map_iff in Ht as (c1 & <- & H1).
  apply sort_unique_In, in_map_iff in HCV as (c2 & <- & H2).
  by apply Hcomplete.
Qed.

Lemma crossings_loop_sound (pred : PredTable) :
  pred_wf pred -> pred_complete pred ->
  exists c,
    crossings_loop pred (tau_levels pred) (fold_ids pred) = Ok c /\
    (forall CV row, dict_get Nat.eqb CV c = Some row -> row_sound pred CV row).
Proof.
  intros Hwf Hcomplete.
  destruct (n_crossings_loop_ok pred Hwf (tau_levels pred) (fold_ids pred) []
              (complete_present pred Hcomplete))
    as (c & Hc & Hdone & _ & _).
  { intros CV row. discriminate. }
  exists c. split; [exact Hc|]. intros CV row H. by destruct (Hdone CV row H).
Qed.

Lemma n_crossings_sound (pred : PredTable) :
  pred_wf pred -> pred_complete pred ->
  (2 <= length (tau_levels pred))%nat ->
  exists c,
    n_crossings pred = Ok c /\
    crossings_loop pred (tau_levels pred) (fold_ids pred) = Ok c /\
    (forall CV row, dict_get Nat.eqb CV c = Some row -> row_sound pred CV row).
Proof.
  intros Hwf Hcomplete Htwo.
  destruct (crossings_loop_sound pred Hwf Hcomplete) as (c & Hc & Hsound).
  exists c. split; [|split; [exact Hc|exact Hsound]].
  unfold n_crossings. cbv zeta. rewrite Hc. simpl.
  by apply (index_rename_two_levels pred).
Qed.

Lemma exceed_count_le (lower upper : Series) :
  (exceed_count lower upper <= length lower)%nat.
Proof.
  revert upper. induction lower as [|a l IH]; intros [|b u]; simpl; try lia.
  specialize (IH u). destruct (Qlt_le_dec (snd b) (snd a)); lia.
Qed.

Lemma exceed_count_zero_iff (lower upper : Series) :
  length lower = length upper ->
  (exceed_count lower upper = 0%nat <-> Forall2 (fun a b => snd a <= snd b) lower upper).
Proof.
  revert upper. induction lower as [|a l IH]; intros [|b u] Hlen; simpl in *; try lia.
  - split; [constructor|reflexivity].
  - destruct (Qlt_le_dec (snd b) (snd a)) as [L|L]; split.
    + intros H. lia.
    + intros H. inversion H; subst. lra.
    + intros H. constructor; [exact L|]. apply IH; lia.
    + intros H. inversion H; subst. simpl. apply IH; [lia|assumption].
Qed.

Lemma labels_length {A} (s : list (Z * A)) : length (labels s) = length s.
Proof. apply length_map. Qed.

Lemma foldM_error {A S} (body : S -> A -> result S) (l : list A) :
  (forall s x e, In x l -> body s x = Raise e -> e = KeyError) ->
  forall s e, foldM body l s = Raise e -> e = KeyError.
Proof.
  induction l as [|x l IH]; intros Hb s e; simpl; [discriminate|].
  destruct (body s x) as [s'|e'] eqn:E; simpl.
  - apply IH. intros s0 y e0 Hy. apply Hb. by right.
  - intros [= <-]. eapply Hb; [by left|exact E].
Qed.

Lemma crossings_cell_error (pred : PredTable) (CV : nat) (t1 t2 : Q) row (e : error) :
  pred_wf pred ->
  crossings_cell pred CV t1 row t2 = Raise e -> e = KeyError.
Proof.
  intros Hwf. unfold crossings_cell. destruct (Qlt_bool t1 t2); [|discriminate].
  destruct (pred_getitem pred (t1, CV)) as [lower|e1] eqn:E1; simpl;
    [|intros [= <-]; by eapply pred_getitem_error].
  destruct (pred_getitem pred (t2, CV)) as [upper|e2] eqn:E2; simpl;
    [|intros [= <-]; by eapply pred_getitem_error].
  unfold series_cmp.
  assert (index_equals lower upper = true) as ->; [|discriminate].
  apply index_equals_labels.
  by rewrite (pred_getitem_labels pred Hwf _ _ E1), (pred_getitem_labels pred Hwf _ _ E2).
Qed.

(** The fold identifiers of a table, as the code collects them, increase
    strictly. *)
Lemma insert_sorted_lt (x : nat) (l : list nat) :
  StronglySorted lt l -> StronglySorted lt (insert_sorted Nat.leb Nat.eqb x l).
Proof.
  induction 1 as [|y l Hs IH Hy]; simpl; [repeat constructor|].
  destruct (Nat.eqb_spec x y) as [->|Hne]; [by constructor|].
  destruct (Nat.leb_spec x y) as [L|L].
  - constructor; [by constructor|]. constructor; [lia|].
    eapply List.Forall_impl; [|exact Hy]. simpl. intros z Hz. lia.
  - constructor; [exact IH|]. apply List.Forall_forall. intros z Hz.
    apply insert_sorted_In in Hz as [->|Hz]; [lia|].
    rewrite List.Forall_forall in Hy. by apply Hy.
Qed.

Lemma fold_ids_sorted (pred : PredTable) : StronglySorted lt (fold_ids pred).
Proof.
  unfold fold_ids, sort_unique.
  induction (pt_columns pred) as [|x l IH]; simpl; [constructor|].
  by apply insert_sorted_lt.
Qed.

Lemma n_crossings_loop_keys (pred : PredTable) (taus : list Q) (CVs : list nat) :
  StronglySorted lt CVs ->
  forall c c',
    Forall (fun k => Forall (lt k) CVs) (map fst c) ->
    foldM (fun crossings CV =>
             bind_result (crossings_fold pred taus CV) (fun row =>
             Ok (dict_set Nat.eqb CV row crossings))) CVs c = Ok c' ->
    map fst c' = map fst c ++ CVs.
Proof.
  induction 1 as [|CV CVs Hs IH Hlt]; intros c c' Hc; simpl.
  - intros [= <-]. by rewrite app_nil_r.
  - destruct (crossings_fold pred taus CV) as [row|e]; simpl; [|discriminate].
    intros Hrun. rewrite (dict_set_fresh Nat.eqb) in Hrun.
    + apply IH in Hrun.
      * rewrite Hrun, map_app. simpl. by rewrite <- app_assoc.
      * rewrite map_app. apply Forall_app. split.
        -- eapply List.Forall_impl; [|exact Hc]. intros k Hk. simpl in Hk.
           by inversion Hk.
        -- simpl. constructor; [exact Hlt|constructor].
    + rewrite List.Forall_forall in Hc. apply List.Forall_forall. intros [k v] Hin.
      simpl. apply Nat.eqb_neq.
      assert (Forall (lt k) (CV :: CVs)) as Hk by (apply Hc, in_map_iff; exists (k, v); auto).
      inversion Hk; subst. lia.
Qed.

End CrossingExtras.

(** X11: on a table (a frame) that holds at least two quantile levels and
    pairs every present level with every present fold, no entry of the
    crossing table exceeds the number of timestamps. *)
Theorem crossing_count_at_most_timestamps (pred : PredTable) :
  pred_wf pred -> pred_complete pred ->
  (2 <= length (tau_levels pred))%nat ->
  exists c,
    n_crossings pred = Ok c /\
    forall CV t1 t2 n,
      crossings_at c CV (t1, t2) = Some n -> (n <= length (pt_index pred))%nat.
Proof.
  intros Hwf Hcomplete Htwo.
  destruct (n_crossings_sound pred Hwf Hcomplete Htwo) as (c & Hc & _ & Hsound).
  exists c. split; [exact Hc|]. intros CV t1 t2 n. unfold crossings_at.
  destruct (dict_get Nat.eqb CV c) as [row|] eqn:Erow; [|discriminate].
  intros Hn. destruct (Hsound CV row Erow _ _ _ Hn) as (_ & lower & upper & Hl & _ & ->).
  rewrite <- (pred_getitem_labels pred Hwf _ _ Hl), labels_length.
  apply exceed_count_le.
Qed.

(** X11 on a table of two levels and two folds. *)
Lemma crossing_count_at_most_timestamps_witness :
  exists c,
    n_crossings square_table = Ok c /\
    forall CV t1 t2 n,
      crossings_at c CV (t1, t2) = Some n -> (n <= length (pt_index square_table))%nat.
Proof.
  apply crossing_count_at_most_timestamps.
  - unfold pred_wf, square_table. simpl. repeat constructor.
  - intros c1 c2 H1 H2. unfold square_table in *. simpl in H1, H2.
    destruct H1 as [<-|[<-|[<-|[<-|[]]]]]; destruct H2 as [<-|[<-|[<-|[<-|[]]]]];
      vm_compute; discriminate.
  - vm_compute. lia.
Defined.

(** X12: on such a table an entry of the crossing table is 0 exactly when
    the prediction of the lower level is at most that of the upper level
    at every timestamp of the fold. *)
Theorem crossing_count_zero_iff_monotone (pred : PredTable) :
  pred_wf pred -> pred_complete pred ->
  (2 <= length (tau_levels pred))%nat ->
  exists c,
    n_crossings pred = Ok c /\
    forall CV t1 t2 n,
      crossings_at c CV (t1, t2) = Some n ->
      exists lower upper,
        pred_getitem pred (t1, CV) = Ok lower /\
        pred_getitem pred (t2, CV) = Ok upper /\
        (n = 0%nat <-> Forall2 (fun a b => snd a <= snd b) lower upper).
Proof.
  intros Hwf Hcomplete Htwo.
  destruct (n_crossings_sound pred Hwf Hcomplete Htwo) as (c & Hc & _ & Hsound).
  exists c. split; [exact Hc|]. intros CV t1 t2 n. unfold crossings_at.
  destruct (dict_get Nat.eqb CV c) as [row|] eqn:Erow; [|discriminate].
  intros Hn. destruct (Hsound CV row Erow _ _ _ Hn) as (_ & lower & upper & Hl & Hu & ->).
  exists lower, upper. split; [exact Hl|]. split; [exact Hu|].
  apply exceed_count_zero_iff.
  rewrite <- (labels_length lower), <- (labels_length upper).
  by rewrite (pred_getitem_labels pred Hwf _ _ Hl), (pred_getitem_labels pred Hwf _ _ Hu).
Qed.

(** X12 on a table of two levels and two folds. *)
Lemma crossing_count_zero_iff_monotone_witness :
  exists c,
    n_crossings square_table = Ok c /\
    forall CV t1 t2 n,
      crossings_at c CV (t1, t2) = Some n ->
      exists lower upper,
        pred_getitem square_table (t1, CV) = Ok lower /\
        pred_getitem square_table (t2, CV) = Ok upper /\
        (n = 0%nat <-> Forall2 (fun a b => snd a <= snd b) lower upper).
Proof.
  apply crossing_count_zero_iff_monotone.
  - unfold pred_wf, square_table. simpl. repeat constructor.
  - intros c1 c2 H1 H2. unfold square_table in *. simpl in H1, H2.
    destruct H1 as [<-|[<-|[<-|[<-|[]]]]]; destruct H2 as [<-|[<-|[<-|[<-|[]]]]];
      vm_compute; discriminate.
  - vm_compute. lia.
Defined.

(** X13: on a frame the crossing detector raises in two cases only: with
    KeyError when at least two quantile levels are present and the table
    lacks the column of some combination of a present level and a present
    fold; with TypeError when fewer than two levels are present, since the
    frame built then has no pair as row label and refuses the two index
    names. *)
Theorem n_crossings_errors (pred : PredTable) (e : error) :
  pred_wf pred ->
  n_crossings pred = Raise e ->
  (e = KeyError /\ ~ pred_complete pred /\ (2 <= length (tau_levels pred))%nat) \/
  (e = TypeError /\ (length (tau_levels pred) < 2)%nat).
Proof.
  intros Hwf Hrun.
  destruct (Nat.lt_ge_cases (length (tau_levels pred)) 2) as [Hone|Htwo].
  - right. split; [|exact Hone].
    rewrite (n_crossings_one_level pred Hone) in Hrun. congruence.
  - left. unfold n_crossings in Hrun. cbv zeta in Hrun.
    destruct (crossings_loop pred (tau_levels pred) (fold_ids pred)) as [c|e'] eqn:Hc;
      simpl in Hrun.
    + rewrite (index_rename_two_levels pred c Htwo Hc) in Hrun. discriminate.
    + injection Hrun as ->. split; [|split; [|exact Htwo]].
      * revert Hc. unfold crossings_loop. apply foldM_error.
        intros c CV e' _. destruct (crossings_fold pred _ CV) as [row|e''] eqn:E; simpl;
          [discriminate|]. intros [= <-]. revert E. unfold crossings_fold.
        apply foldM_error. intros row t1 e0 _. apply foldM_error.
        intros row' t2 e1 _. by apply crossings_cell_error.
      * intros Hcomplete.
        destruct (crossings_loop_sound pred Hwf Hcomplete) as (c & Hc' & _). congruence.
Qed.

(** X13 on a table whose fold 1 lacks the level 9/10. *)
Lemma n_crossings_errors_witness :
  (KeyError = KeyError /\ ~ pred_complete ragged_table /\
   (2 <= length (tau_levels ragged_table))%nat) \/
  (KeyError = TypeError /\ (length (tau_levels ragged_table) < 2)%nat).
Proof.
  apply (n_crossings_errors ragged_table KeyError).
  - unfold pred_wf, ragged_table. simpl. repeat constructor.
  - vm_compute. reflexivity.
Defined.

(** X14: on a table (a frame) that holds at least two quantile levels and
    pairs every present level with every present fold, the crossing table
    has one column per fold present, in increasing order of the fold
    identifiers. *)
Theorem crossing_table_columns (pred : PredTable) :
  pred_wf pred -> pred_complete pred ->
  (2 <= length (tau_levels pred))%nat ->
  exists c, n_crossings pred = Ok c /\ map fst c = fold_ids pred /\
            StronglySorted lt (map fst c).
Proof.
  intros Hwf Hcomplete Htwo.
  destruct (n_crossings_sound pred Hwf Hcomplete Htwo) as (c & Hc & Hloop & _).
  exists c. split; [exact Hc|].
  assert (map fst c = fold_ids pred) as Hk.
  { unfold crossings_loop in Hloop.
    apply (n_crossings_loop_keys pred _ _ (fold_ids_sorted pred) [] c) in Hloop;
      [exact Hloop|constructor]. }
  split; [exact Hk|]. rewrite Hk. apply fold_ids_sorted.
Qed.

(** X14 on a table of two levels and two folds. *)
Lemma crossing_table_columns_witness :
  exists c, n_crossings square_table = Ok c /\ map fst c = fold_ids square_table /\
            StronglySorted lt (map fst c).
Proof.
  apply crossing_table_columns.
  - unfold pred_wf, square_table. simpl. repeat constructor.
  - intros c1 c2 H1 H2. unfold square_table in *. simpl in H1, H2.
    destruct H1 as [<-|[<-|[<-|[<-|[]]]]]; destruct H2 as [<-|[<-|[<-|[<-|[]]]]];
      vm_compute; discriminate.
  - vm_compute. lia.
Defined.

(** X25: on a table with fewer than two quantile levels (one level, or no
    column at all) the crossing detector raises TypeError, whatever the
    columns hold: no pair of levels is compared, the frame built from the
    empty dictionaries has a flat row index, and renaming it with two
    names fails. *)
Theorem n_crossings_needs_two_levels (pred : PredTable) :
  (length (tau_levels pred) < 2)%nat ->
  n_crossings pred = Raise TypeError.
Proof. apply n_crossings_one_level. Qed.

(** X25 on a table of one level and two folds. *)
Lemma n_crossings_needs_two_levels_witness :
  n_crossings one_level_table = Raise TypeError.
Proof. apply n_crossings_needs_two_levels. vm_compute. lia. Defined.

(** * Further properties of the aggregators *)

Section AggregatorExtras.

Lemma fresh_columns (yt : Series) (pred : PredTable) (tau : Q) (metrics : list metric) :
  df_columns (extended yt pred tau metrics (frame_new (map metric_name metrics))) =
  map (fun f => ((tau, f),
                 fold_column tau yt pred tau metrics (map metric_name metrics) f)) CV_folds.
Proof.
  unfold extended. cbn [df_columns df_index frame_new].
  rewrite add_columns_fresh; [reflexivity|apply NoDup_CV_folds|constructor].
Qed.

Lemma dict_set_same {K V} (eqb : K -> K -> bool) (k : K) (v : V) (d : list (K * V)) :
  dict_get eqb k d = Some v -> dict_set eqb k v d = d.
Proof.
  induction d as [|[k0 v0] d IH]; simpl; [discriminate|].
  destruct (eqb k0 k); [by intros [= ->]|]. intros H. by rewrite IH.
Qed.

Lemma add_columns_same (tau : Q) (cols : nat -> Column) (CVs : list nat)
    (d : list (colkey * Column)) :
  (forall f, In f CVs -> dict_get key_eqb (tau, f) d = Some (cols f)) ->
  add_columns tau cols CVs d = d.
Proof.
  unfold add_columns. induction CVs as [|CV CVs IH]; intros H; simpl; [reflexivity|].
  rewrite dict_set_same by (apply H; by left). apply IH. intros f Hf. apply H. by right.
Qed.

Lemma extended_twice (yt : Series) (pred : PredTable) (tau : Q) (metrics : list metric)
    (F : DataFrame) :
  extended yt pred tau metrics (extended yt pred tau metrics F) =
  extended yt pred tau metrics F.
Proof.
  unfold extended at 1. change (df_index (extended yt pred tau metrics F)) with (df_index F).
  rewrite add_columns_same.
  - reflexivity.
  - intros f Hf. rewrite get_extended. cbn [fst snd].
    apply in_seq in Hf. assert ((f <? 10)%nat = true) as -> by (apply Nat.ltb_lt; lia).
    by rewrite Qeq_bool_refl.
Qed.

Lemma fill_folds_first_bad_frame (dflt : Q) (yt : Series) (pred : PredTable) (tau : Q)
    (before : list nat) (CV : nat) (after : list nat) :
  forallb (fold_ok yt pred tau) before = true ->
  (forall yp, pred_getitem pred (tau, CV) = Ok yp -> index_equals yt yp = false) ->
  forall F,
    snd (fill_folds dflt yt pred tau default_metrics (before ++ CV :: after) F) =
    let F1 := {| df_index := df_index F;
                 df_columns := add_columns tau
                                 (fold_column dflt yt pred tau default_metrics (df_index F))
                                 before (df_columns F) |} in
    match pred_getitem pred (tau, CV) with
    | Ok _ => setitem_column (tau, CV) F1
    | Raise _ => F1
    end.
Proof.
  intros Hbefore Hbad. induction before as [|b before IH]; intros F.
  - cbn [app fill_folds add_columns fold_left]. unfold fill_fold_frame.
    destruct (pred_getitem pred (tau, CV)) as [yp|e] eqn:E.
    + unfold default_metrics. cbn [fill_cells metric_value].
      rewrite (coverage_misaligned _ _ (Hbad yp eq_refl)). cbn [snd]. by destruct F.
    + cbn [snd]. by destruct F.
  - simpl in Hbefore. apply andb_prop in Hbefore as [H1 H2].
    cbn [app fill_folds]. rewrite (fill_fold_frame_ok _ _ _ _ _ _ _ H1).
    rewrite (IH H2). reflexivity.
Qed.

(** After any call the default of [pinball_loss] is the quantile of the
    call. *)
Lemma aggregator_default_after (yt : Series) (pred : PredTable) (df : option nat)
    (tau : Q) (metrics : list metric) (st : State) :
  pinball_defaults (snd (compute_metrics_for_specified_tau yt pred df tau metrics st)) = tau.
Proof.
  unfold compute_metrics_for_specified_tau, mbind, M_bind.
  generalize CV_folds. intros CVs.
  unfold bind at 1. unfold set_pinball_defaults. cbv beta iota.
  match goal with |- pinball_defaults (snd (?c ?s)) = _ =>
    assert (keeps_defaults c) as Hk end.
  { apply keeps_bind; [destruct df; by intros s|]. intros l.
    apply keeps_bind; [apply keeps_for_each; intros CV; apply keeps_fill_fold|].
    intros _. apply keeps_bind; [by intros s|]. by intros F s. }
  by rewrite Hk.
Qed.

Lemma keeps_after {A B} (c : M A) (k : A -> M B) (st : State) :
  (forall a, keeps_defaults (k a)) ->
  pinball_defaults (snd (bind c k st)) = pinball_defaults (snd (c st)).
Proof.
  intros Hk. unfold bind. destruct (c st) as [[a|e] st1]; [apply Hk|reflexivity].
Qed.

Lemma last_cons {A} (a d : A) (l : list A) : List.last (a :: l) d = List.last l a.
Proof.
  revert a d. induction l as [|b l IH]; intros a d; [reflexivity|].
  change (List.last (a :: b :: l) d) with (List.last (b :: l) d).
  by rewrite (IH b d), (IH b a).
Qed.

Lemma all_taus_loop_default (yt : Series) (pred : PredTable) (taus : list Q) :
  forall df st,
    is_ok (fst (all_taus_loop yt pred taus df st)) = true ->
    pinball_defaults (snd (all_taus_loop yt pred taus df st)) =
    List.last taus (pinball_defaults st).
Proof.
  induction taus as [|tau taus IH]; intros df st Hok; [reflexivity|].
  cbn [all_taus_loop] in *. unfold mbind, M_bind, bind in *.
  pose proof (aggregator_default_after yt pred df tau default_metrics st) as Hd.
  destruct (compute_metrics_for_specified_tau yt pred df tau default_metrics st)
    as [[l|e] st1]; [|discriminate].
  cbn [snd] in Hd. rewrite (IH _ _ Hok), Hd. symmetry. apply last_cons.
Qed.

Lemma all_taus_loop_bad (yt : Series) (pred : PredTable) (taus : list Q) :
  forall df st,
    valid_ref st df ->
    Exists (fun tau => forallb (fold_ok yt pred tau) CV_folds = false) taus ->
    is_ok (fst (all_taus_loop yt pred taus df st)) = false.
Proof.
  induction taus as [|tau taus IH]; intros df st Hv Hex; [inversion Hex|].
  cbn [all_taus_loop]. unfold mbind, M_bind, bind.
  destruct (forallb (fold_ok yt pred tau) CV_folds) eqn:Hok.
  - assert (Exists (fun tau => forallb (fold_ok yt pred tau) CV_folds = false) taus) as Hex'.
    { apply Exists_cons in Hex as [H|H]; [congruence|exact H]. }
    destruct df as [l|].
    + destruct (valid_ref_lookup _ _ Hv) as [F HF].
      rewrite (aggregator_extend_ok yt pred l tau default_metrics st F HF Hok).
      apply IH; [|exact Hex']. simpl. rewrite length_app, length_insert. simpl. lia.
    + rewrite (aggregator_fresh_ok yt pred tau default_metrics st Hok).
      apply IH; [|exact Hex']. simpl. rewrite length_app. simpl. lia.
  - pose proof (aggregator_bad yt pred df tau st Hv Hok) as H.
    by destruct (compute_metrics_for_specified_tau _ _ _ _ _ _) as [[]].
Qed.


Lemma existsb_seq (f f0 : nat) : existsb (Nat.eqb f) (seq 0 f0) = (f <? f0)%nat.
Proof.
  destruct (f <? f0)%nat eqn:E.
  - apply Nat.ltb_lt in E. apply existsb_exists. exists f.
    split; [apply in_seq; lia|apply Nat.eqb_refl].
  - apply Nat.ltb_ge in E. destruct (existsb _ _) eqn:E'; [|reflexivity].
    apply existsb_exists in E' as (x & Hx & Hfx).
    apply in_seq in Hx. apply Nat.eqb_eq in Hfx. lia.
Qed.

Lemma get_partly_extended (yt : Series) (pred : PredTable) (tau : Q)
    (metrics : list metric) (f0 : nat) (F : DataFrame) (k : colkey) :
  dict_get key_eqb k (df_columns (partly_extended yt pred tau metrics f0 F)) =
  if Qeq_bool tau (fst k) && (snd k <? f0)%nat
  then Some (fold_column tau yt pred tau metrics (df_index F) (snd k))
  else dict_get key_eqb k (df_columns F).
Proof.
  unfold partly_extended. cbn [df_columns df_index].
  by rewrite get_add_columns, existsb_seq.
Qed.

(** The cell that a fine fold leaves for a metric of the list. *)
Lemma fold_cell_value (yt : Series) (pred : PredTable) (tau : Q) (metrics : list metric)
    (f : nat) (m : metric) :
  fold_ok yt pred tau f = true -> In m metrics ->
  exists y_pred v,
    pred_getitem pred (tau, f) = Ok y_pred /\
    metric_value tau m yt y_pred = Ok v /\
    dict_get String.eqb (metric_name m)
      (fold_column tau yt pred tau metrics (map metric_name metrics) f) = Some (Val v).
Proof.
  intros Hok Hm. pose proof Hok as Hok'. unfold fold_ok in Hok'.
  destruct (pred_getitem pred (tau, f)) as [y_pred|e] eqn:Hget; [|discriminate].
  apply andb_prop in Hok' as [Hidx Hst].
  destruct (metric_value_aligned tau m yt y_pred Hidx Hst) as [v Hv].
  exists y_pred, v. split; [reflexivity|]. split; [exact Hv|].
  rewrite fold_column_ok by exact Hok.
  rewrite (dict_get_metric (fun m' => Val (scalar_at yt pred tau f m')) metrics m Hm).
  unfold scalar_at, metric_scalar. by rewrite Hget, Hv.
Qed.

Lemma last_sorted_max (l : list Q) (d : Q) :
  StronglySorted Qlt l -> Forall (fun t => t <= List.last l d) l.
Proof.
  induction 1 as [|x l Hs IH Hlt]; [constructor|].
  rewrite last_cons. destruct l as [|y l].
  - constructor; [apply Qle_refl|constructor].
  - assert (Forall (fun t => t <= List.last (y :: l) x) (y :: l)) as H.
    { rewrite last_cons. by rewrite last_cons in IH. }
    constructor; [|exact H].
    inversion H; subst. inversion Hlt; subst. lra.
Qed.

End AggregatorExtras.

(** X15: a call without a table, when the ten folds of the quantile are
    there and labelled like the observations (with time steps that fit 64
    bits), returns a table whose rows
    are the names of the metrics in the order of the list and whose
    columns are (tau, 0), ..., (tau, 9) in this order. *)
Theorem aggregator_fresh_shape (y_true : Series) (pred : PredTable) (tau : Q)
    (metrics : list metric) (st : State) :
  (forall f, (f < 10)%nat -> fold_ok y_true pred tau f = true) ->
  exists l st' F,
    compute_metrics_for_specified_tau y_true pred None tau metrics st = (Ok l, st') /\
    heap st' !! l = Some F /\
    df_index F = map metric_name metrics /\
    df_keys F = map (fun f => (tau, f)) CV_folds /\
    Forall (fun c => map fst (snd c) = map metric_name metrics) (df_columns F).
Proof.
  intros Hok. pose proof (proj2 (forallb_CV_folds _) Hok) as Hall.
  eexists _, _, (extended y_true pred tau metrics (frame_new (map metric_name metrics))).
  split; [by apply aggregator_fresh_ok|]. cbn [heap].
  split. { rewrite lookup_app_r by lia. by rewrite Nat.sub_succ_l, Nat.sub_diag by lia. }
  split; [reflexivity|].
  unfold df_keys. rewrite fresh_columns, map_map. split; [reflexivity|].
  apply List.Forall_forall. intros c Hc. apply in_map_iff in Hc as (f & <- & Hf).
  cbn [snd]. apply in_seq in Hf.
  rewrite fold_column_ok by (apply Hok; lia). by rewrite map_map.
Qed.

(** X15 for the quantile level 0.95 of the example table. *)
Lemma aggregator_fresh_shape_witness :
  exists l st' F,
    compute_metrics_for_specified_tau example_obs example_pred None (95 # 100)
      default_metrics initial_state = (Ok l, st') /\
    heap st' !! l = Some F /\
    df_index F = map metric_name default_metrics /\
    df_keys F = map (fun f => (95 # 100, f)) CV_folds /\
    Forall (fun c => map fst (snd c) = map metric_name default_metrics) (df_columns F).
Proof.
  apply aggregator_fresh_shape.
  intros f Hf. do 10 (destruct f as [|f]; [reflexivity|]). lia.
Defined.

(** X16: in the table that such a call returns, the cell of a metric of
    the list at fold [f] holds the value of that metric on the
    observations and the prediction series of (tau, f), with [pinball_loss]
    evaluated at the quantile [tau] of the call. *)
Theorem aggregator_cell_values (y_true : Series) (pred : PredTable) (tau : Q)
    (metrics : list metric) (st : State) :
  (forall f, (f < 10)%nat -> fold_ok y_true pred tau f = true) ->
  exists l st' F,
    compute_metrics_for_specified_tau y_true pred None tau metrics st = (Ok l, st') /\
    heap st' !! l = Some F /\
    forall m f, In m metrics -> (f < 10)%nat ->
      exists y_pred v,
        pred_getitem pred (tau, f) = Ok y_pred /\
        metric_value tau m y_true y_pred = Ok v /\
        df_at F (metric_name m) (tau, f) = Some (Val v).
Proof.
  intros Hok. pose proof (proj2 (forallb_CV_folds _) Hok) as Hall.
  eexists _, _, (extended y_true pred tau metrics (frame_new (map metric_name metrics))).
  split; [by apply aggregator_fresh_ok|]. cbn [heap].
  split. { rewrite lookup_app_r by lia. by rewrite Nat.sub_succ_l, Nat.sub_diag by lia. }
  intros m f Hm Hf.
  destruct (fold_cell_value y_true pred tau metrics f m (Hok f Hf) Hm)
    as (y_pred & v & Hget & Hv & Hcell).
  exists y_pred, v. split; [exact Hget|]. split; [exact Hv|].
  unfold df_at. rewrite get_extended. cbn [fst snd frame_new df_index].
  rewrite Qeq_bool_refl. apply Nat.ltb_lt in Hf. rewrite Hf. cbn [andb].
  exact Hcell.
Qed.

(** X16 for the quantile level 0.95 of the example table. *)
Lemma aggregator_cell_values_witness :
  exists l st' F,
    compute_metrics_for_specified_tau example_obs example_pred None (95 # 100)
      default_metrics initial_state = (Ok l, st') /\
    heap st' !! l = Some F /\
    forall m f, In m default_metrics -> (f < 10)%nat ->
      exists y_pred v,
        pred_getitem example_pred (95 # 100, f) = Ok y_pred /\
        metric_value (95 # 100) m example_obs y_pred = Ok v /\
        df_at F (metric_name m) (95 # 100, f) = Some (Val v).
Proof.
  apply aggregator_cell_values.
  intros f Hf. do 10 (destruct f as [|f]; [reflexivity|]). lia.
Defined.

(** X17: whatever its outcome, a call leaves every frame object other than
    the table it was given as it was, and removes no object. *)
Theorem aggregator_other_frames_untouched (y_true : Series) (pred : PredTable)
    (df : option nat) (tau : Q) (metrics : list metric) (st : State) (l' : nat) :
  valid_ref st df ->
  (l' < length (heap st))%nat ->
  df <> Some l' ->
  let st' := snd (compute_metrics_for_specified_tau y_true pred df tau metrics st) in
  heap st' !! l' = heap st !! l' /\ (length (heap st) <= length (heap st'))%nat.
Proof.
  intros Hv Hl' Hne. destruct df as [l|].
  - destruct (valid_ref_lookup _ _ Hv) as [F HF].
    rewrite (aggregator_spec_extend y_true pred l tau metrics st F HF).
    assert (l <> l') as Hll by congruence.
    destruct (fill_folds tau y_true pred tau metrics CV_folds F) as [[[]|e] F']; cbn [snd heap].
    + rewrite lookup_app_l by (by rewrite length_insert).
      rewrite list_lookup_insert_ne by exact Hll.
      rewrite length_app, length_insert. split; [reflexivity|lia].
    + rewrite list_lookup_insert_ne by exact Hll.
      rewrite length_insert. split; [reflexivity|lia].
  - rewrite aggregator_spec_fresh.
    destruct (fill_folds tau y_true pred tau metrics CV_folds _) as [[[]|e] F']; cbn [snd heap];
      rewrite lookup_app_l by exact Hl'; rewrite length_app; split; (reflexivity || lia).
Qed.

(** X17 for a call that extends the second of two tables. *)
Lemma aggregator_other_frames_untouched_witness :
  let st := {| pinball_defaults := 975 # 1000;
               heap := [frame_new ["coverage"%string];
                        frame_new (map metric_name default_metrics)] |} in
  let st' := snd (compute_metrics_for_specified_tau example_obs example_pred (Some 1%nat)
                    (95 # 100) default_metrics st) in
  heap st' !! 0%nat = heap st !! 0%nat /\ (length (heap st) <= length (heap st'))%nat.
Proof.
  apply (aggregator_other_frames_untouched example_obs example_pred (Some 1%nat) (95 # 100)
           default_metrics
           {| pinball_defaults := 975 # 1000;
              heap := [frame_new ["coverage"%string];
                       frame_new (map metric_name default_metrics)] |} 0).
  - simpl. lia.
  - simpl. lia.
  - discriminate.
Defined.

(** X18: passing the returned table to a second call for the same quantile
    recomputes its ten columns in place and returns a table equal to the
    first: no column is added and no cell changes. *)
Theorem aggregator_rerun_same_tau (y_true : Series) (pred : PredTable) (tau : Q)
    (metrics : list metric) (st : State) :
  (forall f, (f < 10)%nat -> fold_ok y_true pred tau f = true) ->
  exists l1 st1 F1 l2 st2,
    compute_metrics_for_specified_tau y_true pred None tau metrics st = (Ok l1, st1) /\
    heap st1 !! l1 = Some F1 /\
    compute_metrics_for_specified_tau y_true pred (Some l1) tau metrics st1 = (Ok l2, st2) /\
    heap st2 !! l2 = Some F1 /\
    heap st2 !! l1 = Some F1.
Proof.
  intros Hok. pose proof (proj2 (forallb_CV_folds _) Hok) as Hall.
  set (F1 := extended y_true pred tau metrics (frame_new (map metric_name metrics))).
  assert ((heap st ++ [F1; F1]) !! S (length (heap st)) = Some F1) as H1.
  { rewrite lookup_app_r by lia. by rewrite Nat.sub_succ_l, Nat.sub_diag by lia. }
  eexists _, _, F1, _, _.
  split; [by apply aggregator_fresh_ok|].
  split; [exact H1|].
  split.
  { apply (aggregator_extend_ok y_true pred (S (length (heap st))) tau metrics
             {| pinball_defaults := tau; heap := heap st ++ [F1; F1] |} F1 H1 Hall). }
  pose proof (extended_twice y_true pred tau metrics
                (frame_new (map metric_name metrics))) as Het.
  fold F1 in Het. cbn [heap]. rewrite Het. split.
  - rewrite lookup_app_r by (by rewrite length_insert).
    by rewrite length_insert, Nat.sub_diag.
  - rewrite lookup_app_l by (rewrite length_insert, length_app; simpl; lia).
    apply list_lookup_insert_eq. rewrite length_app. simpl. lia.
Qed.

(** X18 for the quantile level 0.95 of the example table. *)
Lemma aggregator_rerun_same_tau_witness :
  exists l1 st1 F1 l2 st2,
    compute_metrics_for_specified_tau example_obs example_pred None (95 # 100)
      default_metrics initial_state = (Ok l1, st1) /\
    heap st1 !! l1 = Some F1 /\
    compute_metrics_for_specified_tau example_obs example_pred (Some l1) (95 # 100)
      default_metrics st1 = (Ok l2, st2) /\
    heap st2 !! l2 = Some F1 /\
    heap st2 !! l1 = Some F1.
Proof.
  apply aggregator_rerun_same_tau.
  intros f Hf. do 10 (destruct f as [|f]; [reflexivity|]). lia.
Defined.

(** X19: a call with the default metrics on a table that an earlier call
    returned, failing at fold [f0] because the column of [f0] is missing
    or labelled unlike the observations, creates no new object and leaves
    the table it was given partly extended: the cells of the folds before
    [f0] hold the metric values; the columns of other quantiles and of
    later folds are as before; when the column of [f0] is missing from the
    prediction table, the table has no more of (tau, f0) than before; and
    when it is there but labelled unlike the observations, the table
    keeps a column (tau, f0) of blank placeholders. *)
Theorem failed_call_leaves_partial_table (y_true : Series) (pred : PredTable) (l : nat)
    (tau : Q) (st : State) (F : DataFrame) (f0 : nat) :
  heap st !! l = Some F ->
  df_index F = map metric_name default_metrics ->
  (f0 < 10)%nat ->
  (forall f, (f < f0)%nat -> fold_ok y_true pred tau f = true) ->
  (forall y_pred, pred_getitem pred (tau, f0) = Ok y_pred ->
                  index_equals y_true y_pred = false) ->
  let r := compute_metrics_for_specified_tau y_true pred (Some l) tau default_metrics st in
  is_ok (fst r) = false /\
  length (heap (snd r)) = length (heap st) /\
  exists F',
    heap (snd r) !! l = Some F' /\
    df_index F' = df_index F /\
    (forall m f, In m default_metrics -> (f < f0)%nat ->
       exists y_pred v,
         pred_getitem pred (tau, f) = Ok y_pred /\
         metric_value tau m y_true y_pred = Ok v /\
         df_at F' (metric_name m) (tau, f) = Some (Val v)) /\
    (forall key, ~ (fst key == tau /\ (snd key <= f0)%nat) ->
       dict_get key_eqb key (df_columns F') = dict_get key_eqb key (df_columns F)) /\
    (dict_get key_eqb (tau, f0) (pt_columns pred) = None ->
     dict_get key_eqb (tau, f0) (df_columns F') =
     dict_get key_eqb (tau, f0) (df_columns F)) /\
    (dict_get key_eqb (tau, f0) (pt_columns pred) <> None ->
     dict_get key_eqb (tau, f0) (df_columns F') = Some (blank_column (df_index F))).
Proof.
  intros HF Hidx Hf0 Hbefore Hmis r.
  assert (forallb (fold_ok y_true pred tau) (seq 0 f0) = true) as Hb.
  { apply forallb_forall. intros f Hf. apply in_seq in Hf. apply Hbefore. lia. }
  assert (fold_ok y_true pred tau f0 = false) as Hbad.
  { unfold fold_ok. destruct (pred_getitem pred (tau, f0)) as [yp|e] eqn:E; [|reflexivity].
    by rewrite (Hmis yp eq_refl). }
  pose proof (lookup_lt_Some _ _ _ HF) as Hlt.
  pose proof (fill_folds_first_bad tau y_true pred tau (seq 0 f0) f0
                (seq (S f0) (9 - f0)) Hb Hbad F) as Hres.
  pose proof (fill_folds_first_bad_frame tau y_true pred tau (seq 0 f0) f0
                (seq (S f0) (9 - f0)) Hb Hmis F) as Hfr.
  rewrite <- (CV_folds_split f0 Hf0) in Hres, Hfr.
  unfold r. rewrite (aggregator_spec_extend y_true pred l tau default_metrics st F HF).
  destruct (fill_folds tau y_true pred tau default_metrics CV_folds F) as [res F'].
  cbn [fst snd] in Hres, Hfr. subst res.
  fold (partly_extended y_true pred tau default_metrics f0 F) in Hfr. cbv zeta in Hfr.
  set (P := partly_extended y_true pred tau default_metrics f0 F) in *.
  cbn [fst snd heap is_ok]. rewrite length_insert.
  split; [reflexivity|]. split; [reflexivity|].
  exists F'. split; [by apply list_lookup_insert_eq|].
  assert (forall k, dict_get key_eqb k (df_columns F') =
                    match dict_get key_eqb (tau, f0) (pt_columns pred) with
                    | Some _ => if key_eqb (tau, f0) k
                                then Some (blank_column (df_index F))
                                else dict_get key_eqb k (df_columns P)
                    | None => dict_get key_eqb k (df_columns P)
                    end) as Hget.
  { intros k. subst F'. unfold pred_getitem.
    destruct (dict_get key_eqb (tau, f0) (pt_columns pred)); [|reflexivity].
    unfold setitem_column. cbn [df_columns]. by rewrite key_get_set. }
  assert (df_index F' = df_index F) as HidxF.
  { subst F'. by destruct (pred_getitem pred (tau, f0)). }
  clear Hfr.
  assert (forall k, key_eqb (tau, f0) k = false ->
                    dict_get key_eqb k (df_columns F') = dict_get key_eqb k (df_columns P))
    as Hother.
  { intros k Hk. rewrite Hget, Hk.
    by destruct (dict_get key_eqb (tau, f0) (pt_columns pred)). }
  split; [exact HidxF|]. split; [|split; [|split]].
  - intros m f Hm Hf.
    destruct (fold_cell_value y_true pred tau default_metrics f m (Hbefore f Hf) Hm)
      as (y_pred & v & Hgetp & Hv & Hcell).
    exists y_pred, v. split; [exact Hgetp|]. split; [exact Hv|].
    unfold df_at. rewrite Hother.
    + unfold P. rewrite get_partly_extended. cbn [fst snd].
      rewrite Qeq_bool_refl. apply Nat.ltb_lt in Hf. rewrite Hf. cbn [andb].
      rewrite Hidx. exact Hcell.
    + unfold key_eqb. cbn [fst snd]. apply andb_false_iff. right.
      apply Nat.eqb_neq. lia.
  - intros key Hkey. rewrite Hother.
    + unfold P. rewrite get_partly_extended.
      destruct (Qeq_bool tau (fst key) && (snd key <? f0)%nat) eqn:E; [|reflexivity].
      apply andb_prop in E as [E1 E2]. apply Qeq_bool_iff in E1. apply Nat.ltb_lt in E2.
      exfalso. apply Hkey. split; [by symmetry|lia].
    + destruct (key_eqb (tau, f0) key) eqn:E; [|reflexivity].
      apply key_eqb_iff in E as [E1 E2]. cbn [fst snd] in E1, E2.
      exfalso. apply Hkey. split; [by symmetry|lia].
  - intros Hnone. rewrite Hget, Hnone. unfold P. rewrite get_partly_extended.
    cbn [fst snd]. by rewrite Nat.ltb_irrefl, andb_false_r.
  - intros Hsome. rewrite Hget, key_eqb_refl.
    by destruct (dict_get key_eqb (tau, f0) (pt_columns pred)).
Qed.

(** X19 on a prediction table that has the folds 0, 1 and 2 only: the
    call fails at fold 3 and leaves three filled columns in the table of
    the caller. *)
Lemma failed_call_leaves_partial_table_witness :
  let st := {| pinball_defaults := 975 # 1000;
               heap := [frame_new (map metric_name default_metrics)] |} in
  let F := frame_new (map metric_name default_metrics) in
  let r := compute_metrics_for_specified_tau example_obs three_fold_pred (Some 0%nat)
             (95 # 100) default_metrics st in
  is_ok (fst r) = false /\
  length (heap (snd r)) = length (heap st) /\
  exists F',
    heap (snd r) !! 0%nat = Some F' /\
    df_index F' = df_index F /\
    (forall m f, In m default_metrics -> (f < 3)%nat ->
       exists y_pred v,
         pred_getitem three_fold_pred (95 # 100, f) = Ok y_pred /\
         metric_value (95 # 100) m example_obs y_pred = Ok v /\
         df_at F' (metric_name m) (95 # 100, f) = Some (Val v)) /\
    (forall key, ~ (fst key == 95 # 100 /\ (snd key <= 3)%nat) ->
       dict_get key_eqb key (df_columns F') = dict_get key_eqb key (df_columns F)) /\
    (dict_get key_eqb (95 # 100, 3%nat) (pt_columns three_fold_pred) = None ->
     dict_get key_eqb (95 # 100, 3%nat) (df_columns F') =
     dict_get key_eqb (95 # 100, 3%nat) (df_columns F)) /\
    (dict_get key_eqb (95 # 100, 3%nat) (pt_columns three_fold_pred) <> None ->
     dict_get key_eqb (95 # 100, 3%nat) (df_columns F') = Some (blank_column (df_index F))).
Proof.
  apply (failed_call_leaves_partial_table example_obs three_fold_pred 0 (95 # 100)
           {| pinball_defaults := 975 # 1000;
              heap := [frame_new (map metric_name default_metrics)] |}
           (frame_new (map metric_name default_metrics)) 3).
  - reflexivity.
  - reflexivity.
  - lia.
  - intros f Hf. do 3 (destruct f as [|f]; [reflexivity|]). lia.
  - intros y_pred Hget. vm_compute in Hget. discriminate.
Defined.

Section AllTausExtras.

Lemma last_In {A} (l : list A) (d : A) : l <> [] -> In (List.last l d) l.
Proof.
  induction l as [|a l IH]; [congruence|]. intros _. destruct l as [|b l]; [by left|].
  right. change (List.last (a :: b :: l) d) with (List.last (b :: l) d).
  apply IH. discriminate.
Qed.

Lemma all_levels_ok_dec (yt : Series) (pred : PredTable) (taus : list Q) :
  (forall tau, In tau taus -> forallb (fold_ok yt pred tau) CV_folds = true) \/
  Exists (fun tau => forallb (fold_ok yt pred tau) CV_folds = false) taus.
Proof.
  induction taus as [|tau taus [IH|IH]].
  - left. intros tau [].
  - destruct (forallb (fold_ok yt pred tau) CV_folds) eqn:E.
    + left. intros t [<-|Ht]; [exact E|by apply IH].
    + right. by constructor.
  - right. by constructor 2.
Qed.

(** The call unfolded at a table whose column index has levels. *)
Lemma all_taus_with_levels (yt : Series) (pred : PredTable) (taus : list Q) (avg : bool)
    (st : State) :
  pt_levels pred = Some taus ->
  compute_metrics_for_all_taus yt pred avg st =
  bind (all_taus_loop yt pred taus None)
       (fun metrics_value_df =>
          if avg then
            match metrics_value_df with
            | None => lift (Raise AttributeError)
            | Some l =>
                F ← read_frame l;
                cols ← lift (astype_float F);
                ret (Some (Averaged (mean_level0 (df_index F) cols)))
            end
          else
            match metrics_value_df with
            | None => ret None
            | Some l => F ← read_frame l; ret (Some (PerFold F))
            end) st.
Proof.
  intros H. unfold compute_metrics_for_all_taus, columns_levels0, mbind, M_bind.
  unfold bind at 1. unfold lift. by rewrite H.
Qed.


Lemma all_taus_loop_is_ok (yt : Series) (pred : PredTable) (taus : list Q) (avg : bool)
    (st : State) :
  pt_levels pred = Some taus ->
  is_ok (fst (compute_metrics_for_all_taus yt pred avg st)) = true ->
  is_ok (fst (all_taus_loop yt pred taus None st)) = true.
Proof.
  intros Hlev. rewrite (all_taus_with_levels yt pred taus avg st Hlev). unfold bind.
  by destruct (all_taus_loop yt pred taus None st) as [[r|e] st1].
Qed.

Lemma all_taus_tail_keeps (avg : bool) (r : option nat) :
  keeps_defaults
    (if avg then
       match r with
       | None => lift (Raise AttributeError)
       | Some l =>
           F ← read_frame l;
           cols ← lift (astype_float F);
           ret (Some (Averaged (mean_level0 (df_index F) cols)))
       end
     else
       match r with
       | None => ret None
       | Some l => F ← read_frame l; ret (Some (PerFold F))
       end).
Proof.
  intros s. destruct avg, r as [l|]; try reflexivity.
  unfold mbind, M_bind, bind, read_frame, lift, ret. cbn [fst snd].
  by destruct (astype_float _).
Qed.

(** Every column of a frame that successful calls built is filled. *)
Lemma astype_float_filled (F : DataFrame) :
  Forall (fun c => Forall (fun r => snd r <> Blank) (snd c)) (df_columns F) ->
  is_ok (astype_float F) = true.
Proof.
  unfold astype_float. induction 1 as [|c cols Hc _ IH]; [reflexivity|].
  cbn [mapM].
  assert (exists col, mapM (fun r : string * cell =>
                              bind_result (cell_float (snd r)) (fun v => Ok (fst r, v)))
                           (snd c) = Ok col) as [col ->].
  { clear -Hc. induction Hc as [|r rows Hr _ IH]; [by eexists|].
    destruct IH as [col IH]. cbn [mapM]. destruct r as [n [|v]]; [by destruct Hr|].
    cbn [cell_float bind_result snd fst]. rewrite IH. by eexists. }
  cbn [bind_result].
  destruct (mapM _ cols); [reflexivity|discriminate].
Qed.

Lemma extended_filled (yt : Series) (pred : PredTable) (tau : Q) (F : DataFrame) :
  df_index F = map metric_name default_metrics ->
  forallb (fold_ok yt pred tau) CV_folds = true ->
  Forall (fun c => Forall (fun r => snd r <> Blank) (snd c)) (df_columns F) ->
  Forall (fun c => Forall (fun r => snd r <> Blank) (snd c))
         (df_columns (extended yt pred tau default_metrics F)).
Proof.
  intros Hidx Hok HF. unfold extended. cbn [df_columns]. unfold add_columns.
  assert (forall f, In f CV_folds -> fold_ok yt pred tau f = true) as Hall.
  { intros f Hf. apply (proj1 (forallb_forall _ _) Hok f Hf). }
  clear Hok. revert Hall. generalize CV_folds. intros CVs Hall.
  revert HF. generalize (df_columns F). induction CVs as [|CV CVs IH]; intros d Hd;
    cbn [fold_left]; [exact Hd|].
  apply IH; [intros f Hf; apply Hall; by right|].
  assert (Forall (fun r : string * cell => snd r <> Blank)
                 (fold_column tau yt pred tau default_metrics (df_index F) CV)) as Hcol.
  { rewrite Hidx, fold_column_ok by (apply Hall; by left).
    apply List.Forall_forall. intros r Hr. apply in_map_iff in Hr as (m & <- & _).
    discriminate. }
  clear -Hd Hcol. induction Hd as [|[k v] d Hk Hd IHd]; cbn [dict_set].
  - constructor; [exact Hcol|constructor].
  - destruct (key_eqb k (tau, CV)); constructor; assumption.
Qed.

Lemma extended_levels_filled (yt : Series) (pred : PredTable) (taus : list Q) :
  (forall tau, In tau taus -> forallb (fold_ok yt pred tau) CV_folds = true) ->
  forall F,
    df_index F = map metric_name default_metrics ->
    Forall (fun c => Forall (fun r => snd r <> Blank) (snd c)) (df_columns F) ->
    Forall (fun c => Forall (fun r => snd r <> Blank) (snd c))
           (df_columns (fold_left (fun F tau => extended yt pred tau default_metrics F)
                                  taus F)).
Proof.
  induction taus as [|tau taus IH]; intros Hok F Hidx HF; cbn [fold_left]; [exact HF|].
  apply IH; [intros t Ht; apply Hok; by right|exact Hidx|].
  apply extended_filled; [exact Hidx|apply Hok; by left|exact HF].
Qed.

Lemma all_taus_loop_app (yt : Series) (pred : PredTable) (l1 l2 : list Q) :
  forall df st,
    all_taus_loop yt pred (l1 ++ l2) df st =
    match all_taus_loop yt pred l1 df st with
    | (Ok r, st') => all_taus_loop yt pred l2 r st'
    | (Raise e, st') => (Raise e, st')
    end.
Proof.
  induction l1 as [|tau l1 IH]; intros df st; cbn [app all_taus_loop]; [reflexivity|].
  unfold mbind, M_bind, bind.
  destruct (compute_metrics_for_specified_tau _ _ _ _ _ _) as [[l|e] st1];
    [apply IH|reflexivity].
Qed.

Lemma all_taus_loop_valid (yt : Series) (pred : PredTable) (taus : list Q) :
  forall df st,
    valid_ref st df ->
    (forall tau, In tau taus -> forallb (fold_ok yt pred tau) CV_folds = true) ->
    exists r st', all_taus_loop yt pred taus df st = (Ok r, st') /\ valid_ref st' r.
Proof.
  induction taus as [|tau taus IH]; intros df st Hv Hok; [by exists df, st|].
  cbn [all_taus_loop]. unfold mbind, M_bind, bind.
  assert (forallb (fold_ok yt pred tau) CV_folds = true) as Htau by (apply Hok; by left).
  assert (forall t, In t taus -> forallb (fold_ok yt pred t) CV_folds = true) as Hrest.
  { intros t Ht. apply Hok. by right. }
  destruct df as [l|].
  - destruct (valid_ref_lookup _ _ Hv) as [F HF].
    rewrite (aggregator_extend_ok yt pred l tau default_metrics st F HF Htau).
    apply IH; [|exact Hrest]. simpl. rewrite length_app, length_insert. simpl. lia.
  - rewrite (aggregator_fresh_ok yt pred tau default_metrics st Htau).
    apply IH; [|exact Hrest]. simpl. rewrite length_app. simpl. lia.
Qed.

Lemma aggregator_missing_first_fold (yt : Series) (pred : PredTable) (df : option nat)
    (tau : Q) (st : State) :
  valid_ref st df ->
  dict_get key_eqb (tau, 0%nat) (pt_columns pred) = None ->
  fst (compute_metrics_for_specified_tau yt pred df tau default_metrics st) = Raise KeyError.
Proof.
  intros Hv Hnone.
  rewrite (aggregator_result yt pred df tau default_metrics st Hv).
  rewrite (CV_folds_split 0) by lia.
  rewrite (fill_folds_first_bad tau yt pred tau (seq 0 0) 0 (seq 1 (9 - 0)) eq_refl);
    unfold fold_ok, fold_error, pred_getitem; by rewrite Hnone.
Qed.

End AllTausExtras.


(** X21: on a prediction table whose column index has the levels [taus],
    the multi-aggregator succeeds exactly when every one of these levels
    has its ten folds 0..9 in the table, each labelled like the
    observations with time steps that fit, and, for [avg_across_folds]
    true, there is a level at all.  A level that no column uses (as a
    slice of a larger table keeps), a level with fewer folds, or one
    misaligned column makes the whole call raise. *)
Theorem all_taus_succeeds_iff (y_true : Series) (pred : PredTable) (taus : list Q)
    (avg : bool) (st : State) :
  pt_levels pred = Some taus ->
  (is_ok (fst (compute_metrics_for_all_taus y_true pred avg st)) = true <->
   (forall tau f, In tau taus -> (f < 10)%nat -> fold_ok y_true pred tau f = true) /\
   (avg = true -> taus <> [])).
Proof.
  intros Hlev. split.
  - intros Hok. split.
    + apply (all_taus_loop_is_ok y_true pred taus avg st Hlev) in Hok.
      destruct (all_levels_ok_dec y_true pred taus) as [Hall|Hex].
      * intros tau f Ht Hf. by apply (proj1 (forallb_CV_folds _) (Hall tau Ht)).
      * apply (all_taus_loop_bad y_true pred taus None st I) in Hex. congruence.
    + intros -> ->. rewrite (all_taus_with_levels y_true pred [] true st Hlev) in Hok.
      discriminate.
  - intros [Hok Havg]. rewrite (all_taus_with_levels y_true pred taus avg st Hlev).
    unfold bind. destruct taus as [|t0 taus'] eqn:Et.
    { cbn [all_taus_loop ret]. destruct avg; [|reflexivity].
      exfalso. by apply Havg. }
    rewrite <- Et in *.
    assert (taus <> []) as Hne by (rewrite Et; discriminate).
    assert (forall tau, In tau taus -> forallb (fold_ok y_true pred tau) CV_folds = true)
      as Hall.
    { intros tau Ht. apply forallb_CV_folds. intros f Hf. by apply Hok. }
    destruct (all_taus_loop_ok y_true pred taus st Hne Hall) as (l' & st' & Hrun & Hl').
    rewrite Hrun.
    destruct avg; unfold mbind, M_bind, bind, read_frame; rewrite Hl';
      cbn [default from_option id]; [|reflexivity].
    unfold lift.
    pose proof (astype_float_filled _
                  (extended_levels_filled y_true pred taus Hall
                     (frame_new (map metric_name default_metrics)) eq_refl
                     (List.Forall_nil _))) as Hfl.
    by destruct (astype_float _).
Qed.

(** X21 on the example table, whose two levels have their ten folds. *)
Lemma all_taus_succeeds_iff_witness :
  is_ok (fst (compute_metrics_for_all_taus example_obs example_pred true initial_state))
  = true <->
  (forall tau f, In tau [95 # 100; 975 # 1000] -> (f < 10)%nat ->
                 fold_ok example_obs example_pred tau f = true) /\
  (true = true -> [95 # 100; 975 # 1000] <> []).
Proof.
  apply (all_taus_succeeds_iff example_obs example_pred [95 # 100; 975 # 1000] true
           initial_state).
  reflexivity.
Defined.

(** X22: a successful call of the multi-aggregator leaves, as the default
    quantile of [pinball_loss], the last entry of the levels of the column
    index (or the default as it was when there is no level); when the
    levels are kept in increasing order, this is the largest level. *)
Theorem all_taus_leaves_last_level (y_true : Series) (pred : PredTable) (taus : list Q)
    (avg : bool) (st : State) :
  pt_levels pred = Some taus ->
  is_ok (fst (compute_metrics_for_all_taus y_true pred avg st)) = true ->
  let d := pinball_defaults (snd (compute_metrics_for_all_taus y_true pred avg st)) in
  d = List.last taus (pinball_defaults st) /\
  (taus <> [] -> In d taus) /\
  (StronglySorted Qlt taus -> Forall (fun tau => tau <= d) taus).
Proof.
  intros Hlev Hok d.
  assert (d = List.last taus (pinball_defaults st)) as Hd.
  { unfold d. rewrite (all_taus_with_levels y_true pred taus avg st Hlev).
    rewrite keeps_after by (intros r; apply all_taus_tail_keeps).
    apply all_taus_loop_default. by apply (all_taus_loop_is_ok y_true pred taus avg). }
  split; [exact Hd|]. rewrite Hd. split.
  - intros Hne. by apply last_In.
  - intros Hs. by apply last_sorted_max.
Qed.

(** X22 on the example table: the default is 0.975 afterwards. *)
Lemma all_taus_leaves_last_level_witness :
  let d := pinball_defaults
             (snd (compute_metrics_for_all_taus example_obs example_pred true
                     {| pinball_defaults := 1 # 2; heap := [] |})) in
  d = List.last [95 # 100; 975 # 1000] (1 # 2) /\
  ([95 # 100; 975 # 1000] <> [] -> In d [95 # 100; 975 # 1000]) /\
  (StronglySorted Qlt [95 # 100; 975 # 1000] ->
   Forall (fun tau => tau <= d) [95 # 100; 975 # 1000]).
Proof.
  apply (all_taus_leaves_last_level example_obs example_pred [95 # 100; 975 # 1000] true
           {| pinball_defaults := 1 # 2; heap := [] |}).
  - reflexivity.
  - vm_compute. reflexivity.
Defined.

(** X26: the multi-aggregator raises KeyError, whatever the flag, when the
    column index lists a level whose fold 0 the table does not hold, as it
    does for a level that no column uses: a slice of a larger table keeps
    the levels of that table.  The levels listed before it are aggregated
    first and have to be fine for the call to get there. *)
Theorem all_taus_unused_level (y_true : Series) (pred : PredTable)
    (before : list Q) (tau : Q) (after : list Q) (avg : bool) (st : State) :
  pt_levels pred = Some (before ++ tau :: after) ->
  (forall t f, In t before -> (f < 10)%nat -> fold_ok y_true pred t f = true) ->
  dict_get key_eqb (tau, 0%nat) (pt_columns pred) = None ->
  fst (compute_metrics_for_all_taus y_true pred avg st) = Raise KeyError.
Proof.
  intros Hlev Hok Hnone.
  rewrite (all_taus_with_levels y_true pred _ avg st Hlev). unfold bind.
  rewrite all_taus_loop_app.
  destruct (all_taus_loop_valid y_true pred before None st I) as (r & st1 & -> & Hv).
  { intros t Ht. apply forallb_CV_folds. intros f Hf. by apply Hok. }
  cbn [all_taus_loop]. unfold mbind, M_bind, bind.
  pose proof (aggregator_missing_first_fold y_true pred r tau st1 Hv Hnone) as H.
  destruct (compute_metrics_for_specified_tau _ _ _ _ _ _) as [[l|e] st2];
    cbn [fst] in *; [discriminate|]. by injection H as ->.
Qed.

(** X26 on the columns of the level 0.975 taken out of the example
    table. *)
Lemma all_taus_unused_level_witness :
  fst (compute_metrics_for_all_taus example_obs sliced_pred true initial_state)
  = Raise KeyError.
Proof.
  apply (all_taus_unused_level example_obs sliced_pred [] (95 # 100) [975 # 1000]).
  - reflexivity.
  - intros t f [].
  - reflexivity.
Defined.
